(** * CodeCast: narration decoding, timeline playback and export

    A shallow embedding of the audio core of CodeCast:

    - [src/services/geminiService.ts]: [decode], [createAudioBufferFromPCM]
      and the shape of [generateAudioSegments];
    - [src/App.tsx]: the refs and state of the [App] component and the
      handlers [handleSubmit], [playSegment], [playAudio], [pauseAudio],
      [stopAudio], [handleTogglePlay], [handleReplay], [handleDeepDive] and
      [handleExportVideo].

    Conventions.  In [Player] and [App] the JavaScript numbers that hold
    times (seconds) are exact rationals [Q]: what is proved there depends on
    which handler ran and on what it did to the refs, not on how a
    difference of two times is rounded.  The offset that [pauseAudio] stores
    and the comparison that guards its safety cap do depend on it, so
    [Player64] gives the handlers that compute with times over IEEE 754
    binary64 numbers, and the properties of the stored offset are proved
    there.  A function that can throw (or an [async] function whose promise
    can reject) returns a [result].  The browser built-ins the code calls
    ([atob], typed arrays, [AudioContext], [MediaRecorder]) are modelled
    after their standards, each in the module [Platform] with the rule it
    follows. *)

From Stdlib Require Import ZArith QArith List Bool Ascii String Lia Lqa.
From Stdlib Require SpecFloat Zpower.
Import ListNotations.

Set Implicit Arguments.

(** ** Exceptions and results *)

Inductive exn : Type :=
  | InvalidCharacterError   (* DOMException raised by atob *)
  | RangeError              (* typed array view over a misaligned length *)
  | NotSupportedError       (* DOMException raised by createBuffer *)
  | InvalidStateError       (* MediaRecorder used while inactive *)
  | GenericError (msg : string).

Inductive result (A : Type) : Type :=
  | Ok (a : A)
  | Throw (e : exn).

Arguments Ok {A} a.
Arguments Throw {A} e.

Definition bind {A B : Type} (r : result A) (k : A -> result B) : result B :=
  match r with
  | Ok a => k a
  | Throw e => Throw e
  end.

Notation "x <- r ;; k" := (bind r (fun x => k))
  (at level 61, r at next level, right associativity).

(** [Promise.all] over already settled promises: the first rejection (in
    array order) rejects the whole, otherwise the values are collected in
    array order. *)
Fixpoint promise_all {A : Type} (rs : list (result A)) : result (list A) :=
  match rs with
  | [] => Ok []
  | r :: rest =>
      match r with
      | Throw e => Throw e
      | Ok a =>
          match promise_all rest with
          | Ok l => Ok (a :: l)
          | Throw e => Throw e
          end
      end
  end.

(** ** Platform built-ins *)

Module Platform.

Local Open Scope Z_scope.

(** *** [atob]: the HTML Standard's forgiving-base64 decode *)

Definition is_ascii_whitespace (c : ascii) : bool :=
  let n := Z.of_nat (nat_of_ascii c) in
  (n =? 9) || (n =? 10) || (n =? 12) || (n =? 13) || (n =? 32).

Definition b64_value (c : ascii) : option Z :=
  let n := Z.of_nat (nat_of_ascii c) in
  if (65 <=? n) && (n <=? 90) then Some (n - 65)
  else if (97 <=? n) && (n <=? 122) then Some (n - 71)
  else if (48 <=? n) && (n <=? 57) then Some (n + 4)
  else if n =? 43 then Some 62
  else if n =? 47 then Some 63
  else None.

Definition is_pad (c : ascii) : bool := Z.of_nat (nat_of_ascii c) =? 61.

(** Step 2: when the length is a multiple of four, one or two trailing
    ['='] are removed. *)
Definition strip_padding (l : list ascii) : list ascii :=
  if (Nat.modulo (List.length l) 4 =? 0)%nat then
    match rev l with
    | c1 :: c2 :: r =>
        if is_pad c1 then (if is_pad c2 then rev r else rev (c2 :: r)) else l
    | [c1] => if is_pad c1 then [] else l
    | [] => l
    end
  else l.

Fixpoint b64_values (l : list ascii) : option (list Z) :=
  match l with
  | [] => Some []
  | c :: rest =>
      match b64_value c, b64_values rest with
      | Some v, Some vs => Some (v :: vs)
      | _, _ => None
      end
  end.

(** Steps 6-10: four sextets give three bytes; a tail of three sextets gives
    two bytes, a tail of two gives one, the spare bits being discarded. *)
Fixpoint sextets_to_bytes (vs : list Z) : list Z :=
  match vs with
  | a :: b :: c :: d :: rest =>
      (a * 4 + b / 16) :: ((b mod 16) * 16 + c / 4) :: ((c mod 4) * 64 + d)
        :: sextets_to_bytes rest
  | [a; b; c] => [a * 4 + b / 16; (b mod 16) * 16 + c / 4]
  | [a; b] => [a * 4 + b / 16]
  | _ => []
  end.

Definition chars_of_bytes (bs : list Z) : string :=
  string_of_list_ascii (map (fun b => ascii_of_N (Z.to_N b)) bs).

Definition atob (data : string) : result string :=
  let l := filter (fun c => negb (is_ascii_whitespace c))
                  (list_ascii_of_string data) in
  let l := strip_padding l in
  if (Nat.modulo (List.length l) 4 =? 1)%nat then Throw InvalidCharacterError
  else
    match b64_values l with
    | None => Throw InvalidCharacterError
    | Some vs => Ok (chars_of_bytes (sextets_to_bytes vs))
    end.

Definition is_byte (b : Z) : Prop := 0 <= b < 256.

Definition is_sextet (v : Z) : Prop := 0 <= v < 64.

(** An encoder, to name the base64 strings that stand for given bytes: the
    alphabet character of each sextet, without padding (which [atob] does
    not require). *)
Definition b64_char (v : Z) : ascii :=
  ascii_of_nat
    (Z.to_nat (if v <? 26 then v + 65
               else if v <? 52 then v + 71
               else if v <? 62 then v - 4
               else if v =? 62 then 43 else 47)).

Fixpoint bytes_to_sextets (bs : list Z) : list Z :=
  match bs with
  | a :: b :: c :: rest =>
      (a / 4) :: ((a mod 4) * 16 + b / 16) :: ((b mod 16) * 4 + c / 64)
        :: (c mod 64) :: bytes_to_sextets rest
  | [a; b] => [a / 4; (a mod 4) * 16 + b / 16; (b mod 16) * 4]
  | [a] => [a / 4; (a mod 4) * 16]
  | [] => []
  end.

Definition base64_of_bytes (bs : list Z) : string :=
  string_of_list_ascii (map b64_char (bytes_to_sextets bs)).

(** [s.charCodeAt(i)] for every [i], in order. *)
Definition charCodes (s : string) : list Z :=
  map (fun c => Z.of_N (N_of_ascii c)) (list_ascii_of_string s).

(** *** Typed arrays *)

(** A [Uint8Array] is the list of its elements, each in [0, 256); storing a
    number keeps it modulo 256. *)
Definition uint8 (n : Z) : Z := n mod 256.

(** The signed 16-bit value of two bytes, low byte first (the byte order of
    every platform the application runs on). *)
Definition int16_le (lo hi : Z) : Z :=
  let u := lo + 256 * hi in
  if u <? 32768 then u else u - 65536.

Fixpoint int16_view (bytes : list Z) : list Z :=
  match bytes with
  | lo :: hi :: rest => int16_le lo hi :: int16_view rest
  | _ => []
  end.

(** [new Int16Array(buffer)]: a [RangeError] unless the byte length of the
    buffer is a multiple of two. *)
Definition new_Int16Array (bytes : list Z) : result (list Z) :=
  if Nat.even (List.length bytes) then Ok (int16_view bytes)
  else Throw RangeError.

(** *** Audio buffers *)

(** A one-channel [AudioBuffer]. *)
Record AudioBuffer : Type := mkAudioBuffer {
  sampleRate : Z;
  channelData : list Q
}.

Definition frames (b : AudioBuffer) : Z := Z.of_nat (List.length (channelData b)).

(** [buffer.duration], in seconds. *)
Definition duration (b : AudioBuffer) : Q :=
  match sampleRate b with
  | Zpos r => Qmake (frames b) r
  | _ => 0%Q
  end.

(** [ctx.createBuffer(1, length, sampleRate)]: Web Audio raises
    [NotSupportedError] when an argument is zero or negative; otherwise the
    buffer is zero-initialised.  A browser also rejects a rate outside the
    range it supports, which the standard only requires to include 8000 to
    96000 Hz; the application passes no rate other than 24000, and nothing
    below applies [createBuffer] to another one. *)
Definition createBuffer (length : nat) (rate : Z) : result AudioBuffer :=
  if (length =? 0)%nat || (rate <=? 0) then Throw NotSupportedError
  else Ok (mkAudioBuffer rate (repeat 0%Q length)).

End Platform.

(** ** [src/services/geminiService.ts] *)

Module GeminiService.

Import Platform.
Local Open Scope Z_scope.

(** [decode]: the characters of [atob(base64)] copied into a [Uint8Array]. *)
Definition decode (base64 : string) : result (list Z) :=
  binaryString <- atob base64 ;;
  Ok (map uint8 (charCodes binaryString)).

Definition DEFAULT_SAMPLE_RATE : Z := 24000.

(** [dataInt16[i] / 32768.0]; the quotient of a 16-bit integer by a power of
    two is exact in a double and in the [Float32Array] it is stored in. *)
Definition sample_of_int16 (v : Z) : Q := Qmake v 32768.

(** [a[i] = v] on a typed array: a write past the end is ignored. *)
Fixpoint set_nth {A : Type} (i : nat) (v : A) (l : list A) : list A :=
  match l, i with
  | [], _ => []
  | _ :: t, O => v :: t
  | h :: t, S j => h :: set_nth j v t
  end.

(** The inner [for] loop of [createAudioBufferFromPCM] (one channel). *)
Definition fill_channel (dataInt16 : list Z) (frameCount : nat)
    (channelData : list Q) : list Q :=
  fold_left
    (fun cd i => set_nth i (sample_of_int16 (nth i dataInt16 0)) cd)
    (seq 0 frameCount) channelData.

Definition createAudioBufferFromPCM_at (sampleRate : Z) (base64Data : string)
    : result AudioBuffer :=
  bytes <- decode base64Data ;;
  dataInt16 <- new_Int16Array bytes ;;
  let frameCount := List.length dataInt16 in
  buffer <- createBuffer frameCount sampleRate ;;
  Ok (mkAudioBuffer (Platform.sampleRate buffer)
        (fill_channel dataInt16 frameCount (channelData buffer))).

(** The application never passes the third argument. *)
Definition createAudioBufferFromPCM (base64Data : string) : result AudioBuffer :=
  createAudioBufferFromPCM_at DEFAULT_SAMPLE_RATE base64Data.

(** *** Tutorial documents (the [TutorialData] interface) *)

Record ExplanationStep : Type := mkStep {
  lineCode : string;
  explanation : string
}.

Record TutorialData : Type := mkTutorial {
  title : string;
  language : string;
  code : string;
  overview : string;
  steps : list ExplanationStep
}.

(** *** [generateAudioSegments] *)

(** What one text-to-speech request does: the call throws, or it answers
    without inline data, or it answers with a payload. *)
Inductive tts_outcome : Type :=
  | TtsThrows
  | TtsNoData
  | TtsData (payload : string).

(** [generateSegment]: [data || null] inside [try], [null] in [catch]. *)
Definition generateSegment (o : tts_outcome) : option string :=
  match o with
  | TtsThrows => None
  | TtsNoData => None
  | TtsData EmptyString => None
  | TtsData payload => Some payload
  end.

Definition segment_texts (data : TutorialData) : list string :=
  overview data :: map explanation (steps data).

(** The synthesizer is a parameter: [tts i text] is the outcome of the
    request issued for the segment at position [i]. *)
Definition generateAudioSegments (tts : nat -> string -> tts_outcome)
    (data : TutorialData) : list (option string) :=
  let segments := segment_texts data in
  map (fun p => generateSegment (tts (fst p) (snd p)))
      (combine (seq 0 (List.length segments)) segments).

End GeminiService.

(** ** [src/App.tsx]: the timeline playback engine *)

Module Player.

Import Platform GeminiService.
Local Open Scope Q_scope.

(** An [AudioBufferSourceNode] made by [playSegment].  Its [onended]
    closure captures [index]; [src_stopped] records a call to [stop()],
    [src_connected] whether it is still wired to [ctx.destination]. *)
Record SourceNode : Type := mkSource {
  src_index : nat;
  src_offset : Q;
  src_stopped : bool;
  src_connected : bool
}.

(** The playback part of the component: the [isPlaying] and
    [currentStepIndex] state, the refs, and the nodes created so far.  A
    node is identified by its position in [nodes], so two nodes are the same
    object exactly when their identifiers are equal.  [playCalls] is a log
    of the arguments of every call of [playSegment], latest first; no
    handler reads it. *)
Record Playback : Type := mkPlayback {
  isPlaying : bool;
  currentStepIndex : nat;
  audioContext : bool;              (* audioContextRef.current is set *)
  audioBuffers : list AudioBuffer;  (* audioBuffersRef.current *)
  audioSource : option nat;         (* audioSourceRef.current *)
  startTime : Q;                    (* startTimeRef.current *)
  pauseOffset : Q;                  (* pauseOffsetRef.current *)
  activeBufferIndex : nat;          (* activeBufferIndexRef.current *)
  nodes : list SourceNode;
  playCalls : list (nat * Q)
}.

Definition initial : Playback :=
  mkPlayback false 0 false [] None 0 0 0 [] [].

Definition stop_node (n : SourceNode) : SourceNode :=
  mkSource (src_index n) (src_offset n) true (src_connected n).

Definition disconnect_node (n : SourceNode) : SourceNode :=
  mkSource (src_index n) (src_offset n) (src_stopped n) false.

Fixpoint update_node (s : nat) (f : SourceNode -> SourceNode)
    (l : list SourceNode) : list SourceNode :=
  match l, s with
  | [], _ => []
  | n :: t, O => f n :: t
  | n :: t, S j => n :: update_node j f t
  end.

(** [playSegment(index, offset)] with [ctx.currentTime = now]. *)
Definition playSegment (now : Q) (index : nat) (offset : Q) (p : Playback)
    : Playback :=
  if (List.length (audioBuffers p) <=? index)%nat then
    mkPlayback false 0 true (audioBuffers p) (audioSource p) (startTime p)
      0 0 (nodes p) ((index, offset) :: playCalls p)
  else
    let source := List.length (nodes p) in
    mkPlayback true index true (audioBuffers p) (Some source) (now - offset)
      (pauseOffset p) index
      (nodes p ++ [mkSource index offset false true])
      ((index, offset) :: playCalls p).

Definition source_is (p : Playback) (s : nat) : bool :=
  match audioSource p with
  | Some s' => (s' =? s)%nat
  | None => false
  end.

(** The [onended] handler installed on node [s]: the dispatch of the
    [ended] event of [s], whether [s] ran to its end or was stopped. *)
Definition onended (now : Q) (s : nat) (p : Playback) : Playback :=
  match nth_error (nodes p) s with
  | Some node =>
      if source_is p s then playSegment now (src_index node + 1) 0 p else p
  | None => p
  end.

Definition playAudio (now : Q) (p : Playback) : Playback :=
  playSegment now (activeBufferIndex p) (pauseOffset p) p.

(** [audioBuffersRef.current[i]?.duration || 0]. *)
Definition duration_or_0 (p : Playback) (i : nat) : Q :=
  match nth_error (audioBuffers p) i with
  | Some b => duration b
  | None => 0
  end.

Definition pauseAudio (now : Q) (p : Playback) : Playback :=
  match audioSource p with
  | Some s =>
      if audioContext p then
        let offset := now - startTime p in
        let over := negb (Qle_bool offset (duration_or_0 p (activeBufferIndex p))) in
        mkPlayback false (currentStepIndex p) (audioContext p)
          (audioBuffers p) None (startTime p)
          (if over then 0 else offset)
          (if over then S (activeBufferIndex p) else activeBufferIndex p)
          (update_node s stop_node (nodes p)) (playCalls p)
      else p
  | None => p
  end.

Definition stopAudio (p : Playback) : Playback :=
  mkPlayback false 0 (audioContext p) (audioBuffers p) None (startTime p)
    0 0
    (match audioSource p with
     | Some s => update_node s (fun n => disconnect_node (stop_node n)) (nodes p)
     | None => nodes p
     end)
    (playCalls p).

Definition handleTogglePlay (now : Q) (p : Playback) : Playback :=
  if isPlaying p then pauseAudio now p else playAudio now p.

Definition handleReplay (now : Q) (p : Playback) : Playback :=
  playAudio now (stopAudio p).

(** The [ended] event of the node that is playing, fired because its
    audio ran to the end. *)
Definition naturalEnd (now : Q) (p : Playback) : Playback :=
  match audioSource p with
  | Some s => onended now s p
  | None => p
  end.

(** Successive natural completions, at the given times. *)
Definition completions (times : list Q) (p : Playback) : Playback :=
  fold_left (fun q t => naturalEnd t q) times p.

(** The state the specification calls Ended. *)
Definition is_ended (p : Playback) : Prop :=
  isPlaying p = false /\ activeBufferIndex p = 0%nat /\
  currentStepIndex p = 0%nat /\ pauseOffset p = 0.

(** *** Predicates the properties are stated with *)

(** Segment [k] is playing: the live node is the one whose closure
    captured [k], and nothing is left from an earlier pause. *)
Definition playing_at (p : Playback) (k : nat) : Prop :=
  isPlaying p = true /\ activeBufferIndex p = k /\ currentStepIndex p = k /\
  pauseOffset p = 0 /\
  exists s node,
    audioSource p = Some s /\ nth_error (nodes p) s = Some node /\
    src_index node = k.

(** The live node, if any, has been created, and an audio context exists
    whenever a node is live. *)
Definition good (p : Playback) : Prop :=
  (forall s, audioSource p = Some s -> (s < List.length (nodes p))%nat) /\
  (audioSource p <> None -> audioContext p = true).

(** How a handler may change the playback state: nodes are never
    forgotten, a node that exists and is not live never becomes live, and
    [good] is kept. *)
Definition evolves (p p' : Playback) : Prop :=
  (List.length (nodes p) <= List.length (nodes p'))%nat /\
  (forall s, (s < List.length (nodes p))%nat ->
             audioSource p <> Some s -> audioSource p' <> Some s) /\
  (good p -> good p').

(** For handlers that leave [audioSource] and [nodes] alone. *)
Ltac same_source := unfold evolves, good; simpl; intuition auto.

End Player.

(** ** [src/App.tsx]: the time arithmetic of the playback engine, in binary64

    [ctx.currentTime], [startTimeRef], [pauseOffsetRef] and
    [buffer.duration] are JavaScript numbers.  This module gives the
    handlers that compute with them over IEEE 754 binary64 as the Standard
    Library's [SpecFloat] specifies it (53 bits of precision, round to
    nearest, ties to even): [playSegment] and [playAudio], which set
    [startTimeRef], and [pauseAudio], which subtracts it from the clock and
    compares the difference with the duration.  The rest of a state is as
    in [Player]. *)

Module Player64.

Import Platform SpecFloat.
Local Open Scope Z_scope.

(** A JavaScript number. *)
Definition number : Type := spec_float.

Definition prec : Z := 53.
Definition emax : Z := 1024.

(** [x - y], [x / y], [x > y] and [x <= y] on numbers; a comparison with
    [NaN] is false. *)
Definition minus (x y : number) : number := SFsub prec emax x y.
Definition divide (x y : number) : number := SFdiv prec emax x y.
Definition gt (x y : number) : bool := SFltb y x.
Definition le (x y : number) : bool := SFleb x y.

(** The literal [0]. *)
Definition zero : number := S754_zero false.

(** The number an integer converts to. *)
Definition of_int (z : Z) : number := binary_normalize prec emax z 0 false.

(** [x || 0]: [NaN], [0] and [-0] are falsy. *)
Definition or_zero (x : number) : number :=
  match x with
  | S754_nan | S754_zero _ => zero
  | _ => x
  end.

(** A reading of the audio clock: a finite number in canonical form. *)
Definition is_time (x : number) : bool :=
  match x with
  | S754_zero _ => true
  | S754_finite _ _ _ => valid_binary prec emax x
  | _ => false
  end.

(** *** Predicates the properties are stated with *)

Definition not_nan (x : number) : bool :=
  match x with
  | S754_nan => false
  | _ => true
  end.

(** The sign bit is clear, or the number is [NaN]. *)
Definition sign_clear (x : number) : bool :=
  match x with
  | S754_zero s | S754_infinity s | S754_finite s _ _ => negb s
  | S754_nan => true
  end.

(** *** The engine *)

(** [buffer.duration]: the length divided by the sample rate, as a double.
    Both are integers here and convert exactly. *)
Definition duration (b : AudioBuffer) : number :=
  match sampleRate b with
  | Zpos r => divide (of_int (frames b)) (of_int (Zpos r))
  | _ => zero
  end.

Record SourceNode : Type := mkSource {
  src_index : nat;
  src_offset : number;
  src_stopped : bool;
  src_connected : bool
}.

Record Playback : Type := mkPlayback {
  isPlaying : bool;
  currentStepIndex : nat;
  audioContext : bool;              (* audioContextRef.current is set *)
  audioBuffers : list AudioBuffer;  (* audioBuffersRef.current *)
  audioSource : option nat;         (* audioSourceRef.current *)
  startTime : number;               (* startTimeRef.current *)
  pauseOffset : number;             (* pauseOffsetRef.current *)
  activeBufferIndex : nat;          (* activeBufferIndexRef.current *)
  nodes : list SourceNode;
  playCalls : list (nat * number)
}.

Definition stop_node (n : SourceNode) : SourceNode :=
  mkSource (src_index n) (src_offset n) true (src_connected n).

Fixpoint update_node (s : nat) (f : SourceNode -> SourceNode)
    (l : list SourceNode) : list SourceNode :=
  match l, s with
  | [], _ => []
  | n :: t, O => f n :: t
  | n :: t, S j => n :: update_node j f t
  end.

(** [playSegment(index, offset)] with [ctx.currentTime = now]. *)
Definition playSegment (now : number) (index : nat) (offset : number)
    (p : Playback) : Playback :=
  if (List.length (audioBuffers p) <=? index)%nat then
    mkPlayback false 0 true (audioBuffers p) (audioSource p) (startTime p)
      zero 0 (nodes p) ((index, offset) :: playCalls p)
  else
    let source := List.length (nodes p) in
    mkPlayback true index true (audioBuffers p) (Some source)
      (minus now offset) (pauseOffset p) index
      (nodes p ++ [mkSource index offset false true])
      ((index, offset) :: playCalls p).

Definition playAudio (now : number) (p : Playback) : Playback :=
  playSegment now (activeBufferIndex p) (pauseOffset p) p.

(** [audioBuffersRef.current[i]?.duration || 0]. *)
Definition duration_or_0 (p : Playback) (i : nat) : number :=
  match nth_error (audioBuffers p) i with
  | Some b => or_zero (duration b)
  | None => zero
  end.

Definition pauseAudio (now : number) (p : Playback) : Playback :=
  match audioSource p with
  | Some s =>
      if audioContext p then
        let offset := minus now (startTime p) in
        let over := gt offset (duration_or_0 p (activeBufferIndex p)) in
        mkPlayback false (currentStepIndex p) (audioContext p)
          (audioBuffers p) None (startTime p)
          (if over then zero else offset)
          (if over then S (activeBufferIndex p) else activeBufferIndex p)
          (update_node s stop_node (nodes p)) (playCalls p)
      else p
  | None => p
  end.

(** *** Sample states *)

(** The double nearest to [n / d] (for integers below 2^53). *)
Definition seconds (n d : Z) : number := divide (of_int n) (of_int d).

(** 256 frames at 24000 Hz. *)
Definition tone : AudioBuffer := mkAudioBuffer 24000 (repeat 0%Q 256).

(** [tone] loaded, nothing playing. *)
Definition loaded : Playback :=
  mkPlayback false 0 true [tone] None zero zero 0 [] [].

(** [tone] started from its beginning when the clock read 128/24000 s. *)
Definition playing : Playback := playAudio (seconds 128 24000) loaded.

End Player64.

(** ** [src/App.tsx]: submission and export *)

Module App.

Import Platform GeminiService Player.
Local Open Scope Q_scope.

Inductive LoadingState : Type :=
  | IDLE | GENERATING_CONTENT | GENERATING_AUDIO | READY | ERROR.

(** A [MediaRecorder]. *)
Inductive RecordingState : Type := Inactive | Recording | RecPaused.

(** The local variables of one running call of [handleExportVideo]:
    the recorder and its negotiated type, [chunks], [totalSteps], the loop
    variable [i], the segments shown so far (with whether audio was routed
    into the recording) and the exception that ended the call, if any. *)
Record ExportJob : Type := mkJob {
  recState : RecordingState;
  mimeType : string;
  chunks : list Z;                  (* sizes of the blobs pushed *)
  totalSteps : nat;
  loop_i : nat;
  shown : list (nat * bool);
  rejected : option exn
}.

(** What [a.click()] hands to the browser: the blob parts and their type. *)
Record Download : Type := mkDownload {
  dl_parts : list Z;
  dl_type : string
}.

Record App : Type := mkApp {
  query : string;
  tutorialData : option TutorialData;
  loadingState : LoadingState;
  error : option exn;               (* the error shown, if any *)
  isExporting : bool;
  playback : Playback;
  job : option ExportJob;
  downloads : list Download
}.

Definition initial : App :=
  mkApp EmptyString None IDLE None false Player.initial None [].

Definition with_playback (st : App) (p : Playback) : App :=
  mkApp (query st) (tutorialData st) (loadingState st) (error st)
    (isExporting st) p (job st) (downloads st).

Definition with_job (st : App) (j : option ExportJob) : App :=
  mkApp (query st) (tutorialData st) (loadingState st) (error st)
    (isExporting st) (playback st) j (downloads st).

Definition setCurrentStepIndex (i : nat) (p : Playback) : Playback :=
  mkPlayback (isPlaying p) i (audioContext p) (audioBuffers p)
    (audioSource p) (startTime p) (pauseOffset p) (activeBufferIndex p)
    (nodes p) (playCalls p).

(** *** [handleSubmit] *)

Definition is_trim_space (c : ascii) : bool :=
  let n := nat_of_ascii c in
  ((9 <=? n) && (n <=? 13) || (n =? 32) || (n =? 160))%nat.

(** [!query.trim()] *)
Definition blank (q : string) : bool :=
  forallb is_trim_space (list_ascii_of_string q).

(** The statements of [handleSubmit] up to its first [await]. *)
Definition handleSubmit_begin (st : App) : App :=
  if blank (query st) then st
  else
    let p := stopAudio (playback st) in
    mkApp (query st) None GENERATING_CONTENT None (isExporting st)
      (mkPlayback (isPlaying p) 0 (audioContext p) [] (audioSource p)
         (startTime p) 0 0 (nodes p) (playCalls p))
      (job st) (downloads st).

(** [2 * 24000], the length passed to [createBuffer] in the fallback. *)
Definition SILENCE_FRAMES : nat := Z.to_nat (2 * 24000).

(** Two seconds of silence at 24000 Hz. *)
Definition silence : AudioBuffer :=
  mkAudioBuffer 24000 (repeat 0 SILENCE_FRAMES).

(** The callback mapped over [audioBase64s]: a truthy payload is decoded,
    anything else becomes two seconds of silence. *)
Definition buffer_for (b64 : option string) : result AudioBuffer :=
  match b64 with
  | Some EmptyString => createBuffer SILENCE_FRAMES 24000
  | Some payload => createAudioBufferFromPCM payload
  | None => createBuffer SILENCE_FRAMES 24000
  end.

Definition decode_all (audioBase64s : list (option string))
    : result (list AudioBuffer) :=
  promise_all (map buffer_for audioBase64s).

Definition with_buffers (p : Playback) (bs : list AudioBuffer) : Playback :=
  mkPlayback (isPlaying p) (currentStepIndex p) true bs (audioSource p)
    (startTime p) (pauseOffset p) (activeBufferIndex p) (nodes p)
    (playCalls p).

Definition with_context (p : Playback) : Playback :=
  mkPlayback (isPlaying p) (currentStepIndex p) true (audioBuffers p)
    (audioSource p) (startTime p) (pauseOffset p) (activeBufferIndex p)
    (nodes p) (playCalls p).

(** The rest of [handleSubmit]: [gen] is how [generateTutorialContent]
    settled and [tts] the synthesizer; the [catch] clause shows the error. *)
Definition handleSubmit_resume (now : Q) (gen : result TutorialData)
    (tts : nat -> string -> tts_outcome) (st : App) : App :=
  match gen with
  | Throw e =>
      mkApp (query st) (tutorialData st) ERROR (Some e) (isExporting st)
        (playback st) (job st) (downloads st)
  | Ok data =>
      let audioBase64s := generateAudioSegments tts data in
      match decode_all audioBase64s with
      | Ok buffers =>
          mkApp (query st) (Some data) READY (error st) (isExporting st)
            (playAudio now (with_buffers (playback st) buffers))
            (job st) (downloads st)
      | Throw e =>
          mkApp (query st) (Some data) ERROR (Some e) (isExporting st)
            (with_context (playback st)) (job st) (downloads st)
      end
  end.

Definition handleSubmit (now : Q) (gen : result TutorialData)
    (tts : nat -> string -> tts_outcome) (st : App) : App :=
  if blank (query st) then st
  else handleSubmit_resume now gen tts (handleSubmit_begin st).

(** [handleDeepDive]: only its effect on playback is kept. *)
Definition handleDeepDive (now : Q) (st : App) : App :=
  match tutorialData st with
  | None => st
  | Some _ => with_playback st (pauseAudio now (playback st))
  end.

(** *** [handleExportVideo] *)

(** The [<main ref={exportContainerRef}>] element is rendered exactly when
    a tutorial is present and loading is [READY]. *)
Definition exportContainer (st : App) : bool :=
  match tutorialData st, loadingState st with
  | Some _, READY => true
  | _, _ => false
  end.

(** The probe of [MediaRecorder.isTypeSupported]. *)
Definition pick_mimeType (supported : string -> bool) : string :=
  if supported "video/mp4"%string then "video/mp4"%string
  else if supported "video/webm;codecs=h264"%string
       then "video/webm;codecs=h264"%string
       else "video/webm"%string.

Definition steps_count (st : App) : nat :=
  match tutorialData st with
  | Some d => List.length (steps d)
  | None => 0
  end.

(** From the click to [recorder.start()]; the guard returns at once. *)
Definition handleExportVideo_begin (supported : string -> bool) (st : App)
    : App :=
  if negb (exportContainer st) || isExporting st then st
  else
    mkApp (query st) (tutorialData st) (loadingState st) (error st) true
      (with_context (stopAudio (playback st)))
      (Some (mkJob Recording (pick_mimeType supported) []
               (steps_count st + 1) 0 [] None))
      (downloads st).

(** What the environment does during one turn of the loop: nothing
    untoward, or [html2canvas] rejects, or the recorder has failed and gone
    inactive, so that [recorder.pause()] throws. *)
Inductive iter_env : Type :=
  | IterOk
  | IterSnapshotRejects (e : exn)
  | IterRecorderFailed.

Definition job_fail (j : ExportJob) (rs : RecordingState) (e : exn)
    : ExportJob :=
  mkJob rs (mimeType j) (chunks j) (totalSteps j) (loop_i j) (shown j)
    (Some e).

(** One turn of the [for] loop of the running job, if it is still in its
    loop.  An exception leaves the loop and rejects the promise of
    [handleExportVideo]; there is no handler around the loop. *)
Definition handleExportVideo_iter (env : iter_env) (st : App) : App :=
  match job st with
  | Some j =>
      match rejected j with
      | Some _ => st
      | None =>
          if (loop_i j <? totalSteps j)%nat then
            let i := loop_i j in
            let p := setCurrentStepIndex i (playback st) in
            match env with
            | IterRecorderFailed =>
                with_job (with_playback st p)
                  (Some (job_fail j Inactive InvalidStateError))
            | IterSnapshotRejects e =>
                with_job (with_playback st p)
                  (Some (job_fail j RecPaused e))
            | IterOk =>
                let audio := (i <? List.length (audioBuffers p))%nat in
                with_job (with_playback st p)
                  (Some (mkJob Recording (mimeType j) (chunks j)
                           (totalSteps j) (S i) (shown j ++ [(i, audio)])
                           None))
            end
          else st
      end
  | None => st
  end.

(** After the loop: [recorder.stop()], the [dataavailable] event with a
    blob of [size] bytes, then the [onstop] handler. *)
Definition handleExportVideo_finish (size : Z) (st : App) : App :=
  match job st with
  | Some j =>
      match rejected j with
      | Some _ => st
      | None =>
          if (loop_i j <? totalSteps j)%nat then st
          else
            let chunks' :=
              if (0 <? size)%Z then chunks j ++ [size] else chunks j in
            let p := playback st in
            mkApp (query st) (tutorialData st) (loadingState st) (error st)
              false
              (mkPlayback (isPlaying p) 0 (audioContext p) (audioBuffers p)
                 (audioSource p) (startTime p) (pauseOffset p) 0 (nodes p)
                 (playCalls p))
              (Some (mkJob Inactive (mimeType j) chunks' (totalSteps j)
                       (loop_i j) (shown j) None))
              (downloads st ++ [mkDownload chunks' (mimeType j)])
      end
  | None => st
  end.

Fixpoint export_loop (envs : list iter_env) (st : App) : App :=
  match envs with
  | [] => st
  | e :: rest => export_loop rest (handleExportVideo_iter e st)
  end.

(** A whole call of [handleExportVideo]: [env i] is what happens during
    turn [i], [size] the size of the recording. *)
Definition handleExportVideo (supported : string -> bool)
    (env : nat -> iter_env) (size : Z) (st : App) : App :=
  if negb (exportContainer st) || isExporting st then st
  else
    let st1 := handleExportVideo_begin supported st in
    let st2 := export_loop (map env (seq 0 (steps_count st + 1))) st1 in
    handleExportVideo_finish size st2.

(** Everything a turn of the loop leaves alone: all of the component but
    the job and the step shown. *)
Definition outside_loop (st : App) :=
  (query st, tutorialData st, loadingState st, error st, isExporting st,
   downloads st, setCurrentStepIndex 0 (playback st)).

(** *** Everything that can happen to the component *)

(** One event is one run of a handler, or of the continuation of an
    [async] handler, between two returns to the event loop.  The model does
    not order the events: any sequence is allowed, which includes every
    sequence the browser can produce.  [SubmitResume] takes the awaits of
    [handleSubmit] in one piece, the statements between them touching only
    [tutorialData] and [loadingState]; [Ended now s] is the dispatch of the
    [ended] event of node [s], whether it ended by itself or by [stop()]. *)

Inductive event : Type :=
  | SetQuery (q : string)
  | Submit
  | SubmitResume (now : Q) (gen : result TutorialData)
      (tts : nat -> string -> tts_outcome)
  | TogglePlay (now : Q)
  | Replay (now : Q)
  | DeepDive (now : Q)
  | ExportClick (supported : string -> bool)
  | ExportTurn (env : iter_env)
  | ExportFinish (size : Z)
  | Unmount
  | Ended (now : Q) (s : nat).

Definition step (ev : event) (st : App) : App :=
  match ev with
  | SetQuery q =>
      mkApp q (tutorialData st) (loadingState st) (error st)
        (isExporting st) (playback st) (job st) (downloads st)
  | Submit => handleSubmit_begin st
  | SubmitResume now gen tts => handleSubmit_resume now gen tts st
  | TogglePlay now => with_playback st (handleTogglePlay now (playback st))
  | Replay now => with_playback st (handleReplay now (playback st))
  | DeepDive now => handleDeepDive now st
  | ExportClick supported => handleExportVideo_begin supported st
  | ExportTurn env => handleExportVideo_iter env st
  | ExportFinish size => handleExportVideo_finish size st
  | Unmount => with_playback st (stopAudio (playback st))
  | Ended now s => with_playback st (onended now s (playback st))
  end.

Definition run (evs : list event) (st : App) : App :=
  fold_left (fun s ev => step ev s) evs st.

End App.

(** ** Concrete inputs used to exercise the statements *)

Module Demo.

Import Platform GeminiService Player App.
Local Open Scope Q_scope.

(** Three frames at 24000 Hz: 1/8000 of a second. *)
Definition clip : AudioBuffer := mkAudioBuffer 24000 [0; 1 # 2; -1 # 2].

(** The playback state once [bufs] are installed and nothing plays. *)
Definition loaded (bufs : list AudioBuffer) : Playback :=
  mkPlayback false 0 true bufs None 0 0 0 [] [].

Definition tutorial : TutorialData :=
  mkTutorial "Center a div" "CSS" "display: grid;" "Stop using floats!"
    [mkStep "display: grid;" "Grid lays the children out.";
     mkStep "place-items: center;" "This centres on both axes."].

(** A synthesizer that always answers with three 16-bit samples. *)
Definition tts_fine (i : nat) (text : string) : tts_outcome :=
  TtsData "AAD/fwCA".

(** A synthesizer whose request for segment 1 throws. *)
Definition tts_step1_fails (i : nat) (text : string) : tts_outcome :=
  if (i =? 1)%nat then TtsThrows else TtsData "AAD/fwCA".

(** A synthesizer whose request for segment 1 throws and whose answer for
    segment 2 is a single byte. *)
Definition tts_step1_fails_step2_odd (i : nat) (text : string) : tts_outcome :=
  if (i =? 1)%nat then TtsThrows
  else if (i =? 2)%nat then TtsData "AA=="
  else TtsData "AAD/fwCA".

(** A synthesizer whose answer for segment 1 is not base64. *)
Definition tts_step1_malformed (i : nat) (text : string) : tts_outcome :=
  if (i =? 1)%nat then TtsData "!!!!" else TtsData "AAD/fwCA".

(** The component after a topic was typed, submitted and generated at
    time 0: three segments, segment 0 playing. *)
Definition submitted : App :=
  run [SetQuery "center a div"; Submit; SubmitResume 0 (Ok tutorial) tts_fine]
      App.initial.

(** The component with a topic typed in and nothing submitted yet. *)
Definition typed : App := step (SetQuery "center a div") App.initial.

Definition all_types (mime : string) : bool := true.

(** An export in which every turn goes well. *)
Definition env_fine (i : nat) : iter_env := IterOk.

(** An export whose snapshot for segment 1 is rejected. *)
Definition env_snapshot_fails_at_1 (i : nat) : iter_env :=
  if (i =? 1)%nat then IterSnapshotRejects (GenericError "html2canvas")
  else IterOk.

(** The component once an export has started and shown segment 0. *)
Definition exporting : App :=
  run [ExportClick all_types; ExportTurn IterOk] submitted.

(** One clip, playing since time 0. *)
Definition playing : Playback := playAudio 0 (loaded [clip]).

(** The same, paused one second later: past the end of the only clip. *)
Definition paused_past_end : Playback := pauseAudio 1 playing.

End Demo.

(** ** The code block component ([CodeBlock]) *)

Module CodeBlock.

(** JavaScript strings are sequences of UTF-16 code units; the three string
    operations [renderCode] uses only compare code units, so the model is
    generic in the type of units and in their equality test. *)
Section Strings.

Variable A : Type.
Variable eqb : A -> A -> bool.

(** [s.startsWith(sep)] *)
Fixpoint startsWith (sep s : list A) : bool :=
  match sep, s with
  | [], _ => true
  | _ :: _, [] => false
  | x :: sep', y :: s' => eqb x y && startsWith sep' s'
  end.

(** [s.includes(sep)] *)
Fixpoint includes (sep s : list A) : bool :=
  startsWith sep s ||
  match s with
  | [] => false
  | _ :: rest => includes sep rest
  end.

(** [s.split(sep)] for a non-empty separator: the matches are taken from
    the left and do not overlap.  [skip] counts the units of the current
    match still to be passed over. *)
Fixpoint split_from (sep : list A) (skip : nat) (s : list A)
    : list (list A) :=
  match s with
  | [] => [[]]
  | c :: rest =>
      match skip with
      | S k => split_from sep k rest
      | O =>
          if startsWith sep s
          then [] :: split_from sep (List.length sep - 1) rest
          else match split_from sep 0 rest with
               | p :: ps => (c :: p) :: ps
               | [] => [[c]]
               end
      end
  end.

Definition split (sep s : list A) : list (list A) := split_from sep 0 s.

(** [parts.join(sep)] *)
Fixpoint join (sep : list A) (parts : list (list A)) : list A :=
  match parts with
  | [] => []
  | [p] => p
  | p :: rest => p ++ sep ++ join sep rest
  end.

(** What a row shows: plain text, or text inside the highlighting
    [<span>]. *)
Inductive piece : Type :=
  | Plain (text : list A)
  | Mark (text : list A).

Definition piece_text (x : piece) : list A :=
  match x with Plain t => t | Mark t => t end.

Definition is_mark (x : piece) : bool :=
  match x with Plain _ => false | Mark _ => true end.

(** The [parts.map] of [renderCode]: every part, followed by the highlight
    except after the last. *)
Fixpoint interleave (highlight : list A) (parts : list (list A))
    : list piece :=
  match parts with
  | [] => []
  | [p] => [Plain p]
  | p :: rest => Plain p :: Mark highlight :: interleave highlight rest
  end.

Variable newline : A.

(** The content of one row: [content || '\n'], where [content] is the line
    itself unless a truthy highlight occurs in it. *)
Definition renderLine (highlight : option (list A)) (line : list A)
    : list piece :=
  let plain :=
    match line with
    | [] => [Plain [newline]]
    | _ :: _ => [Plain line]
    end in
  match highlight with
  | Some (h :: hs) =>
      if includes (h :: hs) line
      then interleave (h :: hs) (split (h :: hs) line)
      else plain
  | _ => plain
  end.

(** [renderCode]: one row per line, numbered from 1. *)
Definition renderCode (highlight : option (list A)) (code : list A)
    : list (nat * list piece) :=
  let lines := split [newline] code in
  combine (seq 1 (List.length lines)) (map (renderLine highlight) lines).

Definition row_text (row : nat * list piece) : list A :=
  List.concat (map piece_text (snd row)).

End Strings.

End CodeBlock.

(** ** Small pure pieces of [App] *)

Module AppView.

Import GeminiService Player App.

(** [currentHighlight]: the fragment of the step shown, if a step is
    shown. *)
Definition currentHighlight (st : App) : option string :=
  match tutorialData st with
  | Some d =>
      let i := currentStepIndex (playback st) in
      if (0 <? i)%nat && (i <=? List.length (steps d))%nat
      then option_map lineCode (nth_error (steps d) (i - 1))
      else None
  | None => None
  end.

(** The rows of the [<CodeBlock>] that [App] renders, with the [code] and
    [highlight] props it passes; the block is on screen only when a
    tutorial is present and loading is [READY]. *)
Definition codeBlockRows (st : App)
    : list (nat * list (CodeBlock.piece ascii)) :=
  match tutorialData st, loadingState st with
  | Some d, READY =>
      CodeBlock.renderCode Ascii.eqb "010"%char
        (option_map list_ascii_of_string (currentHighlight st))
        (list_ascii_of_string (code d))
  | _, _ => []
  end.

(** The title of the deep-dive panel:
    [snippet.length > 30 ? snippet.substring(0, 30) + '...' : snippet]. *)
Definition deepDiveTitle (snippet : string) : string :=
  if (30 <? String.length snippet)%nat
  then (String.substring 0 30 snippet ++ "...")%string
  else snippet.

End AppView.

(** ** Further predicates the properties are stated with *)

Module Predicates.

Import Platform Player App.

(** What [isPlaying] promises: a live node that exists, has not been
    stopped and is still wired to the output, an audio context, and an
    active index inside the buffers. *)
Definition coherent (p : Playback) : Prop :=
  isPlaying p = true ->
  exists s node,
    audioSource p = Some s /\ nth_error (nodes p) s = Some node /\
    src_stopped node = false /\ src_connected node = true /\
    audioContext p = true /\
    (activeBufferIndex p < List.length (audioBuffers p))%nat.

(** Node [n'] is node [n] later on: the same segment and offset, and
    once stopped or disconnected it stays so. *)
Definition later_node (n n' : SourceNode) : Prop :=
  src_index n' = src_index n /\ src_offset n' = src_offset n /\
  (src_stopped n = true -> src_stopped n' = true) /\
  (src_connected n = false -> src_connected n' = false).

(** Every node of [l] is still there in [l'], at the same place. *)
Definition nodes_kept (l l' : list SourceNode) : Prop :=
  forall s n, nth_error l s = Some n ->
              exists n', nth_error l' s = Some n' /\ later_node n n'.

(** An export whose promise has rejected while [isExporting] is set. *)
Definition export_stuck (st : App) : Prop :=
  isExporting st = true /\
  exists j e, job st = Some j /\ rejected j = Some e.

End Predicates.

(** ** Further concrete inputs *)

Module Samples.

Import Platform GeminiService Player App.

(** Standard base64 with ['='] padding, as services send it. *)
Definition padding (n : nat) : list ascii :=
  match Nat.modulo n 4 with
  | 2%nat => ["="%char; "="%char]
  | 3%nat => ["="%char]
  | _ => []
  end.

Definition padded_base64_of_bytes (bs : list Z) : string :=
  string_of_list_ascii
    (map b64_char (bytes_to_sextets bs)
       ++ padding (List.length (bytes_to_sextets bs))).

(** The component just after its export was cut short at segment 1. *)
Definition export_failed : App :=
  handleExportVideo Demo.all_types Demo.env_snapshot_fails_at_1 1000
    Demo.submitted.



End Samples.

(** * Properties *)

(** ** The PCM decoder *)

Module DecoderFacts.

Import Platform GeminiService.
Local Open Scope Z_scope.

Lemma bind_ok {A B : Type} (r : result A) (k : A -> result B) (b : B) :
  bind r k = Ok b -> exists a, r = Ok a /\ k a = Ok b.
Proof.
  destruct r as [a|e]; simpl; intros H; [eauto | discriminate].
Qed.

(** Every element of a decoded [Uint8Array] is a byte. *)
Lemma decode_bytes (b64 : string) (bytes : list Z) :
  decode b64 = Ok bytes -> Forall (fun b => 0 <= b < 256)%Z bytes.
Proof.
  unfold decode. intros H.
  apply bind_ok in H. destruct H as [s [_ H]].
  injection H as <-.
  apply Forall_forall. intros b Hb.
  apply in_map_iff in Hb. destruct Hb as [c [<- _]].
  unfold uint8. apply Z.mod_pos_bound. lia.
Qed.

Lemma int16_le_range (lo hi : Z) :
  (0 <= lo < 256)%Z -> (0 <= hi < 256)%Z ->
  (-32768 <= int16_le lo hi <= 32767)%Z.
Proof.
  intros Hlo Hhi. unfold int16_le.
  destruct (Z.ltb_spec (lo + 256 * hi) 32768); lia.
Qed.

(** The 16-bit view pairs the bytes up, low byte first. *)
Lemma int16_view_spec (k : nat) :
  forall bytes : list Z,
    List.length bytes = (2 * k)%nat ->
    List.length (int16_view bytes) = k /\
    forall i, (i < k)%nat ->
      nth i (int16_view bytes) 0%Z
      = int16_le (nth (2 * i) bytes 0%Z) (nth (2 * i + 1) bytes 0%Z).
Proof.
  induction k as [|k IH]; intros bytes Hlen.
  - destruct bytes; [|discriminate]. split; [reflexivity | intros i Hi; lia].
  - destruct bytes as [|lo [|hi rest]]; try (simpl in Hlen; lia).
    assert (Hrest : List.length rest = (2 * k)%nat) by (simpl in Hlen; lia).
    destruct (IH rest Hrest) as [IHlen IHnth].
    split.
    + simpl. now rewrite IHlen.
    + intros [|i] Hi.
      * reflexivity.
      * replace (2 * S i)%nat with (S (S (2 * i))) by lia.
        replace (S (S (2 * i)) + 1)%nat with (S (S (2 * i + 1))) by lia.
        cbn [int16_view nth]. apply IHnth. lia.
Qed.

Lemma set_nth_length {A : Type} (v : A) :
  forall (l : list A) (i : nat), List.length (set_nth i v l) = List.length l.
Proof.
  induction l as [|h t IH]; intros [|i]; simpl; auto.
Qed.

Lemma nth_set_nth {A : Type} (v d : A) :
  forall (l : list A) (i j : nat),
    nth i (set_nth j v l) d
    = if ((i =? j)%nat && (j <? List.length l)%nat)%bool then v else nth i l d.
Proof.
  induction l as [|h t IH]; intros i j.
  - simpl. rewrite andb_false_r. now destruct j.
  - destruct j as [|j], i as [|i]; simpl; try reflexivity.
    rewrite IH. reflexivity.
Qed.

(** The loop over [i < n] overwrites exactly the first [n] cells. *)
Lemma fill_channel_nth (dataInt16 : list Z) (cd0 : list Q) (n : nat) :
  (n <= List.length cd0)%nat ->
  List.length (fill_channel dataInt16 n cd0) = List.length cd0 /\
  forall i d,
    nth i (fill_channel dataInt16 n cd0) d
    = if (i <? n)%nat then sample_of_int16 (nth i dataInt16 0%Z)
      else nth i cd0 d.
Proof.
  unfold fill_channel. induction n as [|n IH]; intros Hn.
  - simpl. split; [reflexivity | intros i d; reflexivity].
  - rewrite seq_S, fold_left_app. simpl.
    destruct IH as [IHlen IHnth]; [lia|].
    split.
    + now rewrite set_nth_length.
    + intros i d. rewrite nth_set_nth, IHlen, IHnth.
      destruct (Nat.eqb_spec i n) as [->|Hne].
      * replace (n <? List.length cd0)%nat with true
          by (symmetry; apply Nat.ltb_lt; lia).
        replace (n <? S n)%nat with true by (symmetry; apply Nat.ltb_lt; lia).
        reflexivity.
      * simpl.
        destruct (Nat.ltb_spec i n), (Nat.ltb_spec i (S n));
          try reflexivity; lia.
Qed.

(** The filled channel is the pointwise image of the 16-bit samples. *)
Lemma fill_channel_map (dataInt16 : list Z) :
  fill_channel dataInt16 (List.length dataInt16)
    (repeat 0%Q (List.length dataInt16))
  = map sample_of_int16 dataInt16.
Proof.
  destruct (@fill_channel_nth dataInt16
              (repeat 0%Q (List.length dataInt16)) (List.length dataInt16))
    as [Hlen Hnth].
  { now rewrite repeat_length. }
  rewrite repeat_length in Hlen.
  apply nth_ext with (d := 0%Q) (d' := sample_of_int16 0%Z).
  - now rewrite Hlen, length_map.
  - intros i Hi. rewrite Hlen in Hi.
    rewrite Hnth. apply Nat.ltb_lt in Hi. rewrite Hi.
    now rewrite (map_nth sample_of_int16).
Qed.

Lemma sample_unit_interval (v : Z) :
  (-32768 <= v <= 32767)%Z ->
  (-1 <= sample_of_int16 v)%Q /\ (sample_of_int16 v <= 1)%Q.
Proof.
  intros Hv. unfold sample_of_int16, Qle. simpl. lia.
Qed.

(** What [createAudioBufferFromPCM] returns, by cases on the decoded bytes. *)
Lemma createAudioBufferFromPCM_cases (b64 : string) (bytes : list Z) :
  decode b64 = Ok bytes ->
  createAudioBufferFromPCM b64 =
    if Nat.even (List.length bytes) then
      if (List.length (int16_view bytes) =? 0)%nat
      then Throw NotSupportedError
      else Ok (mkAudioBuffer 24000 (map sample_of_int16 (int16_view bytes)))
    else Throw RangeError.
Proof.
  intros Hdec.
  unfold createAudioBufferFromPCM, createAudioBufferFromPCM_at.
  rewrite Hdec. simpl. unfold new_Int16Array.
  destruct (Nat.even (List.length bytes)); [|reflexivity].
  simpl. unfold createBuffer.
  destruct (Nat.eqb_spec (List.length (int16_view bytes)) 0) as [E|E].
  - reflexivity.
  - simpl. now rewrite fill_channel_map.
Qed.

(** *** Base64 strings for given bytes *)

Lemma b64_value_char (v : Z) : is_sextet v -> b64_value (b64_char v) = Some v.
Proof.
  intros Hv. unfold is_sextet in Hv.
  assert (Hall : forallb
            (fun v => match b64_value (b64_char v) with
                      | Some w => w =? v
                      | None => false
                      end) (map Z.of_nat (seq 0 64)) = true)
    by (vm_compute; reflexivity).
  rewrite forallb_forall in Hall.
  assert (Hin : In v (map Z.of_nat (seq 0 64))).
  { apply in_map_iff. exists (Z.to_nat v). split; [lia|].
    apply in_seq. lia. }
  specialize (Hall v Hin).
  destruct (b64_value (b64_char v)) as [w|]; [|discriminate].
  apply Z.eqb_eq in Hall. now subst w.
Qed.

Lemma b64_value_plain (c : ascii) (v : Z) :
  b64_value c = Some v ->
  is_ascii_whitespace c = false /\ is_pad c = false.
Proof.
  unfold b64_value, is_ascii_whitespace, is_pad.
  set (n := Z.of_nat (nat_of_ascii c)).
  intros H.
  destruct (Z.leb_spec 65 n), (Z.leb_spec n 90), (Z.leb_spec 97 n),
    (Z.leb_spec n 122), (Z.leb_spec 48 n), (Z.leb_spec n 57),
    (Z.eqb_spec n 43), (Z.eqb_spec n 47); simpl in H; try discriminate;
    (split; [repeat (apply orb_false_intro); apply Z.eqb_neq; lia
            | apply Z.eqb_neq; lia]).
Qed.

Lemma triple_ind (P : list Z -> Prop) :
  P [] -> (forall a, P [a]) -> (forall a b, P [a; b]) ->
  (forall a b c l, P l -> P (a :: b :: c :: l)) ->
  forall l, P l.
Proof.
  intros H0 H1 H2 H3 l.
  assert (H : P l /\ (forall a, P (a :: l)) /\ (forall a b, P (a :: b :: l))).
  { induction l as [|x l (A & B & C)]; [auto|].
    split; [apply B|]. split; [intros a; apply C|].
    intros a b. apply H3, A. }
  apply H.
Qed.

Lemma sextets_range (bs : list Z) :
  Forall is_byte bs -> Forall is_sextet (bytes_to_sextets bs).
Proof.
  unfold is_byte, is_sextet.
  induction bs as [| a | a b | a b c l IH] using triple_ind; intros H; simpl.
  - constructor.
  - inversion_clear H. repeat constructor;
      Z.to_euclidean_division_equations; lia.
  - inversion_clear H as [|? ? Ha H']. inversion_clear H' as [|? ? Hb _].
    repeat constructor; Z.to_euclidean_division_equations; lia.
  - inversion_clear H as [|? ? Ha H']. inversion_clear H' as [|? ? Hb H''].
    inversion_clear H'' as [|? ? Hc Hl].
    repeat (constructor; [Z.to_euclidean_division_equations; lia|]).
    now apply IH.
Qed.

Lemma sextets_roundtrip (bs : list Z) :
  Forall is_byte bs -> sextets_to_bytes (bytes_to_sextets bs) = bs.
Proof.
  unfold is_byte.
  induction bs as [| a | a b | a b c l IH] using triple_ind; intros H.
  - reflexivity.
  - inversion_clear H. simpl. f_equal.
    Z.to_euclidean_division_equations; lia.
  - inversion_clear H as [|? ? Ha H']. inversion_clear H' as [|? ? Hb _].
    simpl. repeat f_equal; Z.to_euclidean_division_equations; lia.
  - inversion_clear H as [|? ? Ha H']. inversion_clear H' as [|? ? Hb H''].
    inversion_clear H'' as [|? ? Hc Hl].
    cbn [bytes_to_sextets sextets_to_bytes]. rewrite (IH Hl).
    repeat f_equal; Z.to_euclidean_division_equations; lia.
Qed.

Lemma sextets_length (bs : list Z) :
  Nat.modulo (List.length (bytes_to_sextets bs)) 4 <> 1%nat.
Proof.
  induction bs as [| a | a b | a b c l IH] using triple_ind;
    try (simpl; discriminate).
  cbn [bytes_to_sextets List.length].
  replace (S (S (S (S (List.length (bytes_to_sextets l))))))
    with (List.length (bytes_to_sextets l) + 1 * 4)%nat by lia.
  rewrite Nat.Div0.mod_add. exact IH.
Qed.

Lemma b64_values_chars (vs : list Z) :
  Forall is_sextet vs -> b64_values (map b64_char vs) = Some vs.
Proof.
  induction 1 as [|v vs Hv _ IH]; simpl; [reflexivity|].
  now rewrite (b64_value_char Hv), IH.
Qed.

Lemma b64_values_plain (l : list ascii) (vs : list Z) :
  b64_values l = Some vs ->
  Forall (fun c => is_ascii_whitespace c = false /\ is_pad c = false) l.
Proof.
  revert vs. induction l as [|c l IH]; intros vs H; [constructor|].
  simpl in H. destruct (b64_value c) as [v|] eqn:E; [|discriminate].
  destruct (b64_values l) as [vs'|]; [|discriminate].
  constructor; [exact (b64_value_plain c E) | now apply (IH vs')].
Qed.

Lemma filter_plain (l : list ascii) :
  Forall (fun c => is_ascii_whitespace c = false /\ is_pad c = false) l ->
  filter (fun c => negb (is_ascii_whitespace c)) l = l.
Proof.
  induction 1 as [|c l [Hw _] _ IH]; simpl; [reflexivity|].
  now rewrite Hw, IH.
Qed.

Lemma strip_padding_plain (l : list ascii) :
  Forall (fun c => is_ascii_whitespace c = false /\ is_pad c = false) l ->
  strip_padding l = l.
Proof.
  intros H. unfold strip_padding.
  destruct (Nat.modulo (List.length l) 4 =? 0)%nat; [|reflexivity].
  apply Forall_rev in H.
  destruct (rev l) as [|c1 [|c2 r]]; [reflexivity | |];
    inversion_clear H as [|? ? [_ Hp] _]; now rewrite Hp.
Qed.

Lemma charCodes_chars (bs : list Z) :
  Forall is_byte bs -> map uint8 (charCodes (chars_of_bytes bs)) = bs.
Proof.
  intros H. unfold charCodes, chars_of_bytes.
  rewrite list_ascii_of_string_of_list_ascii, !map_map.
  induction H as [|b bs Hb _ IH]; simpl; [reflexivity|].
  rewrite IH. f_equal. unfold is_byte in Hb.
  rewrite N_ascii_embedding by lia.
  rewrite Z2N.id by lia. unfold uint8. now apply Z.mod_small.
Qed.

(** Every sequence of bytes is the decoding of a base64 string. *)
Lemma decode_base64_of_bytes (bs : list Z) :
  Forall is_byte bs -> decode (base64_of_bytes bs) = Ok bs.
Proof.
  intros H.
  pose proof (sextets_range H) as Hs.
  pose proof (b64_values_chars Hs) as Hv.
  pose proof (b64_values_plain _ Hv) as Hp.
  unfold decode, atob, base64_of_bytes.
  rewrite list_ascii_of_string_of_list_ascii.
  rewrite (filter_plain Hp), (strip_padding_plain Hp), length_map.
  destruct (Nat.eqb_spec (Nat.modulo (List.length (bytes_to_sextets bs)) 4) 1)
    as [E|_]; [now apply sextets_length in E|].
  rewrite Hv. simpl. now rewrite (sextets_roundtrip H), (charCodes_chars H).
Qed.

(** So every non-empty sequence of [2k] bytes reaches the decoder through
    some base64 string, and is decoded sample by sample. *)
Lemma pcm_bytes_decodable (bytes : list Z) (k : nat) :
  Forall is_byte bytes ->
  List.length bytes = (2 * k)%nat -> (1 <= k)%nat ->
  createAudioBufferFromPCM (base64_of_bytes bytes)
  = Ok (mkAudioBuffer 24000 (map sample_of_int16 (int16_view bytes))).
Proof.
  intros Hb Hlen Hk.
  rewrite (createAudioBufferFromPCM_cases _ (decode_base64_of_bytes Hb)).
  destruct (int16_view_spec k bytes Hlen) as [Hvlen _].
  rewrite Hlen, Hvlen.
  replace (Nat.even (2 * k)) with true
    by (symmetry; apply Nat.even_spec; now exists k).
  destruct (Nat.eqb_spec k 0); [lia | reflexivity].
Qed.

(** C5 (as amended).  For every base64 string that decodes to [2k] bytes
    with [k >= 1], the decoder returns a 24000 Hz buffer of exactly [k]
    samples; sample [i] is the signed 16-bit little-endian value of bytes
    [2i] and [2i+1] divided by 32768, and lies in [-1, 1]. *)
Theorem createAudioBufferFromPCM_samples (b64 : string) (bytes : list Z)
    (k : nat) :
  decode b64 = Ok bytes ->
  List.length bytes = (2 * k)%nat ->
  (1 <= k)%nat ->
  exists buf,
    createAudioBufferFromPCM b64 = Ok buf /\
    sampleRate buf = 24000%Z /\
    List.length (channelData buf) = k /\
    forall i, (i < k)%nat ->
      let v := int16_le (nth (2 * i) bytes 0%Z) (nth (2 * i + 1) bytes 0%Z) in
      (-32768 <= v <= 32767)%Z /\
      nth i (channelData buf) 0%Q = Qmake v 32768 /\
      (-1 <= nth i (channelData buf) 0)%Q /\
      (nth i (channelData buf) 0 <= 1)%Q.
Proof.
  intros Hdec Hlen Hk.
  destruct (int16_view_spec k bytes Hlen) as [Hvlen Hvnth].
  pose proof (decode_bytes b64 Hdec) as Hbytes.
  rewrite (createAudioBufferFromPCM_cases b64 Hdec), Hlen, Hvlen.
  replace (Nat.even (2 * k)) with true
    by (symmetry; apply Nat.even_spec; now exists k).
  destruct (Nat.eqb_spec k 0) as [E|_]; [lia|].
  eexists. split; [reflexivity|]. cbn [sampleRate channelData].
  split; [reflexivity|]. split; [now rewrite length_map|].
  intros i Hi. set (v := int16_le _ _).
  assert (Hv : (-32768 <= v <= 32767)%Z).
  { subst v. rewrite Forall_forall in Hbytes.
    apply int16_le_range; apply Hbytes; apply nth_In; lia. }
  assert (Hs : nth i (map sample_of_int16 (int16_view bytes)) 0%Q
               = Qmake v 32768).
  { rewrite nth_indep with (d' := sample_of_int16 0%Z)
      by (rewrite length_map; lia).
    rewrite (map_nth sample_of_int16), (Hvnth i Hi). reflexivity. }
  rewrite Hs. split; [exact Hv|]. split; [reflexivity|].
  exact (sample_unit_interval Hv).
Qed.

Lemma createAudioBufferFromPCM_samples_witness :
  exists buf,
    createAudioBufferFromPCM "AAD/fwCA" = Ok buf /\
    sampleRate buf = 24000%Z /\
    List.length (channelData buf) = 3%nat /\
    forall i, (i < 3)%nat ->
      let v := int16_le (nth (2 * i) [0; 0; 255; 127; 0; 128]%Z 0%Z)
                        (nth (2 * i + 1) [0; 0; 255; 127; 0; 128]%Z 0%Z) in
      (-32768 <= v <= 32767)%Z /\
      nth i (channelData buf) 0%Q = Qmake v 32768 /\
      (-1 <= nth i (channelData buf) 0)%Q /\
      (nth i (channelData buf) 0 <= 1)%Q.
Proof.
  apply (@createAudioBufferFromPCM_samples "AAD/fwCA"
           [0; 0; 255; 127; 0; 128]%Z 3).
  - vm_compute. reflexivity.
  - reflexivity.
  - lia.
Defined.

(** C5 fails as stated at [k = 0]: the empty string is valid base64 for
    zero bytes, and the decoder throws instead of returning an empty
    buffer, because [createBuffer] refuses a length of zero.  A payload of
    white space only, which [handleSubmit] does pass on, fares the same. *)
Lemma createAudioBufferFromPCM_empty_throws :
  decode "" = Ok [] /\
  List.length (@nil Z) = (2 * 0)%nat /\
  createAudioBufferFromPCM "" = Throw NotSupportedError /\
  createAudioBufferFromPCM " " = Throw NotSupportedError /\
  ~ exists buf, createAudioBufferFromPCM "" = Ok buf /\
                List.length (channelData buf) = 0%nat.
Proof.
  split; [reflexivity|]. split; [reflexivity|]. split; [reflexivity|].
  split; [reflexivity|].
  intros [buf [H _]]. vm_compute in H. discriminate.
Qed.

(** C10.  When the payload decodes to an odd number of bytes,
    [createAudioBufferFromPCM] throws [RangeError] (the 16-bit view cannot
    be built); it returns neither a buffer nor an error value. *)
Theorem createAudioBufferFromPCM_odd_throws (b64 : string) (bytes : list Z) :
  decode b64 = Ok bytes ->
  Nat.odd (List.length bytes) = true ->
  createAudioBufferFromPCM b64 = Throw RangeError.
Proof.
  intros Hdec Hodd.
  rewrite (createAudioBufferFromPCM_cases b64 Hdec).
  rewrite <- Nat.negb_odd, Hodd. reflexivity.
Qed.

Lemma createAudioBufferFromPCM_odd_throws_witness :
  createAudioBufferFromPCM "AA==" = Throw RangeError.
Proof.
  apply (@createAudioBufferFromPCM_odd_throws "AA==" [0%Z]).
  - vm_compute. reflexivity.
  - reflexivity.
Defined.

End DecoderFacts.

(** ** The timeline playback engine *)

Module PlayerFacts.

Import Platform GeminiService Player.
Local Open Scope Q_scope.

Lemma duration_nonneg (b : AudioBuffer) : 0 <= duration b.
Proof.
  unfold duration, frames. destruct (sampleRate b); try apply Qle_refl.
  unfold Qle. simpl. lia.
Qed.

Lemma update_node_length (s : nat) (f : SourceNode -> SourceNode) :
  forall l : list SourceNode,
    List.length (update_node s f l) = List.length l.
Proof.
  revert s. intros s l. revert s.
  induction l as [|n t IH]; intros [|s]; simpl; auto.
Qed.

Lemma update_node_nth (f : SourceNode -> SourceNode) :
  forall (l : list SourceNode) (s : nat) (n : SourceNode),
    nth_error l s = Some n ->
    nth_error (update_node s f l) s = Some (f n).
Proof.
  induction l as [|h t IH]; intros [|s] n H; simpl in *; try discriminate.
  - now injection H as ->.
  - now apply IH.
Qed.

(** The guard of [playSegment]: an index at or past the end of the buffers
    resets to segment 0, offset 0, not playing, and creates no node. *)
Lemma playSegment_out_of_range (now : Q) (index : nat) (offset : Q)
    (p : Playback) :
  (List.length (audioBuffers p) <= index)%nat ->
  playSegment now index offset p
  = mkPlayback false 0 true (audioBuffers p) (audioSource p) (startTime p)
      0 0 (nodes p) ((index, offset) :: playCalls p).
Proof.
  intros H. unfold playSegment.
  apply Nat.leb_le in H. now rewrite H.
Qed.

Lemma playSegment_in_range (now : Q) (index : nat) (offset : Q)
    (p : Playback) :
  (index < List.length (audioBuffers p))%nat ->
  playSegment now index offset p
  = mkPlayback true index true (audioBuffers p)
      (Some (List.length (nodes p))) (now - offset) (pauseOffset p) index
      (nodes p ++ [mkSource index offset false true])
      ((index, offset) :: playCalls p).
Proof.
  intros H. unfold playSegment.
  replace (List.length (audioBuffers p) <=? index)%nat with false
    by (symmetry; apply Nat.leb_gt; exact H).
  reflexivity.
Qed.

Lemma source_is_true (p : Playback) (s : nat) :
  source_is p s = true <-> audioSource p = Some s.
Proof.
  unfold source_is. destruct (audioSource p) as [s'|].
  - rewrite Nat.eqb_eq. split; [now intros -> | now intros [= ->]].
  - split; discriminate.
Qed.

(** The identity test of [onended]: the event of any node other than the
    one in [audioSourceRef] changes nothing. *)
Lemma onended_not_live (now : Q) (s : nat) (p : Playback) :
  audioSource p <> Some s -> onended now s p = p.
Proof.
  intros H. unfold onended.
  destruct (nth_error (nodes p) s); [|reflexivity].
  destruct (source_is p s) eqn:E; [|reflexivity].
  apply source_is_true in E. contradiction.
Qed.

(** Conversely, an [ended] event that calls [playSegment] is the event of
    the live node, and the call is for the index after the one its closure
    captured, at offset 0. *)
Lemma onended_calls (now : Q) (s : nat) (p : Playback) :
  playCalls (onended now s p) <> playCalls p ->
  audioSource p = Some s /\
  exists node,
    nth_error (nodes p) s = Some node /\
    onended now s p = playSegment now (src_index node + 1) 0 p /\
    playCalls (onended now s p) = ((src_index node + 1)%nat, 0) :: playCalls p.
Proof.
  unfold onended. intros H.
  destruct (nth_error (nodes p) s) as [node|]; [|contradiction].
  destruct (source_is p s) eqn:E; [|contradiction].
  apply source_is_true in E. split; [exact E|].
  exists node. split; [reflexivity|]. split; [reflexivity|].
  unfold playSegment.
  destruct (List.length (audioBuffers p) <=? src_index node + 1)%nat;
    reflexivity.
Qed.

(** *** Playing a sequence through *)

Lemma playSegment_buffers (now : Q) (index : nat) (offset : Q)
    (p : Playback) :
  audioBuffers (playSegment now index offset p) = audioBuffers p.
Proof.
  unfold playSegment.
  destruct (List.length (audioBuffers p) <=? index)%nat; reflexivity.
Qed.

Lemma playSegment_playing_at (now : Q) (k : nat) (offset : Q)
    (p : Playback) :
  (k < List.length (audioBuffers p))%nat ->
  pauseOffset p = 0 ->
  playing_at (playSegment now k offset p) k.
Proof.
  intros Hk Hoff. rewrite playSegment_in_range by exact Hk.
  unfold playing_at. simpl. repeat split; try assumption.
  exists (List.length (nodes p)), (mkSource k offset false true).
  split; [reflexivity|]. split; [|reflexivity].
  rewrite nth_error_app2 by lia. now rewrite Nat.sub_diag.
Qed.

Lemma playSegment_ended (now : Q) (index : nat) (offset : Q)
    (p : Playback) :
  (List.length (audioBuffers p) <= index)%nat ->
  is_ended (playSegment now index offset p).
Proof.
  intros H. rewrite playSegment_out_of_range by exact H.
  unfold is_ended. simpl. auto.
Qed.

(** The natural end of the playing segment [k] is [playSegment(k + 1, 0)]. *)
Lemma naturalEnd_advances (now : Q) (k : nat) (p : Playback) :
  playing_at p k -> naturalEnd now p = playSegment now (k + 1) 0 p.
Proof.
  intros (_ & _ & _ & _ & s & node & Hs & Hn & Hk).
  unfold naturalEnd, onended. rewrite Hs, Hn.
  replace (source_is p s) with true
    by (symmetry; now apply source_is_true).
  now rewrite Hk.
Qed.

Lemma completions_from (times : list Q) :
  forall (p : Playback) (k : nat),
    playing_at p k ->
    (k < List.length (audioBuffers p))%nat ->
    ((k + List.length times < List.length (audioBuffers p))%nat ->
       playing_at (completions times p) (k + List.length times)) /\
    ((k + List.length times = List.length (audioBuffers p))%nat ->
       is_ended (completions times p)).
Proof.
  induction times as [|t ts IH]; intros p k Hp Hk.
  - simpl. rewrite Nat.add_0_r. split; [auto | lia].
  - unfold completions. simpl. fold (completions ts (naturalEnd t p)).
    rewrite (naturalEnd_advances t Hp).
    assert (Hoff : pauseOffset p = 0) by apply Hp.
    destruct (Nat.ltb_spec (k + 1) (List.length (audioBuffers p)))
      as [Hlt|Hge].
    + destruct (IH (playSegment t (k + 1) 0 p) (k + 1)%nat) as [A B].
      * now apply playSegment_playing_at.
      * now rewrite playSegment_buffers.
      * rewrite playSegment_buffers in A, B.
        replace (k + S (List.length ts))%nat
          with (k + 1 + List.length ts)%nat by lia.
        split; assumption.
    + split; [lia|]. intros E.
      assert (ts = []) by (destruct ts; [reflexivity | simpl in E; lia]).
      subst ts. simpl. apply playSegment_ended. lia.
Qed.

(** C2.  Starting at segment 0 with offset 0 over [N] buffers, [playAudio]
    followed by [k < N] natural completions is playing segment [k]; after
    the [N]-th completion the engine is Ended (index 0, offset 0, not
    playing), and a further [playAudio] starts segment 0 at offset 0. *)
Theorem natural_playthrough (p : Playback) (t0 : Q) (times : list Q) :
  activeBufferIndex p = 0%nat ->
  pauseOffset p = 0 ->
  List.length times = List.length (audioBuffers p) ->
  (forall k, (k < List.length (audioBuffers p))%nat ->
     let q := completions (firstn k times) (playAudio t0 p) in
     activeBufferIndex q = k /\ currentStepIndex q = k /\
     isPlaying q = true) /\
  is_ended (completions times (playAudio t0 p)) /\
  (forall now, (0 < List.length (audioBuffers p))%nat ->
     let r := playAudio now (completions times (playAudio t0 p)) in
     activeBufferIndex r = 0%nat /\ currentStepIndex r = 0%nat /\
     isPlaying r = true /\ startTime r = now - 0 /\
     hd_error (playCalls r) = Some (0%nat, 0)).
Proof.
  intros Hidx Hoff Hlen.
  assert (Hpa : playAudio t0 p = playSegment t0 0 0 p)
    by (unfold playAudio; now rewrite Hidx, Hoff).
  rewrite Hpa. clear Hpa. cbv zeta.
  destruct (Nat.ltb_spec 0 (List.length (audioBuffers p))) as [Hpos|Hzero].
  - pose proof (@playSegment_playing_at t0 0%nat 0 p Hpos Hoff) as Hplay.
    assert (Hb : audioBuffers (playSegment t0 0 0 p) = audioBuffers p)
      by apply playSegment_buffers.
    assert (Hend : is_ended (completions times (playSegment t0 0 0 p))).
    { assert (Hpos' : (0 < List.length
                             (audioBuffers (playSegment t0 0 0 p)))%nat)
        by (rewrite Hb; exact Hpos).
      destruct (completions_from times Hplay Hpos') as [_ B].
      apply B. rewrite Hb. simpl. lia. }
    split; [|split; [exact Hend|]].
    + intros k Hk.
      assert (Hpos' : (0 < List.length
                             (audioBuffers (playSegment t0 0 0 p)))%nat)
        by (rewrite Hb; exact Hpos).
      destruct (completions_from (firstn k times) Hplay Hpos') as [A _].
      rewrite Hb, length_firstn, Nat.min_l in A by lia.
      simpl in A. specialize (A Hk).
      destruct A as (A1 & A2 & A3 & _). auto.
    + intros now _.
      destruct Hend as (_ & E2 & _ & E4).
      assert (Hbe : audioBuffers (completions times (playSegment t0 0 0 p))
                    = audioBuffers p).
      { clear - Hb. rewrite <- Hb.
        generalize (playSegment t0 0 0 p). clear Hb.
        induction times as [|t ts IH]; intros q; [reflexivity|].
        unfold completions. simpl. fold (completions ts (naturalEnd t q)).
        rewrite IH. unfold naturalEnd, onended.
        destruct (audioSource q); [|reflexivity].
        destruct (nth_error (nodes q) n); [|reflexivity].
        destruct (source_is q n); [apply playSegment_buffers | reflexivity]. }
      unfold playAudio. rewrite E2, E4.
      rewrite playSegment_in_range by (rewrite Hbe; exact Hpos).
      simpl. auto.
  - assert (Hnil : times = [])
      by (destruct times; [reflexivity | simpl in Hlen; lia]).
    subst times.
    split; [intros k Hk; lia|]. split; [|intros now Hn; lia].
    simpl. apply playSegment_ended. lia.
Qed.

Lemma natural_playthrough_witness :
  (forall k, (k < 2)%nat ->
     let q := completions (firstn k [1; 2])
                (playAudio 0 (Demo.loaded [Demo.clip; Demo.clip])) in
     activeBufferIndex q = k /\ currentStepIndex q = k /\
     isPlaying q = true) /\
  is_ended (completions [1; 2]
              (playAudio 0 (Demo.loaded [Demo.clip; Demo.clip]))) /\
  (forall now, (0 < 2)%nat ->
     let r := playAudio now
                (completions [1; 2]
                   (playAudio 0 (Demo.loaded [Demo.clip; Demo.clip]))) in
     activeBufferIndex r = 0%nat /\ currentStepIndex r = 0%nat /\
     isPlaying r = true /\ startTime r = now - 0 /\
     hd_error (playCalls r) = Some (0%nat, 0)).
Proof.
  apply (@natural_playthrough (Demo.loaded [Demo.clip; Demo.clip]) 0 [1; 2]).
  - reflexivity.
  - reflexivity.
  - reflexivity.
Defined.

(** *** Indices past the end *)

Lemma pauseAudio_buffers (now : Q) (p : Playback) :
  audioBuffers (pauseAudio now p) = audioBuffers p.
Proof.
  unfold pauseAudio.
  destruct (audioSource p); [|reflexivity].
  destruct (audioContext p); reflexivity.
Qed.

(** [pauseAudio] never lowers the active index. *)
Lemma pauseAudio_index_le (now : Q) (p : Playback) :
  (activeBufferIndex p <= activeBufferIndex (pauseAudio now p))%nat.
Proof.
  unfold pauseAudio.
  destruct (audioSource p); [|lia].
  destruct (audioContext p); [|lia].
  simpl. destruct (negb _); lia.
Qed.

Lemma pauseAudio_offset_kept (now : Q) (p : Playback) :
  pauseOffset p = 0 -> audioSource p = None ->
  pauseOffset (pauseAudio now p) = 0.
Proof.
  intros H Hs. unfold pauseAudio. now rewrite Hs.
Qed.

(** C9 (as amended).  [playSegment] called with an index at or past the
    end of the buffers starts no node and leaves the engine Ended (index 0,
    offset 0, not playing); so do [playAudio], and the completion of the
    live node, when the index they pass on is out of range.  [pauseAudio]
    on an out-of-range index does not move to Ended: the index stays out of
    range, and it is the next [playAudio] that ends. *)
Theorem out_of_range_index_guard (p : Playback) (now : Q) (index : nat)
    (offset : Q) :
  (List.length (audioBuffers p) <= index)%nat ->
  (is_ended (playSegment now index offset p) /\
   nodes (playSegment now index offset p) = nodes p) /\
  (activeBufferIndex p = index -> is_ended (playAudio now p)) /\
  (forall s node,
     audioSource p = Some s -> nth_error (nodes p) s = Some node ->
     (src_index node + 1)%nat = index -> is_ended (onended now s p)) /\
  (activeBufferIndex p = index ->
   forall t,
     (List.length (audioBuffers (pauseAudio t p))
      <= activeBufferIndex (pauseAudio t p))%nat /\
     is_ended (playAudio now (pauseAudio t p))).
Proof.
  intros Hout.
  split; [split|split; [|split]].
  - now apply playSegment_ended.
  - now rewrite playSegment_out_of_range.
  - intros <-. now apply playSegment_ended.
  - intros s node Hs Hn Hi. unfold onended. rewrite Hn.
    replace (source_is p s) with true by (symmetry; now apply source_is_true).
    rewrite Hi. now apply playSegment_ended.
  - intros Hidx t.
    assert (Hstill : (List.length (audioBuffers (pauseAudio t p))
                      <= activeBufferIndex (pauseAudio t p))%nat).
    { rewrite pauseAudio_buffers.
      pose proof (pauseAudio_index_le t p). lia. }
    split; [exact Hstill|].
    now apply playSegment_ended.
Qed.

Lemma out_of_range_index_guard_witness :
  (is_ended (playSegment 2 1 0 Demo.paused_past_end) /\
   nodes (playSegment 2 1 0 Demo.paused_past_end)
   = nodes Demo.paused_past_end) /\
  (activeBufferIndex Demo.paused_past_end = 1%nat ->
   is_ended (playAudio 2 Demo.paused_past_end)) /\
  (forall s node,
     audioSource Demo.paused_past_end = Some s ->
     nth_error (nodes Demo.paused_past_end) s = Some node ->
     (src_index node + 1)%nat = 1%nat ->
     is_ended (onended 2 s Demo.paused_past_end)) /\
  (activeBufferIndex Demo.paused_past_end = 1%nat ->
   forall t,
     (List.length (audioBuffers (pauseAudio t Demo.paused_past_end))
      <= activeBufferIndex (pauseAudio t Demo.paused_past_end))%nat /\
     is_ended (playAudio 2 (pauseAudio t Demo.paused_past_end))).
Proof.
  apply (@out_of_range_index_guard Demo.paused_past_end 2 1%nat 0).
  vm_compute. apply le_n.
Defined.

(** C9 fails as stated for [pauseAudio]: once a pause issued after the end
    of the last clip has pushed the index past the end, another pause finds
    the index out of range and leaves it there; the engine is not Ended. *)
Lemma pause_out_of_range_not_ended :
  (List.length (audioBuffers Demo.paused_past_end)
   <= activeBufferIndex Demo.paused_past_end)%nat /\
  pauseAudio 2 Demo.paused_past_end = Demo.paused_past_end /\
  activeBufferIndex (pauseAudio 2 Demo.paused_past_end) = 1%nat /\
  ~ is_ended (pauseAudio 2 Demo.paused_past_end).
Proof.
  split; [vm_compute; apply le_n|].
  split; [reflexivity|]. split; [reflexivity|].
  intros (_ & H & _). vm_compute in H. discriminate.
Qed.

End PlayerFacts.

(** ** The stored pause offset, in binary64 *)

Module Player64Facts.

Import Platform SpecFloat Zpower Player64.
Local Open Scope Z_scope.

(** *** Signs and rounding *)

Lemma le_zero_sign_clear (x : number) :
  not_nan x = true -> sign_clear x = true -> le zero x = true.
Proof.
  destruct x as [s|s| |s m e]; simpl; try discriminate; intros _ H;
    destruct s; try discriminate; reflexivity.
Qed.

Lemma le_zero_not_nan (x : number) : le zero x = true -> not_nan x = true.
Proof. destruct x; simpl; try reflexivity. discriminate. Qed.

(** Rounding keeps the sign it is given. *)
Lemma binary_round_aux_sign (m e : Z) (l : location) :
  sign_clear (binary_round_aux prec emax false m e l) = true.
Proof.
  unfold binary_round_aux.
  destruct (shr_fexp prec emax m e l) as [mrs' e'].
  destruct (shr_fexp prec emax _ e' loc_Exact) as [mrs'' e''].
  destruct (shr_m mrs''); [reflexivity| |reflexivity].
  destruct (e'' <=? emax - prec); reflexivity.
Qed.

Lemma shr_1_nonneg (mrs : shr_record) :
  0 <= shr_m mrs -> 0 <= shr_m (shr_1 mrs).
Proof.
  destruct mrs as [m r s]. destruct m as [|[q|q|]|q]; simpl; lia.
Qed.

Lemma iter_pos_nonneg (k : positive) :
  forall mrs, 0 <= shr_m mrs -> 0 <= shr_m (iter_pos shr_1 k mrs).
Proof.
  induction k as [k IH|k IH|]; simpl; intros mrs H.
  - apply IH, IH, shr_1_nonneg, H.
  - apply IH, IH, H.
  - apply shr_1_nonneg, H.
Qed.

Lemma shr_fexp_nonneg (m e : Z) (l : location) :
  0 <= m -> 0 <= shr_m (fst (shr_fexp prec emax m e l)).
Proof.
  intros H. unfold shr_fexp, shr.
  assert (H0 : 0 <= shr_m (shr_record_of_loc m l)).
  { destruct l as [|[]]; exact H. }
  destruct (fexp prec emax (Zdigits2 m + e) - e); simpl; auto.
  now apply iter_pos_nonneg.
Qed.

Lemma round_nearest_even_nonneg (m : Z) (l : location) :
  0 <= m -> 0 <= round_nearest_even m l.
Proof.
  intros H. destruct l as [|[]]; simpl; try lia.
  destruct (Z.even m); lia.
Qed.

(** Rounding a mantissa that is not negative never gives [NaN]. *)
Lemma binary_round_aux_not_nan (sx : bool) (m e : Z) (l : location) :
  0 <= m -> not_nan (binary_round_aux prec emax sx m e l) = true.
Proof.
  intros H. unfold binary_round_aux.
  pose proof (@shr_fexp_nonneg m e l H) as H1.
  destruct (shr_fexp prec emax m e l) as [mrs' e']. simpl in H1.
  pose proof (@shr_fexp_nonneg _ e' loc_Exact
                (@round_nearest_even_nonneg _ (loc_of_shr_record mrs') H1))
    as H2.
  destruct (shr_fexp prec emax _ e' loc_Exact) as [mrs'' e'']. simpl in H2.
  destruct (shr_m mrs''); [reflexivity| |lia].
  destruct (e'' <=? emax - prec); reflexivity.
Qed.

Lemma binary_normalize_nonneg (D e : Z) :
  0 <= D -> le zero (binary_normalize prec emax D e false) = true.
Proof.
  intros H. destruct D as [|m|m]; [reflexivity| |lia].
  unfold binary_normalize, binary_round.
  destruct (shl_align m e _) as [mz ez].
  apply le_zero_sign_clear.
  - apply binary_round_aux_not_nan. lia.
  - apply binary_round_aux_sign.
Qed.

(** *** Canonical mantissas *)

Lemma pow2_step (d : Z) : 1 <= d -> 2 ^ d = 2 * 2 ^ (d - 1).
Proof.
  intros H. rewrite <- Z.pow_succ_r by lia. f_equal. lia.
Qed.

Lemma digits2_bounds (m : positive) :
  2 ^ (Zpos (digits2_pos m) - 1) <= Zpos m < 2 ^ Zpos (digits2_pos m).
Proof.
  induction m as [q IH|q IH|]; simpl digits2_pos;
    [change (Zpos q~1) with (2 * Zpos q + 1)
    |change (Zpos q~0) with (2 * Zpos q)
    |simpl; lia];
    rewrite Pos2Z.inj_succ;
    rewrite (@pow2_step (Z.succ _)) by lia;
    replace (Z.succ (Zpos (digits2_pos q)) - 1) with (Zpos (digits2_pos q))
      by lia;
    rewrite (@pow2_step (Zpos (digits2_pos q))) in * by lia;
    revert IH; generalize (2 ^ (Zpos (digits2_pos q) - 1)); intros; lia.
Qed.

(** A canonical binary64 mantissa is below 2^53, its exponent is at least
    -1074, and above that exponent the mantissa has all its 53 bits. *)
Lemma canonical_facts (m : positive) (e : Z) :
  canonical_mantissa prec emax m e = true ->
  Zpos m < 2 ^ 53 /\ -1074 <= e /\ (-1074 < e -> 2 ^ 52 <= Zpos m).
Proof.
  unfold canonical_mantissa, fexp, emin, prec, emax. intros H.
  apply Z.eqb_eq in H.
  pose proof (digits2_bounds m) as [Hlo Hhi].
  assert (Hd : Zpos (digits2_pos m) <= 53) by lia.
  split; [|split].
  - eapply Z.lt_le_trans; [exact Hhi|]. apply Z.pow_le_mono_r; lia.
  - lia.
  - intros He. assert (Zpos (digits2_pos m) = 53) as E by lia.
    rewrite E in Hlo. exact Hlo.
Qed.

Lemma shl_align_same (mx : positive) (ex ez : Z) :
  ex <= ez -> fst (shl_align mx ex ez) = mx.
Proof.
  intros H. unfold shl_align. destruct (ez - ex) eqn:E; try reflexivity. lia.
Qed.

Lemma shl_align_shift (mx : positive) (ex ez : Z) :
  ez <= ex -> Zpos (fst (shl_align mx ex ez)) = Zpos mx * 2 ^ (ex - ez).
Proof.
  intros H. unfold shl_align. destruct (ez - ex) as [|d|d] eqn:E.
  - replace (ex - ez) with 0 by lia. simpl. lia.
  - lia.
  - simpl fst. replace (ex - ez) with (Zpos d) by lia.
    change (Pos.iter xO mx d) with (shift_pos d mx).
    rewrite shift_pos_correct, Zpower_pos_nat, Zpower_nat_Z, positive_nat_Z.
    lia.
Qed.

(** Of two canonical numbers, the one with the larger exponent has the
    larger mantissa once both are aligned. *)
Lemma aligned_dominates (m1 m2 : positive) (e1 e2 : Z) :
  canonical_mantissa prec emax m1 e1 = true ->
  canonical_mantissa prec emax m2 e2 = true ->
  e2 < e1 ->
  Zpos (fst (shl_align m2 e2 (Z.min e1 e2)))
  <= Zpos (fst (shl_align m1 e1 (Z.min e1 e2))).
Proof.
  intros H1 H2 He.
  apply canonical_facts in H1. destruct H1 as (_ & _ & Hbig).
  apply canonical_facts in H2. destruct H2 as (Hsmall & Hmin & _).
  rewrite Z.min_r by lia.
  rewrite shl_align_same by lia.
  rewrite shl_align_shift by lia.
  assert (Hp : 2 ^ 1 <= 2 ^ (e1 - e2)) by (apply Z.pow_le_mono_r; lia).
  specialize (Hbig ltac:(lia)).
  change (2 ^ 1) with 2 in Hp.
  change (2 ^ 53) with 9007199254740992 in Hsmall.
  change (2 ^ 52) with 4503599627370496 in Hbig.
  nia.
Qed.

Lemma aligned_equal (m : positive) (e : Z) :
  fst (shl_align m e (Z.min e e)) = m.
Proof. apply shl_align_same. lia. Qed.

(** *** Subtraction and comparison *)

(** The difference of two clock readings taken in order is not negative,
    and is a number. *)
Lemma minus_nonneg (x y : number) :
  is_time x = true -> is_time y = true -> le y x = true ->
  le zero (minus x y) = true.
Proof.
  unfold le, minus.
  destruct x as [sx|sx| |sx mx ex], y as [sy|sy| |sy my ey];
    try discriminate; cbn [is_time valid_binary]; intros Hx Hy Hle.
  - destruct sx, sy; reflexivity.
  - destruct sy; [reflexivity|discriminate].
  - destruct sx; [discriminate|reflexivity].
  - unfold bounded in Hx, Hy.
    apply andb_true_iff in Hx. destruct Hx as [Hx _].
    apply andb_true_iff in Hy. destruct Hy as [Hy _].
    unfold SFsub. apply binary_normalize_nonneg.
    unfold SFleb, SFcompare in Hle.
    destruct sy, sx; try discriminate Hle; cbn [cond_Zopp].
    + (* both negative *)
      destruct (Z.compare_spec ey ex) as [E|E|E]; try discriminate.
      * subst ey. rewrite !aligned_equal.
        destruct (Pos.compare_cont Eq my mx) eqn:C; try discriminate.
        -- apply Pos.compare_eq in C. clear - C. lia.
        -- change (Pos.compare_cont Eq my mx) with (my ?= mx)%positive in C.
           apply Pos.compare_gt_iff in C. clear - C. lia.
      * pose proof (@aligned_dominates my mx ey ex Hy Hx E) as H.
        rewrite Z.min_comm in H. clear - H. lia.
    + (* y negative, x positive *)
      clear Hx Hy Hle. lia.
    + (* both positive *)
      destruct (Z.compare_spec ey ex) as [E|E|E]; try discriminate.
      * subst ey. rewrite !aligned_equal.
        destruct (Pos.compare_cont Eq my mx) eqn:C; try discriminate.
        -- apply Pos.compare_eq in C. clear - C. lia.
        -- change (my < mx)%positive in C. clear - C. lia.
      * pose proof (@aligned_dominates mx my ex ey Hx Hy E) as H.
        clear - H. lia.
Qed.

Lemma SFcompare_antisym (x y : number) :
  SFcompare x y = option_map CompOpp (SFcompare y x).
Proof.
  destruct x as [sx|sx| |sx mx ex], y as [sy|sy| |sy my ey]; simpl;
    try reflexivity; try (destruct sx; reflexivity);
    try (destruct sy; reflexivity); try (destruct sx, sy; reflexivity).
  f_equal. rewrite (Z.compare_antisym ex ey).
  change (Pos.compare_cont Eq mx my) with (mx ?= my)%positive.
  change (Pos.compare_cont Eq my mx) with (my ?= mx)%positive.
  rewrite (Pos.compare_antisym mx my).
  destruct sx, sy; try reflexivity;
    destruct (ex ?= ey); simpl; try reflexivity;
    destruct (mx ?= my)%positive; reflexivity.
Qed.

(** Between numbers, [x > y] is false exactly when [x <= y]. *)
Lemma not_gt_le (x y : number) :
  not_nan x = true -> not_nan y = true -> gt x y = false -> le x y = true.
Proof.
  unfold gt, le, SFltb, SFleb. intros Hx Hy.
  rewrite (SFcompare_antisym x y).
  destruct (SFcompare y x) as [[]|] eqn:C; simpl; try reflexivity;
    try discriminate.
  intros _. destruct x, y; simpl in *; discriminate.
Qed.

(** *** Durations *)

Lemma divide_sign_clear (x y : number) :
  sign_clear x = true -> sign_clear y = true ->
  sign_clear (divide x y) = true.
Proof.
  unfold divide.
  destruct x as [sx|sx| |sx mx ex], y as [sy|sy| |sy my ey]; simpl;
    try reflexivity; try (destruct sx, sy; simpl; congruence).
  destruct sx, sy; simpl; try discriminate. intros _ _.
  destruct (SFdiv_core_binary prec emax (Zpos mx) ex (Zpos my) ey)
    as [[mz ez] lz].
  apply binary_round_aux_sign.
Qed.

Lemma of_int_sign_clear (z : Z) : 0 <= z -> sign_clear (of_int z) = true.
Proof.
  intros H. unfold of_int, binary_normalize, binary_round.
  destruct z as [|m|m]; [reflexivity| |lia].
  destruct (shl_align m 0 _) as [mz ez].
  apply binary_round_aux_sign.
Qed.

Lemma or_zero_not_nan (x : number) : not_nan (or_zero x) = true.
Proof. destruct x; reflexivity. Qed.

(** The duration [pauseAudio] compares with is a number and is not
    negative. *)
Lemma duration64_nonneg (b : AudioBuffer) : le zero (or_zero (duration b)) = true.
Proof.
  apply le_zero_sign_clear; [apply or_zero_not_nan|].
  assert (H : sign_clear (duration b) = true).
  { unfold duration. destruct (sampleRate b) as [|r|r]; try reflexivity.
    apply divide_sign_clear; apply of_int_sign_clear; unfold frames; lia. }
  destruct (duration b) as [s|s| |s m e]; simpl in *; congruence.
Qed.

Lemma update_node64_nth (f : SourceNode -> SourceNode) :
  forall (l : list SourceNode) (s : nat) (n : SourceNode),
    nth_error l s = Some n ->
    nth_error (update_node s f l) s = Some (f n).
Proof.
  induction l as [|h t IH]; intros [|s] n H; simpl in *; try discriminate.
  - now injection H as ->.
  - now apply IH.
Qed.

(** C3.  [pauseAudio] from a playing state: node [s] is live and plays
    segment [i], whose buffer is [b], and the clock reads [now], not before
    [startTime].  The node is stopped, the source reference and [isPlaying]
    are cleared, and the stored offset lies between 0 and the duration the
    code compares with.  All numbers are binary64: when the computed
    difference [now - startTime] is not greater than the duration it is the
    stored offset and the index stays [i]; when it is greater, the index
    becomes [i + 1] and the offset 0. *)
Theorem pause_offset_within_duration (p : Playback) (now : number)
    (s i : nat) (b : AudioBuffer) (n : SourceNode) :
  audioSource p = Some s ->
  audioContext p = true ->
  nth_error (nodes p) s = Some n ->
  activeBufferIndex p = i ->
  nth_error (audioBuffers p) i = Some b ->
  is_time (startTime p) = true ->
  is_time now = true ->
  le (startTime p) now = true ->
  audioSource (pauseAudio now p) = None /\
  isPlaying (pauseAudio now p) = false /\
  (exists n',
     nth_error (nodes (pauseAudio now p)) s = Some n' /\
     src_stopped n' = true /\ src_index n' = src_index n /\
     src_offset n' = src_offset n /\ src_connected n' = src_connected n) /\
  le zero (pauseOffset (pauseAudio now p)) = true /\
  le (pauseOffset (pauseAudio now p)) (or_zero (duration b)) = true /\
  (gt (minus now (startTime p)) (or_zero (duration b)) = false ->
     activeBufferIndex (pauseAudio now p) = i /\
     pauseOffset (pauseAudio now p) = minus now (startTime p)) /\
  (gt (minus now (startTime p)) (or_zero (duration b)) = true ->
     activeBufferIndex (pauseAudio now p) = S i /\
     pauseOffset (pauseAudio now p) = zero).
Proof.
  intros Hsrc Hctx Hn Hidx Hbuf Ht0 Hnow Hle.
  pose proof (@minus_nonneg now (startTime p) Hnow Ht0 Hle) as Hoff.
  pose proof (duration64_nonneg b) as Hd.
  unfold pauseAudio, duration_or_0. rewrite Hsrc, Hctx, Hidx, Hbuf.
  cbv zeta.
  destruct (gt (minus now (startTime p)) (or_zero (duration b))) eqn:G;
    cbn [audioSource isPlaying nodes pauseOffset activeBufferIndex].
  - split; [reflexivity|]. split; [reflexivity|].
    split.
    { exists (stop_node n). split; [now apply update_node64_nth|].
      repeat split. }
    split; [reflexivity|]. split; [exact Hd|].
    split; [discriminate|]. intros _. split; reflexivity.
  - split; [reflexivity|]. split; [reflexivity|].
    split.
    { exists (stop_node n). split; [now apply update_node64_nth|].
      repeat split. }
    split; [exact Hoff|].
    split.
    { apply not_gt_le; [now apply le_zero_not_nan|apply or_zero_not_nan|exact G]. }
    split; [intros _; split; reflexivity | discriminate].
Qed.

(** At 24000 Hz, a 256-frame buffer started when the clock read 128/24000 s.
    Paused at 0.01 s the offset is the difference and the index stays 0.
    Paused at 0.016 s the difference, exactly the duration over the
    rationals, is computed one unit in the last place above the duration,
    and the index moves to 1 with offset 0. *)
Lemma pause_offset_within_duration_witness :
  (gt (minus (seconds 1 100) (startTime playing)) (or_zero (duration tone))
   = false /\
   activeBufferIndex (pauseAudio (seconds 1 100) playing) = 0%nat /\
   pauseOffset (pauseAudio (seconds 1 100) playing)
   = minus (seconds 1 100) (startTime playing) /\
   le zero (pauseOffset (pauseAudio (seconds 1 100) playing)) = true /\
   le (pauseOffset (pauseAudio (seconds 1 100) playing))
     (or_zero (duration tone)) = true /\
   exists n',
     nth_error (nodes (pauseAudio (seconds 1 100) playing)) 0 = Some n' /\
     src_stopped n' = true) /\
  (gt (minus (seconds 16 1000) (startTime playing)) (or_zero (duration tone))
   = true /\
   activeBufferIndex (pauseAudio (seconds 16 1000) playing) = 1%nat /\
   pauseOffset (pauseAudio (seconds 16 1000) playing) = zero /\
   le (pauseOffset (pauseAudio (seconds 16 1000) playing))
     (or_zero (duration tone)) = true /\
   exists n',
     nth_error (nodes (pauseAudio (seconds 16 1000) playing)) 0 = Some n' /\
     src_stopped n' = true).
Proof.
  split.
  - assert (G : gt (minus (seconds 1 100) (startTime playing))
                  (or_zero (duration tone)) = false)
      by (vm_compute; reflexivity).
    destruct (@pause_offset_within_duration playing (seconds 1 100) 0%nat
                0%nat tone (mkSource 0 zero false true))
      as (_ & _ & (n' & Hn' & Hstop & _) & Hlo & Hhi & Hin & _);
      try (vm_compute; reflexivity).
    destruct (Hin G) as [Hi Ho].
    split; [exact G|]. split; [exact Hi|]. split; [exact Ho|].
    split; [exact Hlo|]. split; [exact Hhi|].
    exists n'. split; [exact Hn' | exact Hstop].
  - assert (G : gt (minus (seconds 16 1000) (startTime playing))
                  (or_zero (duration tone)) = true)
      by (vm_compute; reflexivity).
    destruct (@pause_offset_within_duration playing (seconds 16 1000) 0%nat
                0%nat tone (mkSource 0 zero false true))
      as (_ & _ & (n' & Hn' & Hstop & _) & _ & Hhi & _ & Hover);
      try (vm_compute; reflexivity).
    destruct (Hover G) as [Hi Ho].
    split; [exact G|]. split; [exact Hi|]. split; [exact Ho|].
    split; [exact Hhi|].
    exists n'. split; [exact Hn' | exact Hstop].
Defined.

(** *** Pausing at once *)

Lemma minus_zero (x : number) : is_time x = true -> minus x zero = x.
Proof.
  destruct x as [s|s| |s m e]; try discriminate; intros _;
    [destruct s|]; reflexivity.
Qed.

Lemma minus_self (x : number) : is_time x = true -> minus x x = zero.
Proof.
  destruct x as [s|s| |s m e]; try discriminate; intros _.
  - destruct s; reflexivity.
  - unfold minus, SFsub. rewrite Z.sub_diag. reflexivity.
Qed.

Lemma le_not_gt (x y : number) : le x y = true -> gt x y = false.
Proof.
  unfold gt, le, SFltb, SFleb. rewrite (SFcompare_antisym y x).
  destruct (SFcompare x y) as [[]|]; simpl; congruence.
Qed.

Lemma duration_or_0_nonneg (p : Playback) (i : nat) :
  le zero (duration_or_0 p i) = true.
Proof.
  unfold duration_or_0. destruct (nth_error (audioBuffers p) i) as [b|].
  - apply duration64_nonneg.
  - reflexivity.
Qed.

(** X5.  [playSegment(i, 0)] on an existing segment followed at the same
    clock reading by [pauseAudio]: in binary64 [now - 0] is [now] and
    [now - now] is [+0], which is greater than no duration, so the stored
    offset is exactly 0 and the index stays [i]; the node just started is
    the one stopped. *)
Theorem pause_right_after_play (p : Playback) (now : number) (i : nat) :
  is_time now = true ->
  (i < List.length (audioBuffers p))%nat ->
  startTime (playSegment now i zero p) = now /\
  audioSource (playSegment now i zero p) = Some (List.length (nodes p)) /\
  isPlaying (pauseAudio now (playSegment now i zero p)) = false /\
  audioSource (pauseAudio now (playSegment now i zero p)) = None /\
  activeBufferIndex (pauseAudio now (playSegment now i zero p)) = i /\
  pauseOffset (pauseAudio now (playSegment now i zero p)) = zero /\
  nth_error (nodes (pauseAudio now (playSegment now i zero p)))
    (List.length (nodes p))
  = Some (mkSource i zero true true).
Proof.
  intros Hnow Hi.
  assert (E : playSegment now i zero p
              = mkPlayback true i true (audioBuffers p)
                  (Some (List.length (nodes p))) now (pauseOffset p) i
                  (nodes p ++ [mkSource i zero false true])
                  ((i, zero) :: playCalls p)).
  { unfold playSegment.
    replace (List.length (audioBuffers p) <=? i)%nat with false
      by (symmetry; apply Nat.leb_gt; exact Hi).
    now rewrite (@minus_zero now Hnow). }
  rewrite E. split; [reflexivity|]. split; [reflexivity|].
  unfold pauseAudio.
  cbn [audioSource audioContext startTime activeBufferIndex nodes]. cbv zeta.
  rewrite (@minus_self now Hnow).
  rewrite (@le_not_gt zero _ (duration_or_0_nonneg _ i)).
  cbn [audioSource isPlaying activeBufferIndex pauseOffset nodes].
  repeat (split; [reflexivity|]).
  apply (@update_node64_nth stop_node _ _ (mkSource i zero false true)).
  rewrite nth_error_app2 by lia. now rewrite Nat.sub_diag.
Qed.

Lemma pause_right_after_play_witness :
  startTime (playSegment (seconds 128 24000) 0 zero loaded)
  = seconds 128 24000 /\
  audioSource (playSegment (seconds 128 24000) 0 zero loaded) = Some 0%nat /\
  isPlaying
    (pauseAudio (seconds 128 24000)
       (playSegment (seconds 128 24000) 0 zero loaded)) = false /\
  audioSource
    (pauseAudio (seconds 128 24000)
       (playSegment (seconds 128 24000) 0 zero loaded)) = None /\
  activeBufferIndex
    (pauseAudio (seconds 128 24000)
       (playSegment (seconds 128 24000) 0 zero loaded)) = 0%nat /\
  pauseOffset
    (pauseAudio (seconds 128 24000)
       (playSegment (seconds 128 24000) 0 zero loaded)) = zero /\
  nth_error
    (nodes
       (pauseAudio (seconds 128 24000)
          (playSegment (seconds 128 24000) 0 zero loaded))) 0
  = Some (mkSource 0 zero true true).
Proof.
  apply (@pause_right_after_play loaded (seconds 128 24000) 0%nat).
  - vm_compute. reflexivity.
  - vm_compute. apply le_n.
Defined.

End Player64Facts.

(** ** Interleavings of handlers and completion events *)

Module AppFacts.

Import Platform GeminiService Player App PlayerFacts.
Local Open Scope Q_scope.

Lemma evolves_refl (p : Playback) : evolves p p.
Proof. unfold evolves. auto. Qed.

Lemma evolves_trans (p q r : Playback) :
  evolves p q -> evolves q r -> evolves p r.
Proof.
  intros (L1 & S1 & G1) (L2 & S2 & G2). split; [lia|]. split; [|auto].
  intros s Hs Hn. apply S2; [lia|]. now apply S1.
Qed.

Create HintDb playback discriminated.

Lemma playSegment_evolves (now : Q) (index : nat) (offset : Q)
    (p : Playback) :
  evolves p (playSegment now index offset p).
Proof.
  unfold playSegment.
  destruct (List.length (audioBuffers p) <=? index)%nat.
  - unfold evolves, good; simpl. repeat split; auto; tauto.
  - unfold evolves, good; simpl. rewrite length_app. simpl.
    repeat split; intros; try lia.
    + intros [= E]. lia.
    + injection H0 as <-. lia.
Qed.

Lemma stopAudio_evolves (p : Playback) : evolves p (stopAudio p).
Proof.
  unfold evolves, good, stopAudio; simpl.
  destruct (audioSource p); rewrite ?update_node_length;
    repeat split; intros; try discriminate; try lia; congruence.
Qed.

Lemma pauseAudio_evolves (now : Q) (p : Playback) :
  evolves p (pauseAudio now p).
Proof.
  unfold pauseAudio.
  destruct (audioSource p) eqn:Hs; [|apply evolves_refl].
  destruct (audioContext p) eqn:Hc; [|apply evolves_refl].
  unfold evolves, good; simpl. rewrite update_node_length.
  repeat split; intros; try discriminate; try lia; congruence.
Qed.

Lemma onended_evolves (now : Q) (s : nat) (p : Playback) :
  evolves p (onended now s p).
Proof.
  unfold onended.
  destruct (nth_error (nodes p) s); [|apply evolves_refl].
  destruct (source_is p s); [apply playSegment_evolves | apply evolves_refl].
Qed.

Lemma setCurrentStepIndex_evolves (i : nat) (p : Playback) :
  evolves p (setCurrentStepIndex i p).
Proof. same_source. Qed.

Lemma with_context_evolves (p : Playback) : evolves p (with_context p).
Proof. same_source. Qed.

Lemma with_buffers_evolves (p : Playback) (bs : list AudioBuffer) :
  evolves p (with_buffers p bs).
Proof. same_source. Qed.

#[local] Hint Resolve evolves_refl playSegment_evolves stopAudio_evolves
  pauseAudio_evolves onended_evolves setCurrentStepIndex_evolves
  with_context_evolves with_buffers_evolves : playback.

Lemma playAudio_evolves (now : Q) (p : Playback) :
  evolves p (playAudio now p).
Proof. unfold playAudio. auto with playback. Qed.

#[local] Hint Resolve playAudio_evolves : playback.

(** Every event evolves the playback state. *)
Lemma step_evolves (ev : event) (st : App) :
  evolves (playback st) (playback (step ev st)).
Proof.
  destruct ev; simpl.
  - apply evolves_refl.
  - unfold handleSubmit_begin. destruct (blank (query st)).
    + apply evolves_refl.
    + simpl. eapply evolves_trans; [apply stopAudio_evolves|].
      same_source.
  - unfold handleSubmit_resume. destruct gen as [data|e]; simpl.
    + destruct (decode_all (generateAudioSegments tts data)); simpl.
      * eapply evolves_trans; [apply with_buffers_evolves|].
        apply playAudio_evolves.
      * apply with_context_evolves.
    + apply evolves_refl.
  - unfold handleTogglePlay. destruct (isPlaying (playback st));
      auto with playback.
  - unfold handleReplay.
    eapply evolves_trans; [apply stopAudio_evolves | apply playAudio_evolves].
  - unfold handleDeepDive. destruct (tutorialData st); simpl;
      auto with playback.
  - unfold handleExportVideo_begin.
    destruct (negb (exportContainer st) || isExporting st); simpl.
    + apply evolves_refl.
    + eapply evolves_trans;
        [apply stopAudio_evolves | apply with_context_evolves].
  - unfold handleExportVideo_iter.
    destruct (job st) as [j|]; [|apply evolves_refl].
    destruct (rejected j); [apply evolves_refl|].
    destruct (loop_i j <? totalSteps j)%nat; [|apply evolves_refl].
    destruct env; simpl; apply setCurrentStepIndex_evolves.
  - unfold handleExportVideo_finish.
    destruct (job st) as [j|]; [|apply evolves_refl].
    destruct (rejected j); [apply evolves_refl|].
    destruct (loop_i j <? totalSteps j)%nat; [apply evolves_refl|].
    same_source.
  - apply stopAudio_evolves.
  - apply onended_evolves.
Qed.

Lemma run_evolves (evs : list event) :
  forall st : App, evolves (playback st) (playback (run evs st)).
Proof.
  induction evs as [|ev evs IH]; intros st.
  - apply evolves_refl.
  - simpl. eapply evolves_trans; [apply step_evolves | apply IH].
Qed.

Lemma initial_good : good (playback App.initial).
Proof. unfold good. simpl. split; [discriminate | congruence]. Qed.

Lemma reachable_good (evs : list event) :
  good (playback (run evs App.initial)).
Proof.
  destruct (run_evolves evs App.initial) as (_ & _ & G).
  apply G, initial_good.
Qed.

Lemma with_playback_same (st : App) : with_playback st (playback st) = st.
Proof. now destruct st. Qed.

(** A node that exists and is not live stays so whatever happens next,
    and its [ended] event changes nothing. *)
Lemma retired_stays_inert (s : nat) (post : list event) (now : Q)
    (st : App) :
  (s < List.length (nodes (playback st)))%nat ->
  audioSource (playback st) <> Some s ->
  step (Ended now s) (run post st) = run post st.
Proof.
  intros Hs Hn.
  destruct (run_evolves post st) as (_ & Hkeep & _).
  simpl. rewrite onended_not_live by (now apply Hkeep).
  apply with_playback_same.
Qed.

(** C1.  Let [s] be the live source after any sequence of events.  Then
    [stopAudio], [pauseAudio] and a new submission each clear the live
    reference; and once some event has stopped or superseded [s], the
    [ended] event of [s] changes nothing, whatever events come in between.
    Any [ended] event that does call [playSegment] is the event of the
    source that is live at that moment, and the call is for the index after
    the one it played, at offset 0. *)
Theorem stale_completion_never_advances (pre : list event) (s : nat) :
  audioSource (playback (run pre App.initial)) = Some s ->
  (audioSource (stopAudio (playback (run pre App.initial))) = None /\
   (forall t,
      audioSource (pauseAudio t (playback (run pre App.initial))) = None) /\
   (blank (query (run pre App.initial)) = false ->
    audioSource (playback (step Submit (run pre App.initial))) = None)) /\
  (forall (stopper : event) (post : list event) (now : Q),
     audioSource (playback (step stopper (run pre App.initial))) <> Some s ->
     step (Ended now s) (run post (step stopper (run pre App.initial)))
     = run post (step stopper (run pre App.initial))) /\
  (forall (post : list event) (now : Q) (s' : nat),
     playCalls (playback (step (Ended now s') (run post (run pre App.initial))))
     <> playCalls (playback (run post (run pre App.initial))) ->
     audioSource (playback (run post (run pre App.initial))) = Some s' /\
     exists node,
       nth_error (nodes (playback (run post (run pre App.initial)))) s'
       = Some node /\
       playCalls
         (playback (step (Ended now s') (run post (run pre App.initial))))
       = ((src_index node + 1)%nat, 0)
           :: playCalls (playback (run post (run pre App.initial)))).
Proof.
  intros Hlive.
  destruct (reachable_good pre) as [Hlt Hctx].
  split; [split; [|split]|split].
  - reflexivity.
  - intros t. unfold pauseAudio. rewrite Hlive, Hctx by congruence.
    reflexivity.
  - intros Hq. simpl. unfold handleSubmit_begin. rewrite Hq. reflexivity.
  - intros stopper post now Hgone.
    apply retired_stays_inert; [|exact Hgone].
    destruct (step_evolves stopper (run pre App.initial)) as (Hlen & _ & _).
    specialize (Hlt s Hlive). lia.
  - intros post now s' Hcall. simpl in Hcall.
    destruct (onended_calls _ _ _ Hcall) as (Hs' & node & Hn & _ & Hc).
    split; [exact Hs'|]. exists node. split; [exact Hn | exact Hc].
Qed.

Lemma stale_completion_never_advances_witness :
  (audioSource (stopAudio (playback Demo.submitted)) = None /\
   (forall t, audioSource (pauseAudio t (playback Demo.submitted)) = None) /\
   (blank (query Demo.submitted) = false ->
    audioSource (playback (step Submit Demo.submitted)) = None)) /\
  (forall (stopper : event) (post : list event) (now : Q),
     audioSource (playback (step stopper Demo.submitted)) <> Some 0%nat ->
     step (Ended now 0) (run post (step stopper Demo.submitted))
     = run post (step stopper Demo.submitted)) /\
  (forall (post : list event) (now : Q) (s' : nat),
     playCalls (playback (step (Ended now s') (run post Demo.submitted)))
     <> playCalls (playback (run post Demo.submitted)) ->
     audioSource (playback (run post Demo.submitted)) = Some s' /\
     exists node,
       nth_error (nodes (playback (run post Demo.submitted))) s' = Some node /\
       playCalls (playback (step (Ended now s') (run post Demo.submitted)))
       = ((src_index node + 1)%nat, 0)
           :: playCalls (playback (run post Demo.submitted))).
Proof.
  apply (@stale_completion_never_advances
           [SetQuery "center a div"; Submit;
            SubmitResume 0 (Ok Demo.tutorial) Demo.tts_fine] 0%nat).
  vm_compute. reflexivity.
Defined.

End AppFacts.

(** ** Segment generation and decoding at submission *)

Module SubmitFacts.

Import Platform GeminiService Player App DecoderFacts.
Local Open Scope Q_scope.

Lemma createBuffer_silence : createBuffer SILENCE_FRAMES 24000 = Ok silence.
Proof.
  unfold createBuffer.
  assert (E : ((SILENCE_FRAMES =? 0)%nat || (24000 <=? 0)%Z)%bool = false)
    by (vm_compute; reflexivity).
  now rewrite E.
Qed.

Lemma silence_duration : duration silence == 2.
Proof.
  unfold duration, frames, silence.
  cbv beta iota delta [sampleRate channelData].
  rewrite repeat_length. unfold SILENCE_FRAMES.
  rewrite Z2Nat.id by lia. reflexivity.
Qed.

Lemma silence_is_silent : Forall (fun x => x = 0) (channelData silence).
Proof.
  apply Forall_forall. intros x Hx.
  unfold silence in Hx. cbv beta iota delta [channelData] in Hx.
  now apply repeat_spec in Hx.
Qed.

(** [buffer_for] on a missing payload. *)
Lemma buffer_for_none : buffer_for None = Ok silence.
Proof. apply createBuffer_silence. Qed.

(** [generateSegment] never answers with an empty string, so a payload it
    returns is always handed to the decoder. *)
Lemma buffer_for_generated (o : tts_outcome) (payload : string) :
  generateSegment o = Some payload ->
  buffer_for (Some payload) = createAudioBufferFromPCM payload.
Proof.
  destruct o as [| |d]; try discriminate.
  destruct d; simpl; [discriminate|]. now intros [= <-].
Qed.

Lemma combine_seq_nth {A : Type} (l : list A) :
  forall (a i : nat),
    nth_error (combine (seq a (List.length l)) l) i
    = option_map (fun x => ((a + i)%nat, x)) (nth_error l i).
Proof.
  induction l as [|h t IH]; intros a i.
  - now destruct i.
  - destruct i as [|i]; simpl.
    + now rewrite Nat.add_0_r.
    + rewrite IH. now rewrite Nat.add_succ_r.
Qed.

(** Position [i] of the result is the synthesis of text [i]. *)
Lemma generateAudioSegments_nth (tts : nat -> string -> tts_outcome)
    (data : TutorialData) (i : nat) :
  nth_error (generateAudioSegments tts data) i
  = option_map (fun text => generateSegment (tts i text))
      (nth_error (segment_texts data) i).
Proof.
  unfold generateAudioSegments.
  rewrite nth_error_map, combine_seq_nth.
  now destruct (nth_error (segment_texts data) i).
Qed.

Lemma generateAudioSegments_length (tts : nat -> string -> tts_outcome)
    (data : TutorialData) :
  List.length (generateAudioSegments tts data) = S (List.length (steps data)).
Proof.
  unfold generateAudioSegments.
  rewrite length_map, length_combine, length_seq, Nat.min_id.
  unfold segment_texts. simpl. now rewrite length_map.
Qed.

(** [Promise.all] fulfils only when every promise does, with the values in
    the order of the promises. *)
Lemma promise_all_ok {A : Type} (rs : list (result A)) :
  forall l : list A,
    promise_all rs = Ok l -> Forall2 (fun r a => r = Ok a) rs l.
Proof.
  induction rs as [|r rs IH]; intros l H; simpl in H.
  - injection H as <-. constructor.
  - destruct r as [a|e]; [|discriminate].
    destruct (promise_all rs) as [l'|e]; [|discriminate].
    injection H as <-. constructor; [reflexivity | now apply IH].
Qed.

Lemma promise_all_throw {A : Type} (rs : list (result A)) (i : nat)
    (e : exn) :
  nth_error rs i = Some (Throw e) ->
  exists e', promise_all rs = Throw e'.
Proof.
  revert i. induction rs as [|r rs IH]; intros i H.
  - now destruct i.
  - destruct i as [|i]; simpl in *.
    + injection H as ->. eauto.
    + destruct r as [a|e0]; [|eauto].
      destruct (IH i H) as [e' ->]. eauto.
Qed.

Lemma promise_all_all_ok {A : Type} (rs : list (result A)) :
  Forall (fun r => exists a, r = Ok a) rs ->
  exists l, promise_all rs = Ok l.
Proof.
  induction 1 as [|r rs [a ->] _ [l IH]]; simpl.
  - eauto.
  - rewrite IH. eauto.
Qed.

Lemma Forall2_nth_error {A B : Type} (R : A -> B -> Prop)
    (l : list A) (l' : list B) :
  Forall2 R l l' ->
  forall i a, nth_error l i = Some a ->
              exists b, nth_error l' i = Some b /\ R a b.
Proof.
  induction 1 as [|x y l l' Hxy _ IH]; intros i a Hi.
  - now destruct i.
  - destruct i as [|i]; simpl in *.
    + injection Hi as <-. eauto.
    + now apply IH.
Qed.

Lemma generateSegment_none (o : tts_outcome) :
  generateSegment o = None <->
  (o = TtsThrows \/ o = TtsNoData \/ o = TtsData "").
Proof.
  split.
  - destruct o as [| |d]; auto. destruct d; [auto | discriminate].
  - intros [-> | [-> | ->]]; reflexivity.
Qed.

(** The buffer built for position [i], given how synthesis went there. *)
Lemma buffer_for_segment (tts : nat -> string -> tts_outcome)
    (data : TutorialData) (i : nat) (text : string) :
  nth_error (segment_texts data) i = Some text ->
  nth_error (map buffer_for (generateAudioSegments tts data)) i
  = Some (match generateSegment (tts i text) with
          | None => Ok silence
          | Some payload => createAudioBufferFromPCM payload
          end).
Proof.
  intros Ht. rewrite nth_error_map, generateAudioSegments_nth, Ht. simpl.
  destruct (generateSegment (tts i text)) as [payload|] eqn:E.
  - now rewrite (buffer_for_generated _ E).
  - now rewrite buffer_for_none.
Qed.

Lemma generateSegment_data (payload : string) :
  payload <> ""%string -> generateSegment (TtsData payload) = Some payload.
Proof. destruct payload; [congruence | reflexivity]. Qed.

Lemma generateSegment_some (o : tts_outcome) (payload : string) :
  generateSegment o = Some payload ->
  o = TtsData payload /\ payload <> ""%string.
Proof.
  destruct o as [| |d]; try discriminate.
  destruct d; simpl; [discriminate|]. intros [= <-]. split; [reflexivity|].
  discriminate.
Qed.

(** C4, on the code.  A document with [n] steps yields [n + 1] payload
    slots, slot 0 for the overview and slot [j + 1] for step [j]; a slot
    whose synthesis threw, answered without data or answered with an empty
    payload is [null], any other slot holds the payload synthesis returned.
    The fallback for a [null] slot is two seconds of zeros at 24000 Hz.
    When every returned payload decodes, the submission installs [n + 1]
    buffers in slot order, silence for each [null] slot and the decoding of
    its own payload for every other.  When some returned payload does not
    decode, [Promise.all] rejects: no buffer is installed, not even the
    silence made for the slots whose synthesis failed, and the submission
    ends in [ERROR]. *)
Theorem silence_fallback_unless_undecodable
    (tts : nat -> string -> tts_outcome) (data : TutorialData) :
  List.length (generateAudioSegments tts data) = S (List.length (steps data)) /\
  nth_error (segment_texts data) 0 = Some (overview data) /\
  (forall j step, nth_error (steps data) j = Some step ->
     nth_error (segment_texts data) (S j) = Some (explanation step)) /\
  (forall i text, nth_error (segment_texts data) i = Some text ->
     ((tts i text = TtsThrows \/ tts i text = TtsNoData \/
       tts i text = TtsData "") ->
      nth_error (generateAudioSegments tts data) i = Some None) /\
     (forall payload, tts i text = TtsData payload -> payload <> ""%string ->
        nth_error (generateAudioSegments tts data) i = Some (Some payload))) /\
  createBuffer SILENCE_FRAMES 24000 = Ok silence /\
  sampleRate silence = 24000%Z /\ duration silence == 2 /\
  Forall (fun x => x = 0) (channelData silence) /\
  ((forall i text payload,
      nth_error (segment_texts data) i = Some text ->
      tts i text = TtsData payload -> payload <> ""%string ->
      exists b, createAudioBufferFromPCM payload = Ok b) ->
   exists buffers,
     decode_all (generateAudioSegments tts data) = Ok buffers /\
     List.length buffers = S (List.length (steps data)) /\
     (forall i text, nth_error (segment_texts data) i = Some text ->
        ((tts i text = TtsThrows \/ tts i text = TtsNoData \/
          tts i text = TtsData "") ->
         nth_error buffers i = Some silence) /\
        (forall payload,
           tts i text = TtsData payload -> payload <> ""%string ->
           exists b, createAudioBufferFromPCM payload = Ok b /\
                     nth_error buffers i = Some b)) /\
     (forall now st, blank (query st) = false ->
        audioBuffers (playback (handleSubmit now (Ok data) tts st)) = buffers /\
        loadingState (handleSubmit now (Ok data) tts st) = READY /\
        error (handleSubmit now (Ok data) tts st) = None)) /\
  (forall i text payload e,
     nth_error (segment_texts data) i = Some text ->
     tts i text = TtsData payload -> payload <> ""%string ->
     createAudioBufferFromPCM payload = Throw e ->
     (exists e', decode_all (generateAudioSegments tts data) = Throw e') /\
     (forall now st, blank (query st) = false ->
        loadingState (handleSubmit now (Ok data) tts st) = ERROR /\
        (exists e', error (handleSubmit now (Ok data) tts st) = Some e') /\
        audioBuffers (playback (handleSubmit now (Ok data) tts st)) = [] /\
        isPlaying (playback (handleSubmit now (Ok data) tts st)) = false)).
Proof.
  split; [apply generateAudioSegments_length|].
  split; [reflexivity|].
  split.
  { intros j step Hj. unfold segment_texts. simpl.
    rewrite nth_error_map, Hj. reflexivity. }
  split.
  { intros i text Ht. rewrite generateAudioSegments_nth, Ht. simpl. split.
    - intros Hfail. apply generateSegment_none in Hfail. now rewrite Hfail.
    - intros payload Hp Hne. now rewrite Hp, (generateSegment_data Hne). }
  split; [apply createBuffer_silence|].
  split; [reflexivity|]. split; [apply silence_duration|].
  split; [apply silence_is_silent|].
  split.
  - intros Hdec.
    destruct (@promise_all_all_ok _
                (map buffer_for (generateAudioSegments tts data)))
      as [buffers Hall].
    { apply Forall_forall. intros r Hr.
      apply In_nth_error in Hr. destruct Hr as [i Hi].
      assert (Hsome : exists text, nth_error (segment_texts data) i = Some text).
      { rewrite nth_error_map, generateAudioSegments_nth in Hi.
        destruct (nth_error (segment_texts data) i); [eauto | discriminate]. }
      destruct Hsome as [text Ht].
      rewrite (buffer_for_segment tts data i Ht) in Hi. injection Hi as <-.
      destruct (generateSegment (tts i text)) as [payload|] eqn:E; [|eauto].
      apply generateSegment_some in E. destruct E as [E Hne].
      exact (Hdec i text payload Ht E Hne). }
    exists buffers. split; [exact Hall|].
    pose proof (promise_all_ok _ Hall) as HF.
    split.
    { apply Forall2_length in HF.
      rewrite <- HF, length_map. apply generateAudioSegments_length. }
    split.
    + intros i text Ht.
      destruct (Forall2_nth_error HF i (buffer_for_segment tts data i Ht))
        as [b [Hb Hr]].
      split.
      * intros Hfail. apply generateSegment_none in Hfail.
        rewrite Hfail in Hr. injection Hr as <-. exact Hb.
      * intros payload Hp Hne.
        rewrite Hp, (generateSegment_data Hne) in Hr. eauto.
    + intros now st Hq. unfold handleSubmit. rewrite Hq.
      unfold handleSubmit_resume. unfold decode_all in Hall. unfold decode_all.
      rewrite Hall. simpl.
      split;
        [unfold playAudio; now rewrite PlayerFacts.playSegment_buffers|].
      split; [reflexivity|].
      unfold handleSubmit_begin. now rewrite Hq.
  - intros i text payload e Ht Hp Hne Hthrow.
    assert (Hall : exists e', decode_all (generateAudioSegments tts data)
                              = Throw e').
    { unfold decode_all. apply promise_all_throw with (i := i) (e := e).
      rewrite (buffer_for_segment tts data i Ht), Hp,
        (generateSegment_data Hne), Hthrow. reflexivity. }
    split; [exact Hall|].
    destruct Hall as [e' Hall].
    intros now st Hq.
    unfold handleSubmit. rewrite Hq. unfold handleSubmit_resume.
    rewrite Hall. unfold handleSubmit_begin. rewrite Hq. simpl.
    repeat split; eauto.
Qed.

(** The demo document, three segments.  With the synthesis of segment 1
    failing and the other payloads sound, three buffers are installed and
    buffer 1 is the silence.  With, in addition, a one-byte payload for
    segment 2, nothing is installed. *)
Lemma silence_fallback_unless_undecodable_witness :
  (exists buffers,
     decode_all (generateAudioSegments Demo.tts_step1_fails Demo.tutorial)
     = Ok buffers /\
     List.length buffers = 3%nat /\
     nth_error buffers 1 = Some silence /\
     (exists b, createAudioBufferFromPCM "AAD/fwCA" = Ok b /\
                nth_error buffers 2 = Some b) /\
     audioBuffers
       (playback
          (handleSubmit 0 (Ok Demo.tutorial) Demo.tts_step1_fails Demo.typed))
     = buffers /\
     loadingState
       (handleSubmit 0 (Ok Demo.tutorial) Demo.tts_step1_fails Demo.typed)
     = READY) /\
  (Demo.tts_step1_fails_step2_odd 1 "Grid lays the children out."
   = TtsThrows /\
   createAudioBufferFromPCM "AA==" = Throw RangeError /\
   loadingState
     (handleSubmit 0 (Ok Demo.tutorial) Demo.tts_step1_fails_step2_odd
        Demo.typed) = ERROR /\
   audioBuffers
     (playback
        (handleSubmit 0 (Ok Demo.tutorial) Demo.tts_step1_fails_step2_odd
           Demo.typed)) = []).
Proof.
  split.
  - destruct (@silence_fallback_unless_undecodable Demo.tts_step1_fails
                Demo.tutorial) as (_ & _ & _ & _ & _ & _ & _ & _ & H & _).
    destruct H as (buffers & Hall & Hlen & Hslots & Hsub).
    { intros i text payload _ E _. unfold Demo.tts_step1_fails in E.
      destruct (i =? 1)%nat; [discriminate|].
      injection E as <-. eexists. vm_compute. reflexivity. }
    exists buffers. split; [exact Hall|]. split; [exact Hlen|].
    split.
    { apply (Hslots 1%nat "Grid lays the children out."%string eq_refl).
      left. reflexivity. }
    split.
    { apply (Hslots 2%nat "This centres on both axes."%string eq_refl);
        [reflexivity | discriminate]. }
    destruct (Hsub 0 Demo.typed) as (A & B & _);
      [vm_compute; reflexivity|].
    split; [exact A | exact B].
  - destruct (@silence_fallback_unless_undecodable
                Demo.tts_step1_fails_step2_odd Demo.tutorial)
      as (_ & _ & _ & _ & _ & _ & _ & _ & _ & H).
    destruct (H 2%nat "This centres on both axes."%string "AA=="%string
                RangeError) as (_ & Hsub);
      [reflexivity | reflexivity | discriminate | vm_compute; reflexivity |].
    destruct (Hsub 0 Demo.typed) as (A & _ & C & _);
      [vm_compute; reflexivity|].
    split; [reflexivity|]. split; [vm_compute; reflexivity|].
    split; [exact A | exact C].
Defined.

(** The failing input of C4.  The synthesis of segment 1 throws and that of
    segment 2 returns one byte: the submission ends in [ERROR] with no
    buffer at all, where the same document with a sound payload for
    segment 2 gets its three buffers. *)
Lemma synthesis_failure_lost_with_undecodable_payload :
  Demo.tts_step1_fails_step2_odd 1 "Grid lays the children out." = TtsThrows /\
  Demo.tts_step1_fails_step2_odd 2 "This centres on both axes."
  = TtsData "AA==" /\
  createAudioBufferFromPCM "AA==" = Throw RangeError /\
  loadingState
    (handleSubmit 0 (Ok Demo.tutorial) Demo.tts_step1_fails_step2_odd
       Demo.typed) = ERROR /\
  error
    (handleSubmit 0 (Ok Demo.tutorial) Demo.tts_step1_fails_step2_odd
       Demo.typed) = Some RangeError /\
  audioBuffers
    (playback
       (handleSubmit 0 (Ok Demo.tutorial) Demo.tts_step1_fails_step2_odd
          Demo.typed)) = [] /\
  List.length
    (audioBuffers
       (playback
          (handleSubmit 0 (Ok Demo.tutorial) Demo.tts_step1_fails Demo.typed)))
  = 3%nat.
Proof.
  repeat split; vm_compute; reflexivity.
Qed.

(** *** Malformed payloads *)

Lemma createAudioBufferFromPCM_malformed (payload : string) (e : exn) :
  atob payload = Throw e -> createAudioBufferFromPCM payload = Throw e.
Proof.
  intros H.
  unfold createAudioBufferFromPCM, createAudioBufferFromPCM_at, decode.
  now rewrite H.
Qed.

(** C6, on the code.  When synthesis returns, for some segment, a payload
    that [atob] rejects, [createAudioBufferFromPCM] rejects with that
    error, [Promise.all] rejects, and the [catch] of [handleSubmit] puts
    the component in the [ERROR] state with the error shown: no buffer is
    installed, nothing plays, and no silence is substituted. *)
Theorem malformed_payload_fails_submission
    (tts : nat -> string -> tts_outcome) (data : TutorialData)
    (i : nat) (text payload : string) (e : exn) (now : Q) (st : App) :
  nth_error (segment_texts data) i = Some text ->
  generateSegment (tts i text) = Some payload ->
  atob payload = Throw e ->
  blank (query st) = false ->
  createAudioBufferFromPCM payload = Throw e /\
  (exists e', decode_all (generateAudioSegments tts data) = Throw e') /\
  loadingState (handleSubmit now (Ok data) tts st) = ERROR /\
  (exists e', error (handleSubmit now (Ok data) tts st) = Some e') /\
  audioBuffers (playback (handleSubmit now (Ok data) tts st)) = [] /\
  isPlaying (playback (handleSubmit now (Ok data) tts st)) = false /\
  audioSource (playback (handleSubmit now (Ok data) tts st)) = None.
Proof.
  intros Ht Hp Hbad Hq.
  pose proof (createAudioBufferFromPCM_malformed payload Hbad) as Hthrow.
  assert (Hall : exists e', decode_all (generateAudioSegments tts data)
                            = Throw e').
  { unfold decode_all. apply promise_all_throw with (i := i) (e := e).
    rewrite (buffer_for_segment tts data i Ht), Hp, Hthrow. reflexivity. }
  split; [exact Hthrow|]. split; [exact Hall|].
  destruct Hall as [e' Hall].
  unfold handleSubmit. rewrite Hq. unfold handleSubmit_resume.
  rewrite Hall. unfold handleSubmit_begin. rewrite Hq. simpl.
  repeat split; eauto.
Qed.

Lemma malformed_payload_fails_submission_witness :
  createAudioBufferFromPCM "!!!!" = Throw InvalidCharacterError /\
  (exists e',
     decode_all (generateAudioSegments Demo.tts_step1_malformed Demo.tutorial)
     = Throw e') /\
  loadingState
    (handleSubmit 0 (Ok Demo.tutorial) Demo.tts_step1_malformed Demo.typed)
  = ERROR /\
  (exists e',
     error (handleSubmit 0 (Ok Demo.tutorial) Demo.tts_step1_malformed
              Demo.typed) = Some e') /\
  audioBuffers
    (playback (handleSubmit 0 (Ok Demo.tutorial) Demo.tts_step1_malformed
                 Demo.typed)) = [] /\
  isPlaying
    (playback (handleSubmit 0 (Ok Demo.tutorial) Demo.tts_step1_malformed
                 Demo.typed)) = false /\
  audioSource
    (playback (handleSubmit 0 (Ok Demo.tutorial) Demo.tts_step1_malformed
                 Demo.typed)) = None.
Proof.
  apply (@malformed_payload_fails_submission Demo.tts_step1_malformed
           Demo.tutorial 1%nat "Grid lays the children out." "!!!!"
           InvalidCharacterError 0 Demo.typed).
  - reflexivity.
  - reflexivity.
  - vm_compute. reflexivity.
  - vm_compute. reflexivity.
Defined.

(** The same document and state, with the two kinds of failure at segment
    1: a synthesis failure is absorbed, a malformed payload is fatal. *)
Lemma synthesis_failure_versus_malformed_payload :
  loadingState
    (handleSubmit 0 (Ok Demo.tutorial) Demo.tts_step1_fails Demo.typed)
  = READY /\
  List.length
    (audioBuffers
       (playback (handleSubmit 0 (Ok Demo.tutorial) Demo.tts_step1_fails
                    Demo.typed))) = 3%nat /\
  loadingState
    (handleSubmit 0 (Ok Demo.tutorial) Demo.tts_step1_malformed Demo.typed)
  = ERROR /\
  error (handleSubmit 0 (Ok Demo.tutorial) Demo.tts_step1_malformed Demo.typed)
  = Some InvalidCharacterError /\
  audioBuffers
    (playback (handleSubmit 0 (Ok Demo.tutorial) Demo.tts_step1_malformed
                 Demo.typed)) = [].
Proof.
  repeat split; vm_compute; reflexivity.
Qed.

End SubmitFacts.

(** ** Export *)

Module ExportFacts.

Import Platform GeminiService Player App.
Local Open Scope Q_scope.

(** C7.  While [isExporting] is true a further export request returns at
    the guard: the whole component state, with the running job, its chunks
    and the playback state, is unchanged. *)
Theorem second_export_is_noop (supported : string -> bool)
    (env : nat -> iter_env) (size : Z) (st : App) :
  isExporting st = true ->
  handleExportVideo supported env size st = st /\
  step (ExportClick supported) st = st /\
  job (handleExportVideo supported env size st) = job st /\
  playback (handleExportVideo supported env size st) = playback st.
Proof.
  intros H.
  assert (E : handleExportVideo supported env size st = st).
  { unfold handleExportVideo. rewrite H, orb_true_r. reflexivity. }
  rewrite E. repeat split.
  simpl. unfold handleExportVideo_begin. now rewrite H, orb_true_r.
Qed.

Lemma second_export_is_noop_witness :
  handleExportVideo Demo.all_types Demo.env_fine 1000 Demo.exporting
  = Demo.exporting /\
  step (ExportClick Demo.all_types) Demo.exporting = Demo.exporting /\
  job (handleExportVideo Demo.all_types Demo.env_fine 1000 Demo.exporting)
  = job Demo.exporting /\
  playback (handleExportVideo Demo.all_types Demo.env_fine 1000 Demo.exporting)
  = playback Demo.exporting.
Proof.
  apply (@second_export_is_noop Demo.all_types Demo.env_fine 1000%Z
           Demo.exporting).
  vm_compute. reflexivity.
Defined.

(** *** The export loop *)

Lemma iter_outside (env : iter_env) (st : App) :
  outside_loop (handleExportVideo_iter env st) = outside_loop st.
Proof.
  unfold handleExportVideo_iter.
  destruct (job st) as [j|]; [|reflexivity].
  destruct (rejected j); [reflexivity|].
  destruct (loop_i j <? totalSteps j)%nat; [|reflexivity].
  destruct env; reflexivity.
Qed.

Lemma export_loop_outside (envs : list iter_env) :
  forall st : App, outside_loop (export_loop envs st) = outside_loop st.
Proof.
  induction envs as [|e envs IH]; intros st; simpl.
  - reflexivity.
  - now rewrite IH, iter_outside.
Qed.

Lemma outside_loop_fields (a b : App) :
  outside_loop a = outside_loop b ->
  isExporting a = isExporting b /\ downloads a = downloads b /\
  activeBufferIndex (playback a) = activeBufferIndex (playback b) /\
  audioSource (playback a) = audioSource (playback b) /\
  isPlaying (playback a) = isPlaying (playback b) /\
  pauseOffset (playback a) = pauseOffset (playback b).
Proof.
  unfold outside_loop. intros H.
  pose proof (f_equal snd H) as Hp.
  pose proof (f_equal (fun t => snd (fst t)) H) as Hd.
  pose proof (f_equal (fun t => snd (fst (fst t))) H) as He.
  cbn [fst snd] in Hp, Hd, He.
  split; [exact He|]. split; [exact Hd|].
  split; [exact (f_equal activeBufferIndex Hp)|].
  split; [exact (f_equal audioSource Hp)|].
  split; [exact (f_equal isPlaying Hp) | exact (f_equal pauseOffset Hp)].
Qed.

Lemma export_loop_app (a b : list iter_env) (st : App) :
  export_loop (a ++ b) st = export_loop b (export_loop a st).
Proof.
  revert st. induction a as [|e a IH]; intros st; simpl; [reflexivity|].
  apply IH.
Qed.

(** Once the promise has rejected, nothing of the call runs any more. *)
Lemma iter_after_rejection (env : iter_env) (st : App) (j : ExportJob)
    (e : exn) :
  job st = Some j -> rejected j = Some e ->
  handleExportVideo_iter env st = st.
Proof.
  intros Hj Hr. unfold handleExportVideo_iter. now rewrite Hj, Hr.
Qed.

Lemma export_loop_after_rejection (envs : list iter_env) (st : App)
    (j : ExportJob) (e : exn) :
  job st = Some j -> rejected j = Some e -> export_loop envs st = st.
Proof.
  intros Hj Hr. induction envs as [|x envs IH]; simpl; [reflexivity|].
  now rewrite (iter_after_rejection x st Hj Hr).
Qed.

Lemma finish_after_rejection (size : Z) (st : App) (j : ExportJob)
    (e : exn) :
  job st = Some j -> rejected j = Some e ->
  handleExportVideo_finish size st = st.
Proof.
  intros Hj Hr. unfold handleExportVideo_finish. now rewrite Hj, Hr.
Qed.

Lemma map_env_ok (env : nat -> iter_env) (k : nat) :
  forall a : nat,
    (forall i, (a <= i < a + k)%nat -> env i = IterOk) ->
    map env (seq a k) = repeat IterOk k.
Proof.
  induction k as [|k IH]; intros a H; simpl; [reflexivity|].
  rewrite H by lia. f_equal. apply IH. intros i Hi. apply H. lia.
Qed.

(** [k] turns that go well advance the loop variable by [k] and show the
    next [k] segments, in order. *)
Lemma ok_turns (k : nat) :
  forall (st : App) (j : ExportJob),
    job st = Some j -> rejected j = None ->
    (loop_i j + k <= totalSteps j)%nat ->
    exists j',
      job (export_loop (repeat IterOk k) st) = Some j' /\
      rejected j' = None /\ loop_i j' = (loop_i j + k)%nat /\
      totalSteps j' = totalSteps j /\ mimeType j' = mimeType j /\
      chunks j' = chunks j /\
      map fst (shown j') = map fst (shown j) ++ seq (loop_i j) k.
Proof.
  induction k as [|k IH]; intros st j Hj Hr Hk.
  - exists j. simpl. rewrite Nat.add_0_r, app_nil_r. auto 10.
  - simpl.
    assert (Hlt : (loop_i j <? totalSteps j)%nat = true)
      by (apply Nat.ltb_lt; lia).
    set (st1 := handleExportVideo_iter IterOk st).
    assert (Hj1 : job st1
                  = Some (mkJob Recording (mimeType j) (chunks j)
                            (totalSteps j) (S (loop_i j))
                            (shown j ++
                               [(loop_i j,
                                 (loop_i j <?
                                    List.length
                                      (audioBuffers
                                         (setCurrentStepIndex (loop_i j)
                                            (playback st))))%nat)])
                            None)).
    { subst st1. unfold handleExportVideo_iter. rewrite Hj, Hr, Hlt.
      reflexivity. }
    destruct (IH st1 _ Hj1 eq_refl) as (j' & A & B & C & D & E & F & G).
    { simpl. lia. }
    exists j'. simpl in C, D, E, F, G.
    repeat (split; [assumption || (rewrite C; lia)|]).
    rewrite G, map_app, <- app_assoc. reflexivity.
Qed.

Lemma begin_state (supported : string -> bool) (st : App) :
  exportContainer st = true -> isExporting st = false ->
  handleExportVideo_begin supported st
  = mkApp (query st) (tutorialData st) (loadingState st) (error st) true
      (with_context (stopAudio (playback st)))
      (Some (mkJob Recording (pick_mimeType supported) []
               (steps_count st + 1) 0 [] None))
      (downloads st).
Proof.
  intros Hc He. unfold handleExportVideo_begin. now rewrite Hc, He.
Qed.

(** C8, on the code.  An export started from a ready, non-exporting state
    either completes or is cut short.  When every turn goes well the
    recorder is stopped, one artifact made of the chunks is delivered with
    the negotiated type, [isExporting] is cleared and the selection is
    reset to segment 0.  When turn [k] is the first to fail, the turns
    after [k] do not run and nothing is delivered, but nothing is cleaned
    up either: [isExporting] stays true, the step shown stays [k], and the
    recorder is left as the failure found it (paused and never stopped,
    when the snapshot was rejected).  The index playback resumes from is 0
    in both cases. *)
Theorem export_completion_and_failure (supported : string -> bool)
    (env : nat -> iter_env) (size : Z) (st : App) :
  exportContainer st = true ->
  isExporting st = false ->
  ((forall i, (i < steps_count st + 1)%nat -> env i = IterOk) ->
   isExporting (handleExportVideo supported env size st) = false /\
   currentStepIndex (playback (handleExportVideo supported env size st))
   = 0%nat /\
   activeBufferIndex (playback (handleExportVideo supported env size st))
   = 0%nat /\
   exists j,
     job (handleExportVideo supported env size st) = Some j /\
     recState j = Inactive /\ rejected j = None /\
     map fst (shown j) = seq 0 (steps_count st + 1) /\
     downloads (handleExportVideo supported env size st)
     = downloads st ++ [mkDownload (chunks j) (pick_mimeType supported)]) /\
  (forall k, (k < steps_count st + 1)%nat ->
     (forall i, (i < k)%nat -> env i = IterOk) ->
     env k <> IterOk ->
     isExporting (handleExportVideo supported env size st) = true /\
     currentStepIndex (playback (handleExportVideo supported env size st))
     = k /\
     activeBufferIndex (playback (handleExportVideo supported env size st))
     = 0%nat /\
     downloads (handleExportVideo supported env size st) = downloads st /\
     exists j e,
       job (handleExportVideo supported env size st) = Some j /\
       rejected j = Some e /\
       map fst (shown j) = seq 0 k /\
       recState j = match env k with
                    | IterSnapshotRejects _ => RecPaused
                    | _ => Inactive
                    end).
Proof.
  intros Hc He.
  pose proof (begin_state supported st Hc He) as Hbegin.
  set (n := (steps_count st + 1)%nat) in *.
  set (j0 := mkJob Recording (pick_mimeType supported) [] n 0 [] None)
    in Hbegin.
  set (st1 := handleExportVideo_begin supported st) in *.
  assert (Hj0 : job st1 = Some j0) by now rewrite Hbegin.
  assert (Hwhole : handleExportVideo supported env size st
                   = handleExportVideo_finish size
                       (export_loop (map env (seq 0 n)) st1)).
  { unfold handleExportVideo. now rewrite Hc, He. }
  rewrite Hwhole. clear Hwhole.
  assert (Hout1 : isExporting st1 = true /\ downloads st1 = downloads st /\
                  activeBufferIndex (playback st1) = 0%nat)
    by (rewrite Hbegin; auto).
  destruct Hout1 as (Hex1 & Hdl1 & Hidx1).
  split.
  - intros Hall.
    rewrite (@map_env_ok env n 0%nat) by (intros i Hi; apply Hall; lia).
    destruct (@ok_turns n st1 j0 Hj0 eq_refl) as (j & A & B & C & D & E & F & G).
    { simpl. lia. }
    simpl in C, D, E, F, G.
    unfold handleExportVideo_finish. rewrite A, B, C, D.
    rewrite Nat.ltb_irrefl. simpl.
    split; [reflexivity|]. split; [reflexivity|]. split; [reflexivity|].
    eexists. split; [reflexivity|]. simpl.
    split; [reflexivity|]. split; [reflexivity|]. split; [exact G|].
    destruct (outside_loop_fields (export_loop_outside (repeat IterOk n) st1))
      as (_ & Hd & _).
    now rewrite Hd, Hdl1, E.
  - intros k Hk Hbefore Hbad.
    replace n with (k + S (n - S k))%nat by lia.
    rewrite seq_app, map_app, export_loop_app. simpl.
    rewrite (@map_env_ok env k 0%nat) by (intros i Hi; apply Hbefore; lia).
    destruct (@ok_turns k st1 j0 Hj0 eq_refl) as (j & A & B & C & D & E & F & G).
    { simpl. lia. }
    simpl in C, D, E, F, G.
    set (stk := export_loop (repeat IterOk k) st1) in *.
    destruct (outside_loop_fields (export_loop_outside (repeat IterOk k) st1))
      as (Hx & Hd & Hi & _).
    fold stk in Hx, Hd, Hi.
    assert (Hlt : (loop_i j <? totalSteps j)%nat = true)
      by (apply Nat.ltb_lt; lia).
    assert (Hfail :
      exists rs e,
        handleExportVideo_iter (env k) stk
        = with_job (with_playback stk (setCurrentStepIndex k (playback stk)))
            (Some (job_fail j rs e)) /\
        rs = match env k with
             | IterSnapshotRejects _ => RecPaused
             | _ => Inactive
             end).
    { unfold handleExportVideo_iter. rewrite A, B, Hlt, C.
      destruct (env k) as [|e|]; [contradiction | eauto | eauto]. }
    destruct Hfail as (rs & e & Hiter & Hrs).
    rewrite Hiter.
    rewrite (@export_loop_after_rejection _ _ (job_fail j rs e) e)
      by reflexivity.
    rewrite (@finish_after_rejection _ _ (job_fail j rs e) e) by reflexivity.
    simpl.
    split; [now rewrite Hx|]. split; [reflexivity|].
    split; [now rewrite Hi|]. split; [now rewrite Hd|].
    exists (job_fail j rs e), e.
    split; [reflexivity|]. split; [reflexivity|].
    split; [exact G | exact Hrs].
Qed.

(** The export of the three demo segments: once with every turn going
    well, once with the snapshot of segment 1 rejected. *)
Lemma export_completion_and_failure_witness :
  (isExporting
     (handleExportVideo Demo.all_types Demo.env_fine 1000 Demo.submitted)
   = false /\
   currentStepIndex
     (playback
        (handleExportVideo Demo.all_types Demo.env_fine 1000 Demo.submitted))
   = 0%nat /\
   exists j,
     job (handleExportVideo Demo.all_types Demo.env_fine 1000 Demo.submitted)
     = Some j /\
     recState j = Inactive /\ rejected j = None /\
     map fst (shown j) = [0; 1; 2]%nat /\
     downloads
       (handleExportVideo Demo.all_types Demo.env_fine 1000 Demo.submitted)
     = [mkDownload (chunks j) (pick_mimeType Demo.all_types)]) /\
  (isExporting
     (handleExportVideo Demo.all_types Demo.env_snapshot_fails_at_1 1000
        Demo.submitted) = true /\
   currentStepIndex
     (playback
        (handleExportVideo Demo.all_types Demo.env_snapshot_fails_at_1 1000
           Demo.submitted)) = 1%nat /\
   activeBufferIndex
     (playback
        (handleExportVideo Demo.all_types Demo.env_snapshot_fails_at_1 1000
           Demo.submitted)) = 0%nat /\
   downloads
     (handleExportVideo Demo.all_types Demo.env_snapshot_fails_at_1 1000
        Demo.submitted) = [] /\
   exists j e,
     job (handleExportVideo Demo.all_types Demo.env_snapshot_fails_at_1 1000
            Demo.submitted) = Some j /\
     rejected j = Some e /\
     map fst (shown j) = [0%nat] /\
     recState j = RecPaused).
Proof.
  split.
  - destruct (@export_completion_and_failure Demo.all_types Demo.env_fine
                1000%Z Demo.submitted) as [H _];
      [vm_compute; reflexivity | vm_compute; reflexivity |].
    destruct H as (A & B & _ & j & J1 & J2 & J3 & J4 & J5);
      [intros i _; reflexivity|].
    split; [exact A|]. split; [exact B|].
    exists j. split; [exact J1|]. split; [exact J2|]. split; [exact J3|].
    split; [exact J4 | exact J5].
  - destruct (@export_completion_and_failure Demo.all_types
                Demo.env_snapshot_fails_at_1 1000%Z Demo.submitted)
      as [_ H];
      [vm_compute; reflexivity | vm_compute; reflexivity |].
    destruct (H 1%nat) as (A & B & C & D & j & e & J1 & J2 & J3 & J4).
    + vm_compute. repeat constructor.
    + intros i Hi. destruct i as [|i]; [reflexivity|].
      exfalso. inversion Hi as [|m Hm]. inversion Hm.
    + discriminate.
    + split; [exact A|]. split; [exact B|]. split; [exact C|].
      split; [exact D|].
      exists j, e. split; [exact J1|]. split; [exact J2|].
      split; [exact J3 | exact J4].
Defined.

(** The failing input of C8.  Three segments, the snapshot of segment 1 is
    rejected: the call ends with [isExporting] still true, the recorder
    paused and never stopped, and segment 1 still selected. *)
Lemma export_failure_has_no_cleanup :
  exists j,
    job (handleExportVideo Demo.all_types Demo.env_snapshot_fails_at_1 1000
        Demo.submitted) = Some j /\
    rejected j = Some (GenericError "html2canvas") /\
    recState j = RecPaused /\ recState j <> Inactive /\
    isExporting (handleExportVideo Demo.all_types Demo.env_snapshot_fails_at_1 1000
        Demo.submitted) = true /\
    currentStepIndex (playback (handleExportVideo Demo.all_types Demo.env_snapshot_fails_at_1 1000
        Demo.submitted)) = 1%nat /\
    currentStepIndex (playback (handleExportVideo Demo.all_types Demo.env_snapshot_fails_at_1 1000
        Demo.submitted)) <> 0%nat /\
    downloads (handleExportVideo Demo.all_types Demo.env_snapshot_fails_at_1 1000
        Demo.submitted) = [].
Proof.
  eexists. split; [vm_compute; reflexivity|]. simpl.
  repeat split; try discriminate; vm_compute; reflexivity.
Qed.

End ExportFacts.

(** ** More on the PCM decoder *)

Module DecoderMore.

Import Platform GeminiService DecoderFacts Samples.
Local Open Scope Z_scope.

Lemma padding_plain_rev (u : list ascii) :
  Forall (fun c => is_ascii_whitespace c = false /\ is_pad c = false) u ->
  strip_padding (u ++ padding (List.length u)) = u.
Proof.
  intros Hu. unfold padding.
  pose proof (Nat.mod_upper_bound (List.length u) 4 ltac:(lia)) as Hlt.
  destruct (Nat.modulo (List.length u) 4) as [|[|[|[|n]]]] eqn:E; try lia.
  - rewrite app_nil_r. now apply strip_padding_plain.
  - rewrite app_nil_r. now apply strip_padding_plain.
  - unfold strip_padding.
    rewrite length_app, Nat.Div0.add_mod, E. simpl Nat.eqb.
    cbv iota. rewrite rev_app_distr. simpl.
    now rewrite rev_involutive.
  - unfold strip_padding.
    rewrite length_app, Nat.Div0.add_mod, E. simpl Nat.eqb.
    cbv iota. rewrite rev_app_distr. simpl.
    apply Forall_rev in Hu.
    destruct (rev u) as [|c2 r] eqn:Er.
    + apply (f_equal (@List.length ascii)) in Er.
      rewrite length_rev in Er. rewrite Er in E. discriminate.
    + inversion_clear Hu as [|? ? [_ Hp] _]. rewrite Hp.
      rewrite <- (rev_involutive u), Er. reflexivity.
Qed.

Lemma padding_not_space (n : nat) :
  filter (fun c => negb (is_ascii_whitespace c)) (padding n) = padding n.
Proof.
  unfold padding. destruct (Nat.modulo n 4) as [|[|[|[|m]]]]; reflexivity.
Qed.

(** X1.  [decode] inverts base64 encoding, with or without padding: the
    encoding of any sequence of bytes decodes to exactly those bytes. *)
Theorem decode_base64_roundtrip (bs : list Z) :
  Forall is_byte bs ->
  decode (base64_of_bytes bs) = Ok bs /\
  decode (padded_base64_of_bytes bs) = Ok bs.
Proof.
  intros H. split; [now apply decode_base64_of_bytes|].
  pose proof (sextets_range H) as Hs.
  pose proof (b64_values_chars Hs) as Hv.
  pose proof (b64_values_plain _ Hv) as Hp.
  unfold decode, atob, padded_base64_of_bytes.
  rewrite list_ascii_of_string_of_list_ascii.
  rewrite filter_app, (filter_plain Hp), padding_not_space.
  rewrite <- (length_map b64_char (bytes_to_sextets bs)).
  rewrite (padding_plain_rev Hp), length_map.
  destruct (Nat.eqb_spec (Nat.modulo (List.length (bytes_to_sextets bs)) 4) 1)
    as [E|_]; [now apply sextets_length in E|].
  rewrite Hv. simpl. now rewrite (sextets_roundtrip H), (charCodes_chars H).
Qed.

Lemma decode_base64_roundtrip_witness :
  decode (base64_of_bytes [72; 101; 108; 108]) = Ok [72; 101; 108; 108] /\
  decode (padded_base64_of_bytes [72; 101; 108; 108])
  = Ok [72; 101; 108; 108].
Proof.
  apply (@decode_base64_roundtrip [72; 101; 108; 108]).
  unfold is_byte. repeat constructor; lia.
Defined.

Lemma decode_throws_only (b64 : string) (e : exn) :
  decode b64 = Throw e -> e = InvalidCharacterError.
Proof.
  unfold decode, atob.
  destruct (Nat.modulo _ 4 =? 1)%nat; simpl; [now intros [= <-]|].
  destruct (b64_values _); simpl; [discriminate | now intros [= <-]].
Qed.

(** X2.  The four outcomes of [createAudioBufferFromPCM], by what the
    payload decodes to: not base64 gives [InvalidCharacterError]; an odd
    number of bytes [RangeError]; no byte at all [NotSupportedError]; and
    [2k >= 2] bytes a 24000 Hz buffer of the [k] samples. *)
Theorem createAudioBufferFromPCM_outcomes (b64 : string) :
  (decode b64 = Throw InvalidCharacterError /\
   createAudioBufferFromPCM b64 = Throw InvalidCharacterError) \/
  (exists bytes,
     decode b64 = Ok bytes /\ Nat.odd (List.length bytes) = true /\
     createAudioBufferFromPCM b64 = Throw RangeError) \/
  (decode b64 = Ok [] /\
   createAudioBufferFromPCM b64 = Throw NotSupportedError) \/
  (exists bytes k,
     decode b64 = Ok bytes /\ List.length bytes = (2 * k)%nat /\
     (1 <= k)%nat /\ List.length (int16_view bytes) = k /\
     createAudioBufferFromPCM b64
     = Ok (mkAudioBuffer 24000 (map sample_of_int16 (int16_view bytes)))).
Proof.
  destruct (decode b64) as [bytes|e] eqn:Hdec.
  - right. rewrite (createAudioBufferFromPCM_cases b64 Hdec).
    destruct (Nat.even (List.length bytes)) eqn:Heven.
    + right. apply Nat.even_spec in Heven. destruct Heven as [k Hk].
      destruct (int16_view_spec k bytes Hk) as [Hvlen _]. rewrite Hvlen.
      destruct (Nat.eqb_spec k 0) as [->|Hne].
      * left. destruct bytes; [auto | discriminate].
      * right. exists bytes, k. repeat split; auto. lia.
    + left. exists bytes. rewrite <- Nat.negb_even, Heven. auto.
  - left. pose proof (decode_throws_only b64 Hdec) as ->.
    split; [reflexivity|].
    unfold createAudioBufferFromPCM, createAudioBufferFromPCM_at.
    now rewrite Hdec.
Qed.

Lemma int16_view_range (bytes : list Z) (k : nat) :
  Forall is_byte bytes -> List.length bytes = (2 * k)%nat ->
  Forall (fun v => -32768 <= v <= 32767) (int16_view bytes).
Proof.
  intros Hb Hlen.
  destruct (int16_view_spec k bytes Hlen) as [Hvlen Hvnth].
  apply Forall_forall. intros v Hv.
  destruct (In_nth _ _ 0 Hv) as [i [Hi <-]]. rewrite Hvlen in Hi.
  rewrite (Hvnth i Hi). rewrite Forall_forall in Hb.
  apply int16_le_range; apply Hb; apply nth_In; lia.
Qed.

(** X3.  A payload of [2k >= 2] bytes decodes to a buffer that lasts
    [k / 24000] seconds, and every sample is at least -1 and strictly
    below 1. *)
Theorem decoded_duration_and_range (b64 : string) (bytes : list Z)
    (k : nat) :
  decode b64 = Ok bytes ->
  List.length bytes = (2 * k)%nat ->
  (1 <= k)%nat ->
  exists buf,
    createAudioBufferFromPCM b64 = Ok buf /\
    (duration buf == Qmake (Z.of_nat k) 24000)%Q /\
    (0 < duration buf)%Q /\
    Forall (fun x => (-1 <= x)%Q /\ (x < 1)%Q) (channelData buf).
Proof.
  intros Hdec Hlen Hk.
  destruct (int16_view_spec k bytes Hlen) as [Hvlen _].
  rewrite (createAudioBufferFromPCM_cases b64 Hdec), Hlen, Hvlen.
  replace (Nat.even (2 * k)) with true
    by (symmetry; apply Nat.even_spec; now exists k).
  destruct (Nat.eqb_spec k 0) as [E|_]; [lia|].
  eexists. split; [reflexivity|].
  unfold duration, frames. cbn [sampleRate channelData].
  rewrite length_map, Hvlen.
  split; [reflexivity|]. split; [unfold Qlt; simpl; lia|].
  assert (Hb : Forall is_byte bytes) by exact (decode_bytes b64 Hdec).
  pose proof (@int16_view_range bytes k Hb Hlen) as Hr.
  apply Forall_forall. intros x Hx.
  apply in_map_iff in Hx. destruct Hx as [v [<- Hv]].
  rewrite Forall_forall in Hr. specialize (Hr v Hv).
  unfold sample_of_int16, Qle, Qlt. simpl. lia.
Qed.

Lemma decoded_duration_and_range_witness :
  exists buf,
    createAudioBufferFromPCM "AAD/fwCA" = Ok buf /\
    (duration buf == Qmake (Z.of_nat 3) 24000)%Q /\
    (0 < duration buf)%Q /\
    Forall (fun x => (-1 <= x)%Q /\ (x < 1)%Q) (channelData buf).
Proof.
  apply (@decoded_duration_and_range "AAD/fwCA" [0; 0; 255; 127; 0; 128] 3).
  - vm_compute. reflexivity.
  - reflexivity.
  - lia.
Defined.

End DecoderMore.

(** ** More on the playback engine *)

Module PlayerMore.

Import Platform GeminiService Player App PlayerFacts AppFacts Predicates.
Local Open Scope Q_scope.

Lemma nth_error_in_range {A : Type} (l : list A) (i : nat) (a : A) :
  nth_error l i = Some a -> (i < List.length l)%nat.
Proof. intros H. apply nth_error_Some. congruence. Qed.

(** X4.  [handleReplay] over a non-empty timeline starts segment 0 from
    offset 0 on a fresh node, by one call [playSegment(0, 0)], whatever was
    playing or paused before; the node that was live has been stopped and
    disconnected, and is otherwise the node it was. *)
Theorem handleReplay_restarts (p : Playback) (now : Q) :
  (0 < List.length (audioBuffers p))%nat ->
  isPlaying (handleReplay now p) = true /\
  activeBufferIndex (handleReplay now p) = 0%nat /\
  currentStepIndex (handleReplay now p) = 0%nat /\
  pauseOffset (handleReplay now p) = 0 /\
  startTime (handleReplay now p) = now - 0 /\
  audioSource (handleReplay now p) = Some (List.length (nodes p)) /\
  nth_error (nodes (handleReplay now p)) (List.length (nodes p))
  = Some (mkSource 0 0 false true) /\
  playCalls (handleReplay now p) = (0%nat, 0) :: playCalls p /\
  (forall s n,
     audioSource p = Some s -> nth_error (nodes p) s = Some n ->
     (s < List.length (nodes p))%nat /\
     exists n',
       nth_error (nodes (handleReplay now p)) s = Some n' /\
       src_stopped n' = true /\ src_connected n' = false /\
       src_index n' = src_index n /\ src_offset n' = src_offset n).
Proof.
  intros Hpos. unfold handleReplay, playAudio.
  set (q := stopAudio p).
  assert (A : activeBufferIndex q = 0%nat) by reflexivity.
  assert (B : pauseOffset q = 0) by reflexivity.
  assert (C : audioBuffers q = audioBuffers p) by reflexivity.
  assert (Hlen : List.length (nodes q) = List.length (nodes p)).
  { subst q. unfold stopAudio. cbn [nodes].
    destruct (audioSource p); [apply update_node_length | reflexivity]. }
  rewrite A, B.
  rewrite playSegment_in_range by (rewrite C; exact Hpos).
  cbn [isPlaying activeBufferIndex currentStepIndex pauseOffset startTime
       audioSource nodes playCalls].
  rewrite Hlen.
  repeat (split; [first [reflexivity | assumption]|]).
  split.
  { rewrite nth_error_app2 by lia. rewrite Hlen, Nat.sub_diag. reflexivity. }
  split; [reflexivity|].
  intros s n Hs Hn.
  pose proof (nth_error_in_range _ _ Hn) as Hlt.
  split; [exact Hlt|].
  exists (disconnect_node (stop_node n)).
  split; [|repeat split].
  rewrite nth_error_app1 by (rewrite Hlen; exact Hlt).
  subst q. unfold stopAudio. cbn [nodes]. rewrite Hs.
  apply (@update_node_nth (fun x => disconnect_node (stop_node x))).
  exact Hn.
Qed.

(** Replay while segment 0 is playing on node 0: node 0 ends up stopped and
    disconnected, and node 1 plays segment 0 from its start. *)
Lemma handleReplay_restarts_witness :
  audioSource Demo.playing = Some 0%nat /\
  isPlaying (handleReplay 5 Demo.playing) = true /\
  activeBufferIndex (handleReplay 5 Demo.playing) = 0%nat /\
  pauseOffset (handleReplay 5 Demo.playing) = 0 /\
  audioSource (handleReplay 5 Demo.playing) = Some 1%nat /\
  nth_error (nodes (handleReplay 5 Demo.playing)) 1
  = Some (mkSource 0 0 false true) /\
  exists n',
    nth_error (nodes (handleReplay 5 Demo.playing)) 0 = Some n' /\
    src_stopped n' = true /\ src_connected n' = false /\
    src_index n' = 0%nat /\ src_offset n' = 0.
Proof.
  destruct (@handleReplay_restarts Demo.playing 5)
    as (A & B & _ & D & _ & F & G & _ & H).
  { vm_compute. apply le_n. }
  destruct (H 0%nat (mkSource 0 0 false true) eq_refl eq_refl)
    as (_ & n' & Hn' & Hstop & Hdis & Hidx & Hoff).
  split; [reflexivity|]. split; [exact A|]. split; [exact B|].
  split; [exact D|]. split; [exact F|]. split; [exact G|].
  exists n'. auto.
Defined.

End PlayerMore.

(** ** More on interleavings *)

Module AppMore.

Import Platform GeminiService Player App PlayerFacts AppFacts Predicates.
Local Open Scope Q_scope.

(** Whatever the state before, the state [playSegment] leaves is
    coherent. *)
Lemma playSegment_coherent (now : Q) (index : nat) (offset : Q)
    (p : Playback) :
  coherent (playSegment now index offset p).
Proof.
  unfold playSegment.
  destruct (Nat.leb_spec (List.length (audioBuffers p)) index) as [H|H].
  - intros Hp. discriminate.
  - intros _. exists (List.length (nodes p)), (mkSource index offset false true).
    cbn [audioSource nodes audioContext activeBufferIndex audioBuffers].
    split; [reflexivity|]. split.
    { rewrite nth_error_app2 by lia. now rewrite Nat.sub_diag. }
    repeat split; auto.
Qed.

Lemma pauseAudio_coherent (now : Q) (p : Playback) :
  coherent p -> coherent (pauseAudio now p).
Proof.
  unfold pauseAudio. intros H.
  destruct (audioSource p); [|exact H].
  destruct (audioContext p); [|exact H].
  intros Hp. discriminate.
Qed.

Lemma stopAudio_coherent (p : Playback) : coherent (stopAudio p).
Proof. intros Hp. discriminate. Qed.

Lemma onended_coherent (now : Q) (s : nat) (p : Playback) :
  coherent p -> coherent (onended now s p).
Proof.
  unfold onended. intros H.
  destruct (nth_error (nodes p) s); [|exact H].
  destruct (source_is p s); [apply playSegment_coherent | exact H].
Qed.

Lemma with_context_coherent (p : Playback) :
  coherent p -> coherent (with_context p).
Proof.
  intros H Hp. destruct (H Hp) as (s & node & A & B & C & D & _ & F).
  exists s, node. repeat split; auto.
Qed.

(** Every event keeps the playback state coherent. *)
Lemma step_coherent (ev : event) (st : App) :
  coherent (playback st) -> coherent (playback (step ev st)).
Proof.
  intros H. destruct ev; simpl.
  - exact H.
  - unfold handleSubmit_begin. destruct (blank (query st)); [exact H|].
    intros Hp. discriminate.
  - unfold handleSubmit_resume. destruct gen as [data|e]; [|exact H].
    destruct (decode_all (generateAudioSegments tts data));
      [apply playSegment_coherent | now apply with_context_coherent].
  - unfold handleTogglePlay. destruct (isPlaying (playback st)).
    + now apply pauseAudio_coherent.
    + apply playSegment_coherent.
  - apply playSegment_coherent.
  - unfold handleDeepDive. destruct (tutorialData st); [|exact H].
    now apply pauseAudio_coherent.
  - unfold handleExportVideo_begin.
    destruct (negb (exportContainer st) || isExporting st); [exact H|].
    intros Hp. discriminate.
  - unfold handleExportVideo_iter.
    destruct (job st) as [j|]; [|exact H].
    destruct (rejected j); [exact H|].
    destruct (loop_i j <? totalSteps j)%nat; [|exact H].
    destruct env; exact H.
  - unfold handleExportVideo_finish.
    destruct (job st) as [j|]; [|exact H].
    destruct (rejected j); [exact H|].
    destruct (loop_i j <? totalSteps j)%nat; [exact H|].
    intros Hp. destruct (H Hp) as (s & node & A & B & C & D & E & F).
    exists s, node. cbn [playback audioSource nodes audioContext
                         activeBufferIndex audioBuffers].
    repeat split; auto. lia.
  - apply stopAudio_coherent.
  - now apply onended_coherent.
Qed.

Lemma run_coherent (evs : list event) :
  forall st : App,
    coherent (playback st) -> coherent (playback (run evs st)).
Proof.
  induction evs as [|ev evs IH]; intros st H; [exact H|].
  simpl. apply IH. now apply step_coherent.
Qed.

Lemma reachable_coherent (evs : list event) :
  coherent (playback (run evs App.initial)).
Proof. apply run_coherent. intros Hp. discriminate. Qed.

(** X6.  In every state the component can reach, [isPlaying] is backed by
    audio: when it is true there is a live node that exists, was never
    stopped and is connected, an audio context exists, and the active
    index points at a buffer. *)
Theorem playing_means_audio_scheduled (evs : list event) :
  isPlaying (playback (run evs App.initial)) = true ->
  exists s node,
    audioSource (playback (run evs App.initial)) = Some s /\
    nth_error (nodes (playback (run evs App.initial))) s = Some node /\
    src_stopped node = false /\ src_connected node = true /\
    audioContext (playback (run evs App.initial)) = true /\
    (activeBufferIndex (playback (run evs App.initial))
     < List.length (audioBuffers (playback (run evs App.initial))))%nat.
Proof. exact (reachable_coherent evs). Qed.

Lemma playing_means_audio_scheduled_witness :
  exists s node,
    audioSource (playback Demo.submitted) = Some s /\
    nth_error (nodes (playback Demo.submitted)) s = Some node /\
    src_stopped node = false /\ src_connected node = true /\
    audioContext (playback Demo.submitted) = true /\
    (activeBufferIndex (playback Demo.submitted)
     < List.length (audioBuffers (playback Demo.submitted)))%nat.
Proof.
  apply (@playing_means_audio_scheduled
           [SetQuery "center a div"; Submit;
            SubmitResume 0 (Ok Demo.tutorial) Demo.tts_fine]).
  vm_compute. reflexivity.
Defined.



(** X8.  After a handler that stops all audio (the unmount cleanup, a
    submission with a non-blank query, or an export that gets past its
    guard) the [ended] event of any node created so far changes nothing,
    whatever events come first. *)
Theorem stopped_nodes_stay_silent (st : App) (s : nat)
    (post : list event) (now : Q) :
  (s < List.length (nodes (playback st)))%nat ->
  step (Ended now s) (run post (step Unmount st))
  = run post (step Unmount st) /\
  (blank (query st) = false ->
   step (Ended now s) (run post (step Submit st))
   = run post (step Submit st)) /\
  (forall supported,
     exportContainer st = true -> isExporting st = false ->
     step (Ended now s) (run post (step (ExportClick supported) st))
     = run post (step (ExportClick supported) st)).
Proof.
  intros Hs.
  assert (Hstop : (s < List.length (nodes (stopAudio (playback st))))%nat).
  { destruct (stopAudio_evolves (playback st)) as (L & _ & _). lia. }
  split; [|split].
  - apply retired_stays_inert; [exact Hstop | simpl; discriminate].
  - intros Hq. apply retired_stays_inert; simpl;
      unfold handleSubmit_begin; rewrite Hq; simpl;
      [exact Hstop | discriminate].
  - intros supported Hc He. apply retired_stays_inert; simpl;
      unfold handleExportVideo_begin; rewrite Hc, He; simpl;
      [exact Hstop | discriminate].
Qed.

Lemma stopped_nodes_stay_silent_witness :
  step (Ended 9 0) (run [TogglePlay 3; Replay 4] (step Unmount Demo.submitted))
  = run [TogglePlay 3; Replay 4] (step Unmount Demo.submitted) /\
  (blank (query Demo.submitted) = false ->
   step (Ended 9 0)
     (run [TogglePlay 3; Replay 4] (step Submit Demo.submitted))
   = run [TogglePlay 3; Replay 4] (step Submit Demo.submitted)) /\
  (forall supported,
     exportContainer Demo.submitted = true ->
     isExporting Demo.submitted = false ->
     step (Ended 9 0)
       (run [TogglePlay 3; Replay 4]
          (step (ExportClick supported) Demo.submitted))
     = run [TogglePlay 3; Replay 4]
         (step (ExportClick supported) Demo.submitted)).
Proof.
  apply (@stopped_nodes_stay_silent Demo.submitted 0%nat
           [TogglePlay 3; Replay 4] 9).
  vm_compute. apply le_n.
Defined.

End AppMore.

(** ** More on submission *)

Module SubmitMore.

Import Platform GeminiService Player App PlayerFacts SubmitFacts.
Local Open Scope Q_scope.

(** When the payloads synthesis returned decode, all buffers exist. *)
Lemma decode_all_total (tts : nat -> string -> tts_outcome)
    (data : TutorialData) :
  (forall i text payload,
     nth_error (segment_texts data) i = Some text ->
     generateSegment (tts i text) = Some payload ->
     exists b, createAudioBufferFromPCM payload = Ok b) ->
  exists buffers,
    decode_all (generateAudioSegments tts data) = Ok buffers /\
    List.length buffers = S (List.length (steps data)).
Proof.
  intros Hdec.
  destruct (@promise_all_all_ok _
              (map buffer_for (generateAudioSegments tts data)))
    as [buffers Hall].
  { apply Forall_forall. intros r Hr.
    apply In_nth_error in Hr. destruct Hr as [i Hi].
    assert (Hsome : exists text, nth_error (segment_texts data) i = Some text).
    { rewrite nth_error_map, generateAudioSegments_nth in Hi.
      destruct (nth_error (segment_texts data) i); [eauto | discriminate]. }
    destruct Hsome as [text Ht].
    rewrite (buffer_for_segment tts data i Ht) in Hi. injection Hi as <-.
    destruct (generateSegment (tts i text)) as [payload|] eqn:E; [|eauto].
    exact (Hdec i text payload Ht E). }
  exists buffers. split; [exact Hall|].
  pose proof (promise_all_ok _ Hall) as HF. apply Forall2_length in HF.
  rewrite <- HF, length_map. apply generateAudioSegments_length.
Qed.

(** X9.  A submission whose content arrives and whose returned payloads
    decode ends [READY] and playing: segment 0 is started at offset 0 on a
    fresh node by exactly one call of [playSegment], there is one buffer
    per segment of the document, and export becomes available. *)
Theorem successful_submission_autoplays
    (tts : nat -> string -> tts_outcome) (data : TutorialData) (now : Q)
    (st : App) :
  (forall i text payload,
     nth_error (segment_texts data) i = Some text ->
     generateSegment (tts i text) = Some payload ->
     exists b, createAudioBufferFromPCM payload = Ok b) ->
  blank (query st) = false ->
  tutorialData (handleSubmit now (Ok data) tts st) = Some data /\
  loadingState (handleSubmit now (Ok data) tts st) = READY /\
  exportContainer (handleSubmit now (Ok data) tts st) = true /\
  isPlaying (playback (handleSubmit now (Ok data) tts st)) = true /\
  activeBufferIndex (playback (handleSubmit now (Ok data) tts st)) = 0%nat /\
  currentStepIndex (playback (handleSubmit now (Ok data) tts st)) = 0%nat /\
  startTime (playback (handleSubmit now (Ok data) tts st)) = now - 0 /\
  audioSource (playback (handleSubmit now (Ok data) tts st))
  = Some (List.length (nodes (playback st))) /\
  playCalls (playback (handleSubmit now (Ok data) tts st))
  = (0%nat, 0) :: playCalls (playback st) /\
  List.length (audioBuffers (playback (handleSubmit now (Ok data) tts st)))
  = (steps_count (handleSubmit now (Ok data) tts st) + 1)%nat.
Proof.
  intros Hdec Hq.
  destruct (decode_all_total tts data Hdec) as (buffers & Hall & Hlen).
  unfold handleSubmit. rewrite Hq. unfold handleSubmit_resume.
  rewrite Hall. unfold handleSubmit_begin. rewrite Hq.
  unfold exportContainer, steps_count.
  cbn [tutorialData loadingState playback].
  unfold playAudio, with_buffers.
  cbn [activeBufferIndex pauseOffset].
  rewrite playSegment_in_range by (cbn [audioBuffers]; lia).
  cbn [isPlaying activeBufferIndex currentStepIndex startTime audioSource
       playCalls audioBuffers nodes].
  assert (Hn : List.length (nodes (stopAudio (playback st)))
               = List.length (nodes (playback st))).
  { unfold stopAudio. cbn [nodes].
    destruct (audioSource (playback st));
      [apply update_node_length | reflexivity]. }
  rewrite Hn.
  repeat (split; [reflexivity|]). lia.
Qed.

Lemma successful_submission_autoplays_witness :
  tutorialData (handleSubmit 0 (Ok Demo.tutorial) Demo.tts_step1_fails Demo.typed)
  = Some Demo.tutorial /\
  loadingState (handleSubmit 0 (Ok Demo.tutorial) Demo.tts_step1_fails Demo.typed)
  = READY /\
  exportContainer
    (handleSubmit 0 (Ok Demo.tutorial) Demo.tts_step1_fails Demo.typed)
  = true /\
  isPlaying
    (playback (handleSubmit 0 (Ok Demo.tutorial) Demo.tts_step1_fails Demo.typed))
  = true /\
  activeBufferIndex
    (playback (handleSubmit 0 (Ok Demo.tutorial) Demo.tts_step1_fails Demo.typed))
  = 0%nat /\
  currentStepIndex
    (playback (handleSubmit 0 (Ok Demo.tutorial) Demo.tts_step1_fails Demo.typed))
  = 0%nat /\
  startTime
    (playback (handleSubmit 0 (Ok Demo.tutorial) Demo.tts_step1_fails Demo.typed))
  = 0 - 0 /\
  audioSource
    (playback (handleSubmit 0 (Ok Demo.tutorial) Demo.tts_step1_fails Demo.typed))
  = Some (List.length (nodes (playback Demo.typed))) /\
  playCalls
    (playback (handleSubmit 0 (Ok Demo.tutorial) Demo.tts_step1_fails Demo.typed))
  = (0%nat, 0) :: playCalls (playback Demo.typed) /\
  List.length
    (audioBuffers
       (playback
          (handleSubmit 0 (Ok Demo.tutorial) Demo.tts_step1_fails Demo.typed)))
  = (steps_count
       (handleSubmit 0 (Ok Demo.tutorial) Demo.tts_step1_fails Demo.typed)
     + 1)%nat.
Proof.
  apply (@successful_submission_autoplays Demo.tts_step1_fails Demo.tutorial
           0 Demo.typed).
  - intros i text payload _ E. unfold Demo.tts_step1_fails in E.
    destruct (i =? 1)%nat; simpl in E; [discriminate|].
    injection E as <-. eexists. vm_compute. reflexivity.
  - vm_compute. reflexivity.
Defined.

(** X10.  When content generation fails, the submission is over: the error
    is shown, no tutorial and no buffer are kept from before, nothing is
    live, the node that was live has been stopped and disconnected,
    [playSegment] is not called, and the export container is gone. *)
Theorem generation_failure_is_fatal (tts : nat -> string -> tts_outcome)
    (e : exn) (now : Q) (st : App) :
  blank (query st) = false ->
  loadingState (handleSubmit now (Throw e) tts st) = ERROR /\
  error (handleSubmit now (Throw e) tts st) = Some e /\
  tutorialData (handleSubmit now (Throw e) tts st) = None /\
  exportContainer (handleSubmit now (Throw e) tts st) = false /\
  audioBuffers (playback (handleSubmit now (Throw e) tts st)) = [] /\
  audioSource (playback (handleSubmit now (Throw e) tts st)) = None /\
  is_ended (playback (handleSubmit now (Throw e) tts st)) /\
  playCalls (playback (handleSubmit now (Throw e) tts st))
  = playCalls (playback st) /\
  (forall s n,
     audioSource (playback st) = Some s ->
     nth_error (nodes (playback st)) s = Some n ->
     exists n',
       nth_error (nodes (playback (handleSubmit now (Throw e) tts st))) s
       = Some n' /\
       src_stopped n' = true /\ src_connected n' = false /\
       src_index n' = src_index n /\ src_offset n' = src_offset n).
Proof.
  intros Hq. unfold handleSubmit. rewrite Hq.
  unfold handleSubmit_resume, handleSubmit_begin. rewrite Hq.
  unfold exportContainer, is_ended.
  cbn [loadingState error tutorialData playback audioBuffers audioSource
       isPlaying activeBufferIndex currentStepIndex pauseOffset playCalls
       nodes].
  repeat (split; [reflexivity|]).
  split; [unfold stopAudio; cbn; auto|].
  split; [reflexivity|].
  intros s n Hs Hn. exists (disconnect_node (stop_node n)).
  split; [|repeat split].
  unfold stopAudio. cbn [nodes]. rewrite Hs.
  apply (@update_node_nth (fun x => disconnect_node (stop_node x))).
  exact Hn.
Qed.

(** Content generation fails for a new submission while segment 0 of the
    previous tutorial plays on node 0. *)
Lemma generation_failure_is_fatal_witness :
  audioSource (playback Demo.submitted) = Some 0%nat /\
  loadingState
    (handleSubmit 8 (Throw (GenericError "No content generated"))
       Demo.tts_fine Demo.submitted) = ERROR /\
  error
    (handleSubmit 8 (Throw (GenericError "No content generated"))
       Demo.tts_fine Demo.submitted)
  = Some (GenericError "No content generated") /\
  tutorialData
    (handleSubmit 8 (Throw (GenericError "No content generated"))
       Demo.tts_fine Demo.submitted) = None /\
  audioBuffers
    (playback
       (handleSubmit 8 (Throw (GenericError "No content generated"))
          Demo.tts_fine Demo.submitted)) = [] /\
  audioSource
    (playback
       (handleSubmit 8 (Throw (GenericError "No content generated"))
          Demo.tts_fine Demo.submitted)) = None /\
  playCalls
    (playback
       (handleSubmit 8 (Throw (GenericError "No content generated"))
          Demo.tts_fine Demo.submitted))
  = playCalls (playback Demo.submitted) /\
  exists n',
    nth_error
      (nodes
         (playback
            (handleSubmit 8 (Throw (GenericError "No content generated"))
               Demo.tts_fine Demo.submitted))) 0
    = Some n' /\
    src_stopped n' = true /\ src_connected n' = false /\
    src_index n' = 0%nat /\ src_offset n' = 0.
Proof.
  destruct (@generation_failure_is_fatal Demo.tts_fine
              (GenericError "No content generated") 8 Demo.submitted)
    as (A & B & C & _ & E & F & _ & G & H).
  { vm_compute. reflexivity. }
  destruct (H 0%nat (mkSource 0 0 false true))
    as (n' & Hn' & Hst & Hdis & Hidx & Hoff);
    [vm_compute; reflexivity | vm_compute; reflexivity |].
  split; [vm_compute; reflexivity|].
  split; [exact A|]. split; [exact B|]. split; [exact C|].
  split; [exact E|]. split; [exact F|]. split; [exact G|].
  exists n'. auto.
Defined.

End SubmitMore.

(** ** More on export *)

Module ExportMore.

Import Platform GeminiService Player App ExportFacts Predicates.
Local Open Scope Q_scope.

Lemma export_loop_frame (envs : list iter_env) (st : App) :
  audioBuffers (playback (export_loop envs st)) = audioBuffers (playback st) /\
  audioSource (playback (export_loop envs st)) = audioSource (playback st) /\
  nodes (playback (export_loop envs st)) = nodes (playback st) /\
  startTime (playback (export_loop envs st)) = startTime (playback st) /\
  pauseOffset (playback (export_loop envs st)) = pauseOffset (playback st) /\
  activeBufferIndex (playback (export_loop envs st))
  = activeBufferIndex (playback st) /\
  isPlaying (playback (export_loop envs st)) = isPlaying (playback st) /\
  playCalls (playback (export_loop envs st)) = playCalls (playback st) /\
  isExporting (export_loop envs st) = isExporting st /\
  downloads (export_loop envs st) = downloads st.
Proof.
  pose proof (export_loop_outside envs st) as H. unfold outside_loop in H.
  pose proof (f_equal snd H) as Hp.
  pose proof (f_equal (fun t => snd (fst t)) H) as Hd.
  pose proof (f_equal (fun t => snd (fst (fst t))) H) as He.
  cbn [fst snd] in Hp, Hd, He.
  split; [exact (f_equal audioBuffers Hp)|].
  split; [exact (f_equal audioSource Hp)|].
  split; [exact (f_equal nodes Hp)|].
  split; [exact (f_equal startTime Hp)|].
  split; [exact (f_equal pauseOffset Hp)|].
  split; [exact (f_equal activeBufferIndex Hp)|].
  split; [exact (f_equal isPlaying Hp)|].
  split; [exact (f_equal playCalls Hp)|].
  split; assumption.
Qed.

(** X11.  The export loop never touches interactive audio: whatever
    happens in its turns, the buffers, the live source, the nodes, the
    offsets, the active index, [isPlaying], the log of [playSegment] calls,
    [isExporting] and the downloads are as before the loop. *)
Theorem export_loop_leaves_audio_alone (envs : list iter_env) (st : App) :
  audioBuffers (playback (export_loop envs st)) = audioBuffers (playback st) /\
  audioSource (playback (export_loop envs st)) = audioSource (playback st) /\
  nodes (playback (export_loop envs st)) = nodes (playback st) /\
  startTime (playback (export_loop envs st)) = startTime (playback st) /\
  pauseOffset (playback (export_loop envs st)) = pauseOffset (playback st) /\
  activeBufferIndex (playback (export_loop envs st))
  = activeBufferIndex (playback st) /\
  isPlaying (playback (export_loop envs st)) = isPlaying (playback st) /\
  playCalls (playback (export_loop envs st)) = playCalls (playback st) /\
  isExporting (export_loop envs st) = isExporting st /\
  downloads (export_loop envs st) = downloads st.
Proof. exact (export_loop_frame envs st). Qed.

Lemma iter_buffers (env : iter_env) (st : App) :
  audioBuffers (playback (handleExportVideo_iter env st))
  = audioBuffers (playback st).
Proof.
  pose proof (iter_outside env st) as H. unfold outside_loop in H.
  exact (f_equal audioBuffers (f_equal snd H)).
Qed.

(** [k] good turns, with the audio flag of each segment shown. *)
Lemma ok_turns_shown (k : nat) :
  forall (st : App) (j : ExportJob),
    job st = Some j -> rejected j = None ->
    (loop_i j + k <= totalSteps j)%nat ->
    exists j',
      job (export_loop (repeat IterOk k) st) = Some j' /\
      rejected j' = None /\ loop_i j' = (loop_i j + k)%nat /\
      totalSteps j' = totalSteps j /\ mimeType j' = mimeType j /\
      chunks j' = chunks j /\
      shown j'
      = shown j ++
        map (fun i => (i, (i <? List.length (audioBuffers (playback st)))%nat))
            (seq (loop_i j) k).
Proof.
  induction k as [|k IH]; intros st j Hj Hr Hk.
  - exists j. simpl. rewrite Nat.add_0_r, app_nil_r. auto 10.
  - simpl.
    assert (Hlt : (loop_i j <? totalSteps j)%nat = true)
      by (apply Nat.ltb_lt; lia).
    set (st1 := handleExportVideo_iter IterOk st).
    assert (Hj1 : job st1
                  = Some (mkJob Recording (mimeType j) (chunks j)
                            (totalSteps j) (S (loop_i j))
                            (shown j ++
                               [(loop_i j,
                                 (loop_i j <?
                                    List.length
                                      (audioBuffers (playback st)))%nat)])
                            None)).
    { subst st1. unfold handleExportVideo_iter. rewrite Hj, Hr, Hlt.
      reflexivity. }
    destruct (IH st1 _ Hj1 eq_refl) as (j' & A & B & C & D & E & F & G).
    { simpl. lia. }
    exists j'. simpl in C, D, E, F, G.
    repeat (split; [assumption || (rewrite C; lia)|]).
    rewrite G. subst st1. rewrite iter_buffers, <- app_assoc. reflexivity.
Qed.

(** The job at the end of a call in which every turn went well. *)
Lemma completed_job (supported : string -> bool) (env : nat -> iter_env)
    (size : Z) (st : App) :
  exportContainer st = true ->
  isExporting st = false ->
  (forall i, (i < steps_count st + 1)%nat -> env i = IterOk) ->
  job (handleExportVideo supported env size st)
  = Some (mkJob Inactive (pick_mimeType supported)
            (if (0 <? size)%Z then [size] else [])
            (steps_count st + 1) (steps_count st + 1)
            (map (fun i =>
                    (i, (i <? List.length (audioBuffers (playback st)))%nat))
                 (seq 0 (steps_count st + 1)))
            None) /\
  downloads (handleExportVideo supported env size st)
  = downloads st
      ++ [mkDownload (if (0 <? size)%Z then [size] else [])
            (pick_mimeType supported)].
Proof.
  intros Hc He Hall.
  pose proof (begin_state supported st Hc He) as Hbegin.
  set (n := (steps_count st + 1)%nat) in *.
  set (j0 := mkJob Recording (pick_mimeType supported) [] n 0 [] None)
    in Hbegin.
  set (st1 := handleExportVideo_begin supported st) in *.
  assert (Hj0 : job st1 = Some j0) by now rewrite Hbegin.
  assert (Hb1 : audioBuffers (playback st1) = audioBuffers (playback st))
    by now rewrite Hbegin.
  assert (Hd1 : downloads st1 = downloads st) by now rewrite Hbegin.
  unfold handleExportVideo. rewrite Hc, He. cbn [negb orb]. fold n st1.
  rewrite (@map_env_ok env n 0%nat) by (intros i Hi; apply Hall; lia).
  destruct (@ok_turns_shown n st1 j0 Hj0 eq_refl)
    as (j & A & B & C & D & E & F & G).
  { simpl. lia. }
  simpl in C, D, E, F, G.
  destruct (export_loop_frame (repeat IterOk n) st1)
    as (_ & _ & _ & _ & _ & _ & _ & _ & _ & Hd).
  unfold handleExportVideo_finish. rewrite A, B, C, D.
  rewrite Nat.ltb_irrefl. cbn [job downloads].
  rewrite E, F, G, Hd, Hd1, Hb1.
  destruct (0 <? size)%Z; split; reflexivity.
Qed.

(** X12.  In a completed export every segment of the document is shown
    once, in order, with its narration when a buffer exists for it and
    with the two-second hold otherwise; when there is one buffer per
    segment, as after a successful submission, none is held. *)
Theorem export_shows_every_segment (supported : string -> bool)
    (env : nat -> iter_env) (size : Z) (st : App) :
  exportContainer st = true ->
  isExporting st = false ->
  (forall i, (i < steps_count st + 1)%nat -> env i = IterOk) ->
  exists j,
    job (handleExportVideo supported env size st) = Some j /\
    shown j
    = map (fun i => (i, (i <? List.length (audioBuffers (playback st)))%nat))
        (seq 0 (steps_count st + 1)) /\
    (List.length (audioBuffers (playback st)) = (steps_count st + 1)%nat ->
     shown j = map (fun i => (i, true)) (seq 0 (steps_count st + 1))).
Proof.
  intros Hc He Hall.
  destruct (completed_job supported env size st Hc He Hall) as [Hj _].
  eexists. split; [exact Hj|]. cbn [shown]. split; [reflexivity|].
  intros Hlen. rewrite Hlen. apply map_ext_in. intros i Hi.
  apply in_seq in Hi. f_equal. apply Nat.ltb_lt. lia.
Qed.

Lemma export_shows_every_segment_witness :
  exists j,
    job (handleExportVideo Demo.all_types Demo.env_fine 1000 Demo.submitted)
    = Some j /\
    shown j
    = map (fun i =>
             (i, (i <? List.length
                         (audioBuffers (playback Demo.submitted)))%nat))
        (seq 0 (steps_count Demo.submitted + 1)) /\
    (List.length (audioBuffers (playback Demo.submitted))
     = (steps_count Demo.submitted + 1)%nat ->
     shown j = map (fun i => (i, true))
                 (seq 0 (steps_count Demo.submitted + 1))).
Proof.
  apply (@export_shows_every_segment Demo.all_types Demo.env_fine 1000%Z
           Demo.submitted).
  - vm_compute. reflexivity.
  - vm_compute. reflexivity.
  - intros i _. reflexivity.
Defined.

(** X13.  A completed export always delivers exactly one artifact, of the
    negotiated type: its only part is the recorded blob, and when the
    recorder produced no data the artifact has no part at all. *)
Theorem export_delivers_one_artifact (supported : string -> bool)
    (env : nat -> iter_env) (size : Z) (st : App) :
  exportContainer st = true ->
  isExporting st = false ->
  (forall i, (i < steps_count st + 1)%nat -> env i = IterOk) ->
  ((0 < size)%Z ->
   downloads (handleExportVideo supported env size st)
   = downloads st ++ [mkDownload [size] (pick_mimeType supported)]) /\
  ((size <= 0)%Z ->
   downloads (handleExportVideo supported env size st)
   = downloads st ++ [mkDownload [] (pick_mimeType supported)]).
Proof.
  intros Hc He Hall.
  destruct (completed_job supported env size st Hc He Hall) as [_ Hd].
  rewrite Hd. split; intros Hs.
  - now replace (0 <? size)%Z with true by (symmetry; apply Z.ltb_lt; lia).
  - now replace (0 <? size)%Z with false by (symmetry; apply Z.ltb_ge; lia).
Qed.

Lemma export_delivers_one_artifact_witness :
  ((0 < 0)%Z ->
   downloads (handleExportVideo Demo.all_types Demo.env_fine 0 Demo.submitted)
   = downloads Demo.submitted
       ++ [mkDownload [0%Z] (pick_mimeType Demo.all_types)]) /\
  ((0 <= 0)%Z ->
   downloads (handleExportVideo Demo.all_types Demo.env_fine 0 Demo.submitted)
   = downloads Demo.submitted
       ++ [mkDownload [] (pick_mimeType Demo.all_types)]).
Proof.
  apply (@export_delivers_one_artifact Demo.all_types Demo.env_fine 0%Z
           Demo.submitted).
  - vm_compute. reflexivity.
  - vm_compute. reflexivity.
  - intros i _. reflexivity.
Defined.

(** While an export is stuck, no event changes the job, [isExporting] or
    the downloads. *)
Lemma step_export_stuck (ev : event) (st : App) :
  export_stuck st ->
  job (step ev st) = job st /\ isExporting (step ev st) = isExporting st /\
  downloads (step ev st) = downloads st.
Proof.
  intros (Hx & j & e & Hj & Hr).
  destruct ev; simpl; auto.
  - unfold handleSubmit_begin. destruct (blank (query st)); auto.
  - unfold handleSubmit_resume. destruct gen as [data|e0]; auto.
    destruct (decode_all (generateAudioSegments tts data)); auto.
  - unfold handleDeepDive. destruct (tutorialData st); auto.
  - unfold handleExportVideo_begin. rewrite Hx, orb_true_r. auto.
  - rewrite (iter_after_rejection env st Hj Hr). auto.
  - rewrite (finish_after_rejection size st Hj Hr). auto.
Qed.

(** X14.  An export that was cut short blocks exporting for good: after
    any further events [isExporting] is still true, the job and the
    downloads are unchanged, and an export request is still ignored. *)
Theorem failed_export_is_permanent (st : App) (post : list event) :
  export_stuck st ->
  isExporting (run post st) = true /\
  job (run post st) = job st /\
  downloads (run post st) = downloads st /\
  (forall supported,
     step (ExportClick supported) (run post st) = run post st).
Proof.
  revert st. induction post as [|ev post IH]; intros st Hs.
  - destruct Hs as (Hx & _). simpl. repeat split; auto.
    intros supported. unfold handleExportVideo_begin.
    now rewrite Hx, orb_true_r.
  - destruct (step_export_stuck ev Hs) as (Hj & Hx & Hd).
    assert (Hs' : export_stuck (step ev st)).
    { destruct Hs as (H1 & j & e & H2 & H3). split; [congruence|].
      exists j, e. split; [congruence | exact H3]. }
    destruct (IH _ Hs') as (A & B & C & D).
    simpl. repeat split; try congruence. exact D.
Qed.

Lemma failed_export_is_permanent_witness :
  isExporting
    (run [Replay 20; ExportClick Demo.all_types; ExportFinish 5]
       Samples.export_failed) = true /\
  job (run [Replay 20; ExportClick Demo.all_types; ExportFinish 5]
         Samples.export_failed) = job Samples.export_failed /\
  downloads
    (run [Replay 20; ExportClick Demo.all_types; ExportFinish 5]
       Samples.export_failed) = downloads Samples.export_failed /\
  (forall supported,
     step (ExportClick supported)
       (run [Replay 20; ExportClick Demo.all_types; ExportFinish 5]
          Samples.export_failed)
     = run [Replay 20; ExportClick Demo.all_types; ExportFinish 5]
         Samples.export_failed).
Proof.
  apply (@failed_export_is_permanent Samples.export_failed
           [Replay 20; ExportClick Demo.all_types; ExportFinish 5]).
  split; [vm_compute; reflexivity|].
  eexists. eexists. split; vm_compute; reflexivity.
Defined.

End ExportMore.

(** ** The code block *)

Module CodeBlockFacts.

Import CodeBlock.

Section Facts.

Variable A : Type.
Variable eqb : A -> A -> bool.
Hypothesis eqb_eq : forall x y, eqb x y = true <-> x = y.

Lemma startsWith_prefix (sep : list A) :
  forall s, startsWith eqb sep s = true ->
            s = sep ++ skipn (List.length sep) s.
Proof.
  induction sep as [|x sep IH]; intros s H; [reflexivity|].
  destruct s as [|y s]; [discriminate|]. simpl in H.
  apply andb_prop in H. destruct H as [Hxy Hrest].
  apply eqb_eq in Hxy. subst y. simpl. f_equal. now apply IH.
Qed.

Lemma startsWith_length (sep : list A) :
  forall s, startsWith eqb sep s = true ->
            (List.length sep <= List.length s)%nat.
Proof.
  induction sep as [|x sep IH]; intros s H; simpl; [lia|].
  destruct s as [|y s]; [discriminate|]. simpl in H.
  apply andb_prop in H. destruct H as [_ H]. apply IH in H. simpl. lia.
Qed.

Lemma split_from_nonempty (sep : list A) :
  forall s skip, split_from eqb sep skip s <> [].
Proof.
  induction s as [|c rest IH]; intros skip; [discriminate|].
  destruct skip as [|k]; [|apply IH].
  cbn [split_from]. destruct (startsWith eqb sep (c :: rest)); [discriminate|].
  destruct (split_from eqb sep 0 rest); discriminate.
Qed.

Lemma join_push (sep : list A) (c : A) (p : list A) (ps : list (list A)) :
  join sep ((c :: p) :: ps) = c :: join sep (p :: ps).
Proof. destruct ps; reflexivity. Qed.

Lemma join_empty_head (sep : list A) (ps : list (list A)) :
  ps <> [] -> join sep ([] :: ps) = sep ++ join sep ps.
Proof. destruct ps; [congruence | reflexivity]. Qed.

(** Joining the parts gives back what was split, from the point where the
    pending match ends. *)
Lemma split_from_join (sep : list A) :
  sep <> [] ->
  forall s skip, (skip <= List.length s)%nat ->
                 join sep (split_from eqb sep skip s) = skipn skip s.
Proof.
  intros Hsep. induction s as [|c rest IH]; intros skip Hskip.
  - simpl in Hskip. now replace skip with 0%nat by lia.
  - destruct skip as [|k].
    + cbn [split_from skipn].
      destruct (startsWith eqb sep (c :: rest)) eqn:E.
      * rewrite join_empty_head by apply split_from_nonempty.
        pose proof (startsWith_length _ _ E) as Hl.
        pose proof (startsWith_prefix _ _ E) as Hp.
        destruct sep as [|x sep']; [congruence|].
        cbn [List.length] in *. rewrite Nat.sub_succ, Nat.sub_0_r.
        rewrite IH by lia. cbn [skipn] in Hp. now rewrite <- Hp.
      * pose proof (IH 0%nat ltac:(lia)) as H0. cbn [skipn] in H0.
        destruct (split_from eqb sep 0 rest) as [|p ps] eqn:Es.
        { now apply split_from_nonempty in Es. }
        rewrite join_push. now rewrite H0.
    + cbn [split_from skipn]. apply IH. simpl in Hskip. lia.
Qed.

(** There are at least two parts exactly when the separator occurs. *)
Lemma split_from_two_parts (sep : list A) :
  sep <> [] ->
  forall s skip, (skip <= List.length s)%nat ->
    ((2 <= List.length (split_from eqb sep skip s))%nat <->
     includes eqb sep (skipn skip s) = true).
Proof.
  intros Hsep. induction s as [|c rest IH]; intros skip Hskip.
  - simpl in Hskip. replace skip with 0%nat by lia.
    destruct sep; [congruence|]. simpl. split; [lia | discriminate].
  - destruct skip as [|k].
    + cbn [split_from skipn includes].
      destruct (startsWith eqb sep (c :: rest)) eqn:E.
      * pose proof (split_from_nonempty sep rest (List.length sep - 1)) as Hn.
        destruct (split_from eqb sep (List.length sep - 1) rest);
          [congruence|].
        simpl. split; [reflexivity | lia].
      * pose proof (IH 0%nat ltac:(lia)) as H0. cbn [skipn] in H0.
        destruct (split_from eqb sep 0 rest) as [|p ps] eqn:Es.
        { now apply split_from_nonempty in Es. }
        cbn [orb List.length] in *. exact H0.
    + cbn [split_from skipn]. apply IH. simpl in Hskip. lia.
Qed.

(** [split] and [join] are inverse on a non-empty separator: joining
    the parts with the separator gives back the string; and there are two
    parts or more exactly when the string includes the separator. *)
Theorem split_join_roundtrip (sep s : list A) :
  sep <> [] ->
  join sep (split eqb sep s) = s /\
  split eqb sep s <> [] /\
  ((2 <= List.length (split eqb sep s))%nat <-> includes eqb sep s = true).
Proof.
  intros Hsep. unfold split. split; [|split].
  - exact (@split_from_join sep Hsep s 0%nat (Nat.le_0_l _)).
  - apply split_from_nonempty.
  - exact (@split_from_two_parts sep Hsep s 0%nat (Nat.le_0_l _)).
Qed.

(** *** Rows *)

Lemma interleave_text (h : list A) (parts : list (list A)) :
  List.concat (map (@piece_text A) (interleave h parts)) = join h parts.
Proof.
  induction parts as [|p [|q rest] IH]; simpl in *.
  - reflexivity.
  - apply app_nil_r.
  - now rewrite IH.
Qed.

Lemma interleave_marks (h : list A) (parts : list (list A)) :
  Forall (fun x => is_mark x = true -> piece_text x = h)
         (interleave h parts) /\
  List.length (filter (@is_mark A) (interleave h parts))
  = (List.length parts - 1)%nat.
Proof.
  induction parts as [|p [|q rest] [IH1 IH2]].
  - split; [constructor | reflexivity].
  - split; [|reflexivity]. repeat constructor. discriminate.
  - split.
    + cbn [interleave]. constructor; [discriminate|].
      constructor; [reflexivity | exact IH1].
    + cbn [interleave filter is_mark List.length] in *.
      rewrite IH2. lia.
Qed.

Variable newline : A.

Lemma renderLine_facts (highlight : option (list A))
    (line : list A) :
  List.concat (map (@piece_text A) (renderLine eqb newline highlight line))
  = match line with [] => [newline] | _ :: _ => line end /\
  Forall (fun x => is_mark x = true -> highlight = Some (piece_text x))
         (renderLine eqb newline highlight line) /\
  ((exists x, In x (renderLine eqb newline highlight line) /\
              is_mark x = true) <->
   (exists h, highlight = Some h /\ h <> [] /\
              includes eqb h line = true)) /\
  (forall h, highlight = Some h -> h <> [] ->
             includes eqb h line = true ->
             List.length (filter (@is_mark A)
                            (renderLine eqb newline highlight line))
             = (List.length (split eqb h line) - 1)%nat).
Proof.
  assert (Hplain :
    forall l : list A,
      let plain := match l with
                   | [] => [Plain [newline]]
                   | _ :: _ => [Plain l]
                   end in
      List.concat (map (@piece_text A) plain)
      = match l with [] => [newline] | _ :: _ => l end /\
      Forall (fun x => is_mark x = true -> highlight = Some (piece_text x))
             plain /\
      ~ (exists x, In x plain /\ is_mark x = true)).
  { intros l. destruct l as [|c l]; cbn.
    - split; [reflexivity|]. split; [repeat constructor; discriminate|].
      intros [x [[<-|[]] Hm]]. discriminate.
    - split; [now rewrite app_nil_r|].
      split; [repeat constructor; discriminate|].
      intros [x [[<-|[]] Hm]]. discriminate. }
  destruct (Hplain line) as (P1 & P2 & P3).
  unfold renderLine.
  destruct highlight as [[|h hs]|].
  - split; [exact P1|]. split; [exact P2|]. split.
    + split; [intros H; now apply P3 in H|].
      intros (h & [= <-] & Hne & _). congruence.
    + intros h [= <-] Hne. congruence.
  - destruct (includes eqb (h :: hs) line) eqn:E.
    + assert (Hsep : h :: hs <> []) by discriminate.
      pose proof (@split_from_join (h :: hs) Hsep line 0%nat (Nat.le_0_l _))
        as J.
      pose proof (@split_from_two_parts (h :: hs) Hsep line 0%nat
                    (Nat.le_0_l _)) as T.
      cbn [skipn] in J, T. fold (split eqb (h :: hs) line) in J, T.
      destruct (interleave_marks (h :: hs) (split eqb (h :: hs) line))
        as (M1 & M2).
      split.
      { rewrite interleave_text, J.
        destruct line; [|reflexivity].
        destruct hs; discriminate. }
      split.
      { eapply Forall_impl; [|exact M1]. intros x Hx Hm.
        now rewrite (Hx Hm). }
      split.
      { split.
        - intros _. exists (h :: hs). auto.
        - intros _. apply T in E.
          destruct (filter (@is_mark A)
                      (interleave (h :: hs) (split eqb (h :: hs) line)))
            as [|x l] eqn:Ef.
          + simpl in M2. lia.
          + exists x.
            assert (Hin : In x (filter (@is_mark A)
                                  (interleave (h :: hs)
                                     (split eqb (h :: hs) line))))
              by (rewrite Ef; now left).
            apply filter_In in Hin. exact Hin. }
      intros h' [= <-] _ _. exact M2.
    + split; [exact P1|]. split; [exact P2|]. split.
      * split; [intros H; now apply P3 in H|].
        intros (h' & [= <-] & _ & Hi). congruence.
      * intros h' [= <-] _ Hi. congruence.
  - split; [exact P1|]. split; [exact P2|]. split.
    + split; [intros H; now apply P3 in H|].
      intros (h & Hh & _). discriminate.
    + intros h Hh. discriminate.
Qed.

(** X15.  A row shows the text of its line and nothing else: the pieces of
    a non-empty line concatenate to the line, highlighted or not (an empty
    line shows a lone newline).  Every marked piece is the highlight
    itself, and a row has marks exactly when a non-empty highlight occurs
    in its line, one mark less than there are parts. *)
Theorem renderLine_preserves_text (highlight : option (list A))
    (line : list A) :
  List.concat (map (@piece_text A) (renderLine eqb newline highlight line))
  = match line with [] => [newline] | _ :: _ => line end /\
  Forall (fun x => is_mark x = true -> highlight = Some (piece_text x))
         (renderLine eqb newline highlight line) /\
  ((exists x, In x (renderLine eqb newline highlight line) /\
              is_mark x = true) <->
   (exists h, highlight = Some h /\ h <> [] /\
              includes eqb h line = true)) /\
  (forall h, highlight = Some h -> h <> [] ->
             includes eqb h line = true ->
             List.length (filter (@is_mark A)
                            (renderLine eqb newline highlight line))
             = (List.length (split eqb h line) - 1)%nat).
Proof. exact (renderLine_facts highlight line). Qed.

(** *** The whole block *)

Lemma combine_fst {B C : Type} (l1 : list B) :
  forall l2 : list C,
    List.length l1 = List.length l2 -> map fst (combine l1 l2) = l1.
Proof.
  induction l1 as [|x l1 IH]; intros [|y l2] H; simpl in *;
    try discriminate; [reflexivity|].
  f_equal. apply IH. lia.
Qed.

Lemma combine_snd {B C : Type} (l1 : list B) :
  forall l2 : list C,
    List.length l1 = List.length l2 -> map snd (combine l1 l2) = l2.
Proof.
  induction l1 as [|x l1 IH]; intros [|y l2] H; simpl in *;
    try discriminate; [reflexivity|].
  f_equal. apply IH. lia.
Qed.

(** Splitting at newlines: one line more than there are newlines, and no
    line contains one. *)
Lemma split_lines (s : list A) :
  List.length (split eqb [newline] s)
  = S (List.length (filter (eqb newline) s)) /\
  Forall (fun line => Forall (fun c => c <> newline) line)
         (split eqb [newline] s).
Proof.
  unfold split. induction s as [|c rest [IH1 IH2]].
  - split; [reflexivity | repeat constructor].
  - cbn [split_from startsWith List.length Nat.sub filter].
    rewrite andb_true_r.
    destruct (eqb newline c) eqn:E.
    + split.
      * cbn [List.length]. now rewrite IH1.
      * constructor; [constructor | exact IH2].
    + assert (Hc : c <> newline).
      { intros ->. assert (eqb newline newline = true) by now apply eqb_eq.
        congruence. }
      destruct (split_from eqb [newline] 0 rest) as [|p ps] eqn:Es.
      { now apply split_from_nonempty in Es. }
      split; [exact IH1|].
      inversion_clear IH2 as [|? ? Hp Hps].
      constructor; [constructor; assumption | exact Hps].
Qed.

(** X16.  [renderCode] shows the code line by line and loses nothing:
    there is one row per line, numbered 1, 2, ... up to one more than the
    number of newlines; no row spans a newline; each row shows the text of
    its line (a lone newline for an empty line), whatever the highlight;
    and the lines joined by newlines are the code. *)
Theorem renderCode_rows (highlight : option (list A)) (code : list A) :
  map fst (renderCode eqb newline highlight code)
  = seq 1 (S (List.length (filter (eqb newline) code))) /\
  map (@row_text A) (renderCode eqb newline highlight code)
  = map (fun line => match line with [] => [newline] | _ :: _ => line end)
        (split eqb [newline] code) /\
  Forall (fun line => Forall (fun c => c <> newline) line)
         (split eqb [newline] code) /\
  join [newline] (split eqb [newline] code) = code.
Proof.
  destruct (split_lines code) as [Hlen Hlines].
  unfold renderCode.
  assert (Hl : List.length (seq 1 (List.length (split eqb [newline] code)))
               = List.length (map (renderLine eqb newline highlight)
                                (split eqb [newline] code)))
    by now rewrite length_seq, length_map.
  split; [|split; [|split]].
  - rewrite (combine_fst _ _ Hl). now rewrite Hlen.
  - assert (Hrow : forall l : list (nat * list (piece A)),
               map (@row_text A) l
               = map (fun ps => List.concat (map (@piece_text A) ps))
                   (map snd l))
      by (intros l; now rewrite map_map).
    rewrite Hrow, (combine_snd _ _ Hl), map_map.
    apply map_ext. intros line.
    now destruct (renderLine_facts highlight line) as [H _].
  - exact Hlines.
  - assert (Hsep : [newline] <> []) by discriminate.
    exact (@split_from_join [newline] Hsep code 0%nat (Nat.le_0_l _)).
Qed.

End Facts.

Lemma split_join_roundtrip_witness :
  join (list_ascii_of_string "ab")
    (split Ascii.eqb (list_ascii_of_string "ab")
       (list_ascii_of_string "xabyabz"))
  = list_ascii_of_string "xabyabz" /\
  split Ascii.eqb (list_ascii_of_string "ab") (list_ascii_of_string "xabyabz")
  <> [] /\
  ((2 <= List.length
           (split Ascii.eqb (list_ascii_of_string "ab")
              (list_ascii_of_string "xabyabz")))%nat <->
   includes Ascii.eqb (list_ascii_of_string "ab")
     (list_ascii_of_string "xabyabz") = true).
Proof.
  apply (@split_join_roundtrip ascii Ascii.eqb Ascii.eqb_eq
           (list_ascii_of_string "ab") (list_ascii_of_string "xabyabz")).
  simpl. discriminate.
Defined.

Lemma renderLine_preserves_text_witness :
  List.concat
    (map (@piece_text ascii)
       (renderLine Ascii.eqb "010"%char (Some (list_ascii_of_string "grid"))
          (list_ascii_of_string "display: grid;")))
  = list_ascii_of_string "display: grid;" /\
  Forall (fun x => is_mark x = true ->
                   Some (list_ascii_of_string "grid") = Some (piece_text x))
    (renderLine Ascii.eqb "010"%char (Some (list_ascii_of_string "grid"))
       (list_ascii_of_string "display: grid;")) /\
  ((exists x,
      In x (renderLine Ascii.eqb "010"%char
              (Some (list_ascii_of_string "grid"))
              (list_ascii_of_string "display: grid;")) /\
      is_mark x = true) <->
   (exists h, Some (list_ascii_of_string "grid") = Some h /\ h <> [] /\
              includes Ascii.eqb h (list_ascii_of_string "display: grid;")
              = true)) /\
  (forall h, Some (list_ascii_of_string "grid") = Some h -> h <> [] ->
             includes Ascii.eqb h (list_ascii_of_string "display: grid;")
             = true ->
             List.length
               (filter (@is_mark ascii)
                  (renderLine Ascii.eqb "010"%char
                     (Some (list_ascii_of_string "grid"))
                     (list_ascii_of_string "display: grid;")))
             = (List.length
                  (split Ascii.eqb h (list_ascii_of_string "display: grid;"))
                - 1)%nat).
Proof.
  exact (@renderLine_preserves_text ascii Ascii.eqb Ascii.eqb_eq "010"%char
           (Some (list_ascii_of_string "grid"))
           (list_ascii_of_string "display: grid;")).
Defined.

Lemma renderCode_rows_witness :
  map fst
    (renderCode Ascii.eqb "010"%char (Some (list_ascii_of_string "b"))
       ["a"; "b"; "010"; "010"; "c"]%char)
  = seq 1 (S (List.length
                (filter (Ascii.eqb "010"%char) ["a"; "b"; "010"; "010"; "c"]%char))) /\
  map (@row_text ascii)
    (renderCode Ascii.eqb "010"%char (Some (list_ascii_of_string "b"))
       ["a"; "b"; "010"; "010"; "c"]%char)
  = map (fun line => match line with [] => ["010"%char] | _ :: _ => line end)
      (split Ascii.eqb ["010"%char] ["a"; "b"; "010"; "010"; "c"]%char) /\
  Forall (fun line => Forall (fun c => c <> "010"%char) line)
    (split Ascii.eqb ["010"%char] ["a"; "b"; "010"; "010"; "c"]%char) /\
  join ["010"%char]
    (split Ascii.eqb ["010"%char] ["a"; "b"; "010"; "010"; "c"]%char)
  = ["a"; "b"; "010"; "010"; "c"]%char.
Proof.
  exact (@renderCode_rows ascii Ascii.eqb Ascii.eqb_eq "010"%char
           (Some (list_ascii_of_string "b"))
           ["a"; "b"; "010"; "010"; "c"]%char).
Defined.

End CodeBlockFacts.

(** ** The highlight and the deep-dive title *)

Module AppViewFacts.

Import GeminiService Player App AppView.

Lemma plain_rows_have_no_mark (code : list ascii) :
  Forall (fun row => Forall (fun x => CodeBlock.is_mark x = false) (snd row))
    (CodeBlock.renderCode Ascii.eqb "010"%char None code).
Proof.
  unfold CodeBlock.renderCode. apply Forall_forall. intros [n ps] Hin.
  apply in_combine_r in Hin. apply in_map_iff in Hin.
  destruct Hin as [line [<- _]]. simpl.
  destruct line; repeat constructor.
Qed.

(** X17.  The highlight follows the step shown and never reads outside
    the steps: there is none for the overview (index 0, which is also
    where the engine rests once Ended) nor for an index past the last
    step; for index [i] between 1 and the number of steps it is the code
    fragment of step [i - 1]; and without a highlight no row of the code
    block is marked. *)
Theorem currentHighlight_follows_step (st : App) :
  (currentStepIndex (playback st) = 0%nat -> currentHighlight st = None) /\
  (is_ended (playback st) -> currentHighlight st = None) /\
  (forall d, tutorialData st = Some d ->
     (List.length (steps d) < currentStepIndex (playback st))%nat ->
     currentHighlight st = None) /\
  (forall d, tutorialData st = Some d ->
     (1 <= currentStepIndex (playback st) <= List.length (steps d))%nat ->
     exists step,
       nth_error (steps d) (currentStepIndex (playback st) - 1) = Some step /\
       currentHighlight st = Some (lineCode step)) /\
  (currentHighlight st = None ->
   Forall (fun row => Forall (fun x => CodeBlock.is_mark x = false) (snd row))
     (codeBlockRows st)).
Proof.
  unfold currentHighlight, codeBlockRows.
  split; [|split; [|split; [|split]]].
  - intros H. destruct (tutorialData st); [|reflexivity]. now rewrite H.
  - intros (_ & _ & H & _). destruct (tutorialData st); [|reflexivity].
    now rewrite H.
  - intros d Hd Hi. rewrite Hd.
    replace (currentStepIndex (playback st) <=? List.length (steps d))%nat
      with false by (symmetry; apply Nat.leb_gt; lia).
    now rewrite andb_false_r.
  - intros d Hd [Hlo Hhi]. rewrite Hd.
    replace (0 <? currentStepIndex (playback st))%nat with true
      by (symmetry; apply Nat.ltb_lt; lia).
    replace (currentStepIndex (playback st) <=? List.length (steps d))%nat
      with true by (symmetry; apply Nat.leb_le; lia).
    destruct (nth_error (steps d) (currentStepIndex (playback st) - 1))
      as [step|] eqn:E.
    + exists step. auto.
    + apply nth_error_None in E. lia.
  - destruct (tutorialData st) as [d|] eqn:Hd; [|constructor].
    intros H.
    assert (Hc : currentHighlight st = None)
      by (unfold currentHighlight; rewrite Hd; exact H).
    rewrite Hc. destruct (loadingState st); try constructor.
    apply plain_rows_have_no_mark.
Qed.

Lemma length_append (s1 s2 : string) :
  String.length (s1 ++ s2) = (String.length s1 + String.length s2)%nat.
Proof. induction s1 as [|c s1 IH]; simpl; [reflexivity | now rewrite IH]. Qed.

Lemma length_substring_0 (n : nat) :
  forall s : string,
    String.length (substring 0 n s) = Nat.min n (String.length s).
Proof.
  induction n as [|n IH]; intros [|c s]; simpl; try reflexivity.
  now rewrite IH.
Qed.

Lemma substring_0_prefix (n : nat) :
  forall s : string, prefix (substring 0 n s) s = true.
Proof.
  induction n as [|n IH]; intros [|c s]; simpl; try reflexivity.
  destruct (ascii_dec c c); [apply IH | congruence].
Qed.

(** X18.  The title of the deep-dive panel is never longer than 33
    characters: a snippet of at most 30 is shown whole, a longer one is cut
    to its first 30 characters followed by three dots. *)
Theorem deepDiveTitle_bounded (snippet : string) :
  (String.length (deepDiveTitle snippet) <= 33)%nat /\
  ((String.length snippet <= 30)%nat -> deepDiveTitle snippet = snippet) /\
  ((30 < String.length snippet)%nat ->
   deepDiveTitle snippet = (substring 0 30 snippet ++ "...")%string /\
   String.length (deepDiveTitle snippet) = 33%nat /\
   prefix (substring 0 30 snippet) snippet = true).
Proof.
  unfold deepDiveTitle.
  destruct (Nat.ltb_spec 30 (String.length snippet)) as [H|H].
  - assert (L : String.length (substring 0 30 snippet ++ "...") = 33%nat).
    { rewrite length_append, length_substring_0, Nat.min_l by lia.
      reflexivity. }
    split; [lia|]. split; [lia|]. intros _.
    split; [reflexivity|]. split; [exact L | apply substring_0_prefix].
  - split; [lia|]. split; [reflexivity | lia].
Qed.

End AppViewFacts.

(** ** Nodes are used once *)

Module NodeFacts.

Import Platform GeminiService Player App Predicates.

Lemma later_node_refl (n : SourceNode) : later_node n n.
Proof. unfold later_node. auto. Qed.

Lemma nodes_kept_refl (l : list SourceNode) : nodes_kept l l.
Proof. intros s n H. exists n. split; [exact H | apply later_node_refl]. Qed.

Lemma nodes_kept_trans (l1 l2 l3 : list SourceNode) :
  nodes_kept l1 l2 -> nodes_kept l2 l3 -> nodes_kept l1 l3.
Proof.
  intros H12 H23 s n Hn.
  destruct (H12 s n Hn) as (n2 & Hn2 & A1 & A2 & A3 & A4).
  destruct (H23 s n2 Hn2) as (n3 & Hn3 & B1 & B2 & B3 & B4).
  exists n3. split; [exact Hn3|]. unfold later_node.
  repeat split; try congruence; auto.
Qed.

Lemma nodes_kept_app (l extra : list SourceNode) : nodes_kept l (l ++ extra).
Proof.
  intros s n Hn. exists n. split; [|apply later_node_refl].
  rewrite nth_error_app1; [exact Hn|]. apply nth_error_Some. congruence.
Qed.

Lemma nodes_kept_update (f : SourceNode -> SourceNode) (s : nat) :
  (forall n, later_node n (f n)) ->
  forall l, nodes_kept l (update_node s f l).
Proof.
  intros Hf l. revert s.
  induction l as [|h t IH]; intros s i n Hn.
  - now destruct i.
  - destruct s as [|s], i as [|i]; simpl in *.
    + injection Hn as <-. eauto.
    + exists n. split; [exact Hn | apply later_node_refl].
    + injection Hn as <-. exists h. split; [reflexivity | apply later_node_refl].
    + now apply IH.
Qed.

Lemma stop_node_later (n : SourceNode) : later_node n (stop_node n).
Proof. unfold later_node. simpl. auto. Qed.

Lemma stop_disconnect_later (n : SourceNode) :
  later_node n (disconnect_node (stop_node n)).
Proof. unfold later_node. simpl. auto. Qed.

Lemma playSegment_keeps (now : Q) (index : nat) (offset : Q) (p : Playback) :
  nodes_kept (nodes p) (nodes (playSegment now index offset p)).
Proof.
  unfold playSegment.
  destruct (List.length (audioBuffers p) <=? index)%nat; simpl;
    [apply nodes_kept_refl | apply nodes_kept_app].
Qed.

Lemma pauseAudio_keeps (now : Q) (p : Playback) :
  nodes_kept (nodes p) (nodes (pauseAudio now p)).
Proof.
  unfold pauseAudio.
  destruct (audioSource p); [|apply nodes_kept_refl].
  destruct (audioContext p); [|apply nodes_kept_refl].
  simpl. apply nodes_kept_update. exact stop_node_later.
Qed.

Lemma stopAudio_keeps (p : Playback) :
  nodes_kept (nodes p) (nodes (stopAudio p)).
Proof.
  unfold stopAudio. simpl.
  destruct (audioSource p); [|apply nodes_kept_refl].
  apply (@nodes_kept_update (fun x => disconnect_node (stop_node x))).
  exact stop_disconnect_later.
Qed.

Lemma onended_keeps (now : Q) (s : nat) (p : Playback) :
  nodes_kept (nodes p) (nodes (onended now s p)).
Proof.
  unfold onended.
  destruct (nth_error (nodes p) s); [|apply nodes_kept_refl].
  destruct (source_is p s); [apply playSegment_keeps | apply nodes_kept_refl].
Qed.

Lemma step_keeps (ev : event) (st : App) :
  nodes_kept (nodes (playback st)) (nodes (playback (step ev st))).
Proof.
  destruct ev; simpl.
  - apply nodes_kept_refl.
  - unfold handleSubmit_begin. destruct (blank (query st));
      [apply nodes_kept_refl | apply stopAudio_keeps].
  - unfold handleSubmit_resume. destruct gen as [data|e];
      [|apply nodes_kept_refl].
    destruct (decode_all (generateAudioSegments tts data)) as [buffers|e];
      [|apply nodes_kept_refl].
    apply (playSegment_keeps now _ _ (with_buffers (playback st) buffers)).
  - unfold handleTogglePlay. destruct (isPlaying (playback st));
      [apply pauseAudio_keeps | apply playSegment_keeps].
  - unfold handleReplay.
    eapply nodes_kept_trans; [apply stopAudio_keeps | apply playSegment_keeps].
  - unfold handleDeepDive. destruct (tutorialData st);
      [apply pauseAudio_keeps | apply nodes_kept_refl].
  - unfold handleExportVideo_begin.
    destruct (negb (exportContainer st) || isExporting st);
      [apply nodes_kept_refl | apply stopAudio_keeps].
  - unfold handleExportVideo_iter.
    destruct (job st) as [j|]; [|apply nodes_kept_refl].
    destruct (rejected j); [apply nodes_kept_refl|].
    destruct (loop_i j <? totalSteps j)%nat; [|apply nodes_kept_refl].
    destruct env; apply nodes_kept_refl.
  - unfold handleExportVideo_finish.
    destruct (job st) as [j|]; [|apply nodes_kept_refl].
    destruct (rejected j); [apply nodes_kept_refl|].
    destruct (loop_i j <? totalSteps j)%nat; apply nodes_kept_refl.
  - apply stopAudio_keeps.
  - apply onended_keeps.
Qed.

Lemma run_keeps (evs : list event) :
  forall st : App,
    nodes_kept (nodes (playback st)) (nodes (playback (run evs st))).
Proof.
  induction evs as [|ev evs IH]; intros st; [apply nodes_kept_refl|].
  simpl. eapply nodes_kept_trans; [apply step_keeps | apply IH].
Qed.

(** X19.  An audio node is used once.  Whatever events follow, a node that
    exists stays at its place with the segment and the start offset it was
    created with, a node that was stopped is never started again, and a
    node that was disconnected is never reconnected. *)
Theorem nodes_are_never_reused (st : App) (evs : list event) (s : nat)
    (n : SourceNode) :
  nth_error (nodes (playback st)) s = Some n ->
  exists n',
    nth_error (nodes (playback (run evs st))) s = Some n' /\
    src_index n' = src_index n /\ src_offset n' = src_offset n /\
    (src_stopped n = true -> src_stopped n' = true) /\
    (src_connected n = false -> src_connected n' = false).
Proof.
  intros H. pose proof (run_keeps evs st) as K.
  unfold nodes_kept, later_node in K. exact (K s n H).
Qed.

Lemma nodes_are_never_reused_witness :
  exists n',
    nth_error
      (nodes (playback (run [Replay 3; TogglePlay 4; TogglePlay 5]
                          Demo.submitted))) 0
    = Some n' /\
    src_index n' = src_index (mkSource 0 0 false true) /\
    src_offset n' = src_offset (mkSource 0 0 false true) /\
    (src_stopped (mkSource 0 0 false true) = true -> src_stopped n' = true) /\
    (src_connected (mkSource 0 0 false true) = false ->
     src_connected n' = false).
Proof.
  apply (@nodes_are_never_reused Demo.submitted
           [Replay 3; TogglePlay 4; TogglePlay 5] 0%nat
           (mkSource 0 0 false true)).
  vm_compute. reflexivity.
Defined.

End NodeFacts.
